(** * Universal Input Sanitizer: a shallow embedding of [sanitizer.py]

    The Python module works on [str] values, that is, on finite sequences of
    Unicode code points.  A character is modelled by its code point (an [N]),
    a string by the list of its code points.  The character classes Python
    consults ([str.isspace] / the regex class [\s], line boundaries of
    [str.splitlines], [str.isdigit], the regex class [\d], [str.isprintable],
    the case mappings of [str.lower]) are the tables of the Unicode database
    14.0.0 shipped with CPython 3.11, written out as ranges.

    The library calls of the module are modelled as CPython runs them: the
    patterns by a backtracking matcher with greedy quantifiers, [json.loads]
    by the scanner of the [_json] module, [json.dumps] by its encoder with
    [ensure_ascii=False].  Floating-point conversion is a parameter
    ([PyFloat]).  A Python exception is a value ([outcome]).

    Interpreter resource limits (recursion depth, the cap on the number of
    digits of an integer literal) are not part of the model.

    The functions [sanitize] and [escape_for] of [__init__.py] are embedded
    with the module.  The command line of [cli.py] is not: what it does
    beyond calling [sanitize_value] and [language_escape] is argument
    parsing and input and output, whose encodings the environment decides. *)

From Stdlib Require Import String Ascii.
From Stdlib Require Import List NArith ZArith Bool Arith Lia.
From Stdlib Require DecimalFacts DecimalPos.
Import ListNotations.

Set Implicit Arguments.
Set Warnings "-register-all".

(** ** Characters and strings *)

Definition char := N.
Definition pystr := list char.

(** [str "..."] reads an ASCII literal as a Python string. *)
Definition str (s : string) : pystr :=
  map N_of_ascii (list_ascii_of_string s).

Definition chr_eqb (a b : char) : bool := N.eqb a b.

Fixpoint str_eqb (a b : pystr) : bool :=
  match a, b with
  | [], [] => true
  | x :: a', y :: b' => chr_eqb x y && str_eqb a' b'
  | _, _ => false
  end.

(** Named code points used by the source. *)
Definition c_lf : char := 10%N.
Definition c_cr : char := 13%N.
Definition c_space : char := 32%N.
Definition c_dquote : char := 34%N.
Definition c_hash : char := 35%N.
Definition c_amp : char := 38%N.
Definition c_squote : char := 39%N.
Definition c_lparen : char := 40%N.
Definition c_rparen : char := 41%N.
Definition c_star : char := 42%N.
Definition c_plus : char := 43%N.
Definition c_comma : char := 44%N.
Definition c_minus : char := 45%N.
Definition c_dot : char := 46%N.
Definition c_slash : char := 47%N.
Definition c_colon : char := 58%N.
Definition c_lt : char := 60%N.
Definition c_eq : char := 61%N.
Definition c_gt : char := 62%N.
Definition c_question : char := 63%N.
Definition c_at : char := 64%N.
Definition c_lbracket : char := 91%N.
Definition c_backslash : char := 92%N.
Definition c_rbracket : char := 93%N.
Definition c_lbrace : char := 123%N.
Definition c_rbrace : char := 125%N.

(** ** Unicode character classes *)

Definition in_range (c : char) (r : N * N) : bool :=
  (N.leb (fst r) c && N.leb c (snd r))%bool.

Definition in_ranges (rs : list (N * N)) (c : char) : bool :=
  existsb (in_range c) rs.

(** [str.isspace], also the regex class [\s] and what [str.strip] removes. *)
Definition whitespace_ranges : list (N * N) :=
  [(9, 13); (28, 32); (133, 133); (160, 160); (5760, 5760); (8192, 8202);
   (8232, 8233); (8239, 8239); (8287, 8287); (12288, 12288)]%N.

Definition isspace (c : char) : bool := in_ranges whitespace_ranges c.

(** Line boundaries of [str.splitlines]. *)
Definition linebreak_ranges : list (N * N) :=
  [(10, 13); (28, 30); (133, 133); (8232, 8233)]%N.

Definition islinebreak (c : char) : bool := in_ranges linebreak_ranges c.

(** The regex class [\d] (also [str.isdecimal]): general category Nd. *)
Definition decimal_ranges : list (N * N) :=
  [(48, 57); (1632, 1641); (1776, 1785); (1984, 1993); (2406, 2415);
   (2534, 2543); (2662, 2671); (2790, 2799); (2918, 2927); (3046, 3055);
   (3174, 3183); (3302, 3311); (3430, 3439); (3558, 3567); (3664, 3673);
   (3792, 3801); (3872, 3881); (4160, 4169); (4240, 4249); (6112, 6121);
   (6160, 6169); (6470, 6479); (6608, 6617); (6784, 6793); (6800, 6809);
   (6992, 7001); (7088, 7097); (7232, 7241); (7248, 7257); (42528, 42537);
   (43216, 43225); (43264, 43273); (43472, 43481); (43504, 43513);
   (43600, 43609); (44016, 44025); (65296, 65305); (66720, 66729);
   (68912, 68921); (69734, 69743); (69872, 69881); (69942, 69951);
   (70096, 70105); (70384, 70393); (70736, 70745); (70864, 70873);
   (71248, 71257); (71360, 71369); (71472, 71481); (71904, 71913);
   (72016, 72025); (72784, 72793); (73040, 73049); (73120, 73129);
   (92768, 92777); (92864, 92873); (93008, 93017); (120782, 120831);
   (123200, 123209); (123632, 123641); (125264, 125273);
   (130032, 130041)]%N.

Definition isdecimal (c : char) : bool := in_ranges decimal_ranges c.

(** [str.isdigit]: the decimal digits and the characters whose numeric type
    is Digit (superscripts, circled digits, ...). *)
Definition digit_only_ranges : list (N * N) :=
  [(178, 179); (185, 185); (4969, 4977); (6618, 6618); (8304, 8304);
   (8308, 8313); (8320, 8329); (9312, 9320); (9332, 9340); (9352, 9360);
   (9450, 9450); (9461, 9469); (9471, 9471); (10102, 10110);
   (10112, 10120); (10122, 10130); (68160, 68163); (69216, 69224);
   (69714, 69722); (127232, 127242)]%N.

Definition isdigit (c : char) : bool :=
  (isdecimal c || in_ranges digit_only_ranges c)%bool.

(** ** The [str] methods the module calls *)

Fixpoint lstrip (s : pystr) : pystr :=
  match s with
  | c :: s' => if isspace c then lstrip s' else s
  | [] => []
  end.

Definition rstrip (s : pystr) : pystr := rev (lstrip (rev s)).

(** [s.strip()] *)
Definition strip (s : pystr) : pystr := rstrip (lstrip s).

(** [s.startswith(c)] and [s.endswith(c)] for a one-character [c]. *)
Definition startswith (c : char) (s : pystr) : bool :=
  match s with
  | x :: _ => chr_eqb x c
  | [] => false
  end.

Definition endswith (c : char) (s : pystr) : bool := startswith c (rev s).

(** [c in s] for a one-character [c]. *)
Definition contains (c : char) (s : pystr) : bool := existsb (chr_eqb c) s.

(** [s.replace(c, r)]; every pattern the module replaces is one character
    long, so the occurrences cannot overlap. *)
Definition replace (c : char) (r : pystr) (s : pystr) : pystr :=
  flat_map (fun x => if chr_eqb x c then r else [x]) s.

(** [c * n] *)
Definition times (c : char) (n : nat) : pystr := repeat c n.

(** [sep.join(parts)] *)
Fixpoint join (sep : pystr) (parts : list pystr) : pystr :=
  match parts with
  | [] => []
  | [p] => p
  | p :: rest => p ++ sep ++ join sep rest
  end.

(** [s.split(c)]: cut at every occurrence of [c]. *)
Fixpoint split_on (c : char) (s : pystr) : list pystr :=
  match s with
  | [] => [[]]
  | x :: s' =>
      if chr_eqb x c then [] :: split_on c s'
      else match split_on c s' with
           | p :: ps => (x :: p) :: ps
           | [] => [[x]]
           end
  end.

(** [s.split(c, 1)] on a string that contains [c]: cut at the first one. *)
Fixpoint split_first (c : char) (s : pystr) : pystr * pystr :=
  match s with
  | [] => ([], [])
  | x :: s' =>
      if chr_eqb x c then ([], s')
      else let (k, v) := split_first c s' in (x :: k, v)
  end.

(** [s.splitlines()]: [cur] is the line being read (reversed), [after_cr]
    tells whether the previous character was a carriage return, so that a
    following line feed belongs to the same boundary.  A last line without a
    terminator is kept when it is not empty. *)
Fixpoint splitlines_from (cur : pystr) (after_cr : bool) (s : pystr)
  : list pystr :=
  match s with
  | [] => match cur with [] => [] | _ => [rev cur] end
  | c :: s' =>
      if (after_cr && chr_eqb c c_lf)%bool then splitlines_from [] false s'
      else if islinebreak c then
        rev cur :: splitlines_from [] (chr_eqb c c_cr) s'
      else splitlines_from (c :: cur) false s'
  end.

Definition splitlines (s : pystr) : list pystr :=
  splitlines_from [] false s.

(** ** Regular expressions

    Every pattern of the module is a sequence of one-character classes, each
    under a greedy quantifier [{lo,hi}] ([hi = None] for no upper bound).
    [re_match] is the backtracking search of Python's [re]: an item first
    takes as many characters as it can and gives them back one at a time
    while the rest of the pattern fails.  The result lists what each item
    matched, and the unread input. *)

Record item : Type := Item {
  cls : char -> bool;
  lo : nat;
  hi : option nat
}.

Definition one (p : char -> bool) : item := Item p 1 (Some 1).
Definition opt (p : char -> bool) : item := Item p 0 (Some 1).
Definition at_least (n : nat) (p : char -> bool) : item := Item p n None.
Definition lit (c : char) : item := one (chr_eqb c).

Fixpoint run_length (p : char -> bool) (s : pystr) : nat :=
  match s with
  | c :: s' => if p c then S (run_length p s') else 0
  | [] => 0
  end.

Definition max_take (it : item) (s : pystr) : nat :=
  match hi it with
  | Some h => Nat.min h (run_length (cls it) s)
  | None => run_length (cls it) s
  end.

(** Try to give the item [n], [n-1], ..., [lo] characters. *)
Fixpoint take_down (k : pystr -> option (list pystr * pystr))
  (s : pystr) (lo n : nat) : option (list pystr * pystr) :=
  if n <? lo then None
  else match k (skipn n s) with
       | Some (gs, rest) => Some (firstn n s :: gs, rest)
       | None => match n with
                 | 0 => None
                 | S n' => take_down k s lo n'
                 end
       end.

Fixpoint re_match (full : bool) (r : list item) (s : pystr)
  : option (list pystr * pystr) :=
  match r with
  | [] => if full then match s with [] => Some ([], []) | _ => None end
          else Some ([], s)
  | it :: r' => take_down (re_match full r') s (lo it) (max_take it s)
  end.

(** [r.fullmatch(s)] as a truth value. *)
Definition fullmatch (r : list item) (s : pystr) : bool :=
  match re_match true r s with Some _ => true | None => false end.

(** [r.search(s)]: the leftmost match; returns the skipped prefix, the
    pieces and the unread input. *)
Fixpoint search_from (r : list item) (skipped : pystr) (s : pystr)
  : option (pystr * list pystr * pystr) :=
  match re_match false r s with
  | Some (gs, rest) => Some (rev skipped, gs, rest)
  | None => match s with
            | [] => None
            | c :: s' => search_from r (c :: skipped) s'
            end
  end.

Definition search (r : list item) (s : pystr) := search_from r [] s.

Definition not_at_space (c : char) : bool :=
  negb (chr_eqb c c_at || isspace c).

(** [_EMAIL_RE = (?P<local>[^@\s]+)@(?P<domain>[^\s@]+\.[^\s@]+)] *)
Definition _EMAIL_RE : list item :=
  [at_least 1 not_at_space; lit c_at;
   at_least 1 not_at_space; lit c_dot; at_least 1 not_at_space].

Definition phone_body (c : char) : bool :=
  (isdecimal c || chr_eqb c c_minus || chr_eqb c c_lparen
   || chr_eqb c c_rparen || chr_eqb c c_space)%bool.

(** [_PHONE_RE = \+?\d[\d\-() ]{6,}\d] *)
Definition _PHONE_RE : list item :=
  [opt (chr_eqb c_plus); one isdecimal; at_least 6 phone_body; one isdecimal].

Definition not_space (c : char) : bool := negb (isspace c).

(** [_URL_RE = https?://[^\s]+] *)
Definition _URL_RE : list item :=
  [lit 104; lit 116; lit 116; lit 112; opt (chr_eqb 115);
   lit c_colon; lit c_slash; lit c_slash; at_least 1 not_space]%N.

(** ** Exceptions

    A Python call either returns or raises.  [StopIteration] is what
    [next] raises on an exhausted iterator; [RecursionError] stands for a
    call chain that used up its budget of nested calls. *)

Inductive exn : Type := StopIteration | RecursionError.

Inductive outcome (A : Type) : Type :=
| Returns (a : A)
| Raises (e : exn).

Arguments Returns {A} a.
Arguments Raises {A} e.

Definition omap {A B : Type} (f : A -> B) (o : outcome A) : outcome B :=
  match o with
  | Returns a => Returns (f a)
  | Raises e => Raises e
  end.

(** ** Masking utilities *)

(** The inner function [mask_part] of [mask_email]. *)
Definition mask_part (s : pystr) : pystr :=
  match s with
  | [] => []
  | [a] => [a; c_star]
  | [a; _] => [a; c_star]
  | a :: rest => a :: times c_star (length s - 2) ++ [last rest a]
  end.

Definition mask_email (value : pystr) : pystr :=
  match search _EMAIL_RE value with
  | Some (_, [local; _; d1; d2; d3], _) =>
      let domain := d1 ++ d2 ++ d3 in
      let domain_masked := join [c_dot] (map mask_part (split_on c_dot domain)) in
      mask_part local ++ [c_at] ++ domain_masked
  | _ => value
  end.

(** The loop of [mask_phone]: [it] is what the iterator over the masked
    digits still holds. *)
Fixpoint phone_layout (value it : pystr) : outcome pystr :=
  match value with
  | [] => Returns []
  | ch :: value' =>
      if isdigit ch then
        match it with
        | [] => Raises StopIteration
        | d :: it' => omap (cons d) (phone_layout value' it')
        end
      else omap (cons ch) (phone_layout value' it)
  end.

Definition mask_phone (value : pystr) : outcome pystr :=
  let digits := filter isdecimal value in
  if length digits <? 4 then Returns (times c_star (length digits))
  else
    let keep := 2 in
    let masked_digits :=
      times c_star (length digits - keep)
      ++ skipn (length digits - keep) digits in
    phone_layout value masked_digits.

Definition url_path_char (c : char) : bool :=
  negb (isspace c || chr_eqb c c_question).

Definition not_newline (c : char) : bool := negb (chr_eqb c c_lf).

(** The pattern [(https?://[^\s?]+)\?.*] of [strip_url_query]; group 1 is
    made of the first nine items. *)
Definition url_query_re : list item :=
  [lit 104; lit 116; lit 116; lit 112; opt (chr_eqb 115);
   lit c_colon; lit c_slash; lit c_slash; at_least 1 url_path_char;
   lit c_question; at_least 0 not_newline]%N.

(** [re.sub] with the replacement [\1]: every match, from left to right, is
    replaced by its first group.  A match is never empty, so [fuel] bounded
    by the length of the input is enough. *)
Fixpoint sub_group1 (fuel : nat) (s : pystr) : pystr :=
  match fuel with
  | 0 => s
  | S fuel' =>
      match search url_query_re s with
      | Some (before, gs, rest) =>
          before ++ concat (firstn 9 gs) ++ sub_group1 fuel' rest
      | None => s
      end
  end.

Definition strip_url_query (value : pystr) : pystr :=
  sub_group1 (S (length value)) value.

Definition escape_sql (value : pystr) : pystr :=
  replace c_squote [c_squote; c_squote] value.

Definition html_escape (value : pystr) : pystr :=
  replace c_squote (str "&#x27;")
    (replace c_dquote (str "&quot;")
       (replace c_gt (str "&gt;")
          (replace c_lt (str "&lt;")
             (replace c_amp (str "&amp;") value)))).

(** ** Language literal escaping *)

Definition _js_literal (s : pystr) : pystr :=
  [c_dquote]
  ++ replace c_dquote [c_backslash; c_dquote]
       (replace c_backslash [c_backslash; c_backslash] s)
  ++ [c_dquote].

Definition _java_literal (s : pystr) : pystr :=
  let esc :=
    replace c_cr (str "\r")
      (replace c_lf (str "\n")
         (replace c_dquote [c_backslash; c_dquote]
            (replace c_backslash [c_backslash; c_backslash] s))) in
  [c_dquote] ++ esc ++ [c_dquote].

Definition _c_literal (s : pystr) : pystr :=
  let esc :=
    replace c_lf (str "\n")
      (replace c_dquote [c_backslash; c_dquote]
         (replace c_backslash [c_backslash; c_backslash] s)) in
  [c_dquote] ++ esc ++ [c_dquote].

(** ** JSON values

    The numbers of a document are Python ints (unbounded, a [Z]) or floats.
    Floating-point conversion is not modelled: the float type and the two
    conversions the [json] module applies to it are the fields of
    [PyFloat]. *)

Class PyFloat : Type := {
  pyfloat : Type;
  (** [float(lit)] for a number literal with a fraction or an exponent, and
      for the constants NaN, Infinity and -Infinity *)
  float_of_literal : pystr -> pyfloat;
  (** the text [json.dumps] writes for a float: [float.__repr__], or NaN,
      Infinity, -Infinity *)
  float_str : pyfloat -> pystr
}.

Section JsonModel.

Context {F : PyFloat}.

Inductive json : Type :=
| JNull
| JBool (b : bool)
| JInt (z : Z)
| JFloat (f : pyfloat)
| JString (s : pystr)
| JArray (items : list json)
| JObject (members : list (pystr * json)).

(** [d[k] = v] on a dict kept as the list of its items in insertion order:
    a key already present keeps its place and takes the new value. *)
Fixpoint dict_set (d : list (pystr * json)) (k : pystr) (v : json)
  : list (pystr * json) :=
  match d with
  | [] => [(k, v)]
  | (k', v') :: d' =>
      if str_eqb k' k then (k', v) :: d' else (k', v') :: dict_set d' k v
  end.

Definition dict_of_pairs (pairs : list (pystr * json)) : list (pystr * json) :=
  fold_left (fun d kv => dict_set d (fst kv) (snd kv)) pairs [].

(** *** [json.loads]: the scanner of CPython's [_json] module *)

Definition is_json_ws (c : char) : bool :=
  (chr_eqb c 32%N || chr_eqb c 9%N || chr_eqb c 10%N || chr_eqb c 13%N)%bool.

Fixpoint skip_ws (s : pystr) : pystr :=
  match s with
  | c :: s' => if is_json_ws c then skip_ws s' else s
  | [] => []
  end.

Definition is_ascii_digit (c : char) : bool :=
  (N.leb 48%N c && N.leb c 57%N)%bool.

Definition hex_value (c : char) : option N :=
  if (N.leb 48%N c && N.leb c 57%N)%bool then Some (c - 48)%N
  else if (N.leb 97%N c && N.leb c 102%N)%bool then Some (c - 87)%N
  else if (N.leb 65%N c && N.leb c 70%N)%bool then Some (c - 55)%N
  else None.

Definition hex4 (a b c d : char) : option N :=
  match hex_value a, hex_value b, hex_value c, hex_value d with
  | Some x, Some y, Some z, Some w => Some (((x * 16 + y) * 16 + z) * 16 + w)%N
  | _, _, _, _ => None
  end.

Definition is_high_surrogate (c : N) : bool :=
  (N.leb 55296%N c && N.leb c 56319%N)%bool.
Definition is_low_surrogate (c : N) : bool :=
  (N.leb 56320%N c && N.leb c 57343%N)%bool.
Definition join_surrogates (h l : N) : N :=
  (65536 + ((h - 55296) * 1024 + (l - 56320)))%N.

(** The one-letter escapes of a JSON string. *)
Definition simple_escape (e : char) : option char :=
  if chr_eqb e c_dquote then Some c_dquote
  else if chr_eqb e c_backslash then Some c_backslash
  else if chr_eqb e c_slash then Some c_slash
  else if chr_eqb e 98%N then Some 8%N
  else if chr_eqb e 102%N then Some 12%N
  else if chr_eqb e 110%N then Some 10%N
  else if chr_eqb e 114%N then Some 13%N
  else if chr_eqb e 116%N then Some 9%N
  else None.

(** A low surrogate written as an escape at the head of [s]. *)
Definition low_escape (s : pystr) : option (N * pystr) :=
  match s with
  | b :: u :: h1 :: h2 :: h3 :: h4 :: r =>
      if (chr_eqb b c_backslash && chr_eqb u 117%N)%bool then
        match hex4 h1 h2 h3 h4 with
        | Some c2 => if is_low_surrogate c2 then Some (c2, r) else None
        | None => None
        end
      else None
  | _ => None
  end.

(** [scanstring] in strict mode, started after the opening quote: the
    decoded string and the input after the closing quote. *)
Fixpoint scanstring (s : pystr) : option (pystr * pystr) :=
  match s with
  | [] => None
  | c :: s' =>
      if chr_eqb c c_dquote then Some ([], s')
      else if chr_eqb c c_backslash then
        match s' with
        | [] => None
        | e :: s'' =>
            if chr_eqb e 117%N then
              match s'' with
              | h1 :: h2 :: h3 :: h4 :: r1 =>
                  match hex4 h1 h2 h3 h4 with
                  | None => None
                  | Some c1 =>
                      match r1 with
                      | b :: u :: g1 :: g2 :: g3 :: g4 :: r2 =>
                          match (if is_high_surrogate c1 then low_escape r1 else None) with
                          | Some (c2, _) =>
                              match scanstring r2 with
                              | Some (t, rest) => Some (join_surrogates c1 c2 :: t, rest)
                              | None => None
                              end
                          | None =>
                              match scanstring r1 with
                              | Some (t, rest) => Some (c1 :: t, rest)
                              | None => None
                              end
                          end
                      | _ =>
                          match scanstring r1 with
                          | Some (t, rest) => Some (c1 :: t, rest)
                          | None => None
                          end
                      end
                  end
              | _ => None
              end
            else
              match simple_escape e with
              | None => None
              | Some x =>
                  match scanstring s'' with
                  | Some (t, rest) => Some (x :: t, rest)
                  | None => None
                  end
              end
        end
      else if N.leb c 31%N then None
      else
        match scanstring s' with
        | Some (t, rest) => Some (c :: t, rest)
        | None => None
        end
  end.

Fixpoint strip_prefix (p s : pystr) : option pystr :=
  match p, s with
  | [], _ => Some s
  | x :: p', y :: s' => if chr_eqb x y then strip_prefix p' s' else None
  | _ :: _, [] => None
  end.

(** The longest prefix of ASCII digits and what follows it. *)
Fixpoint span_digits (s : pystr) : pystr * pystr :=
  match s with
  | c :: s' =>
      if is_ascii_digit c then let (d, r) := span_digits s' in (c :: d, r)
      else ([], s)
  | [] => ([], [])
  end.

(** The value of a string of ASCII digits. *)
Definition digits_value (ds : pystr) : Z :=
  fold_left (fun acc d => (10 * acc + (Z.of_N d - 48))%Z) ds 0%Z.

(** The integer part of a number, a single zero or a nonzero digit followed
    by digits: its digits and what follows. *)
Definition scan_int_part (s : pystr) : option (pystr * pystr) :=
  match s with
  | c :: s' =>
      if chr_eqb c 48%N then Some ([c], s')
      else if is_ascii_digit c then
        let (d, r) := span_digits s' in Some (c :: d, r)
      else None
  | [] => None
  end.

(** The fraction [\.[0-9]+], when there is one. *)
Definition scan_frac (s : pystr) : pystr * pystr :=
  match s with
  | c :: s' =>
      if chr_eqb c c_dot then
        match span_digits s' with
        | ([], _) => ([], s)
        | (d, r) => (c :: d, r)
        end
      else ([], s)
  | [] => ([], [])
  end.

(** The exponent [[eE][-+]?[0-9]+], when there is one. *)
Definition scan_exp (s : pystr) : pystr * pystr :=
  match s with
  | c :: s' =>
      if (chr_eqb c 101%N || chr_eqb c 69%N)%bool then
        let (sign, s1) :=
          match s' with
          | x :: s'' =>
              if (chr_eqb x c_minus || chr_eqb x c_plus)%bool then ([x], s'')
              else ([], s')
          | [] => ([], [])
          end in
        match span_digits s1 with
        | ([], _) => ([], s)
        | (d, r) => (c :: sign ++ d, r)
        end
      else ([], s)
  | [] => ([], [])
  end.

(** [_match_number]: an int when the literal has neither fraction nor
    exponent, a float otherwise. *)
Definition match_number (s : pystr) : option (json * pystr) :=
  let (neg, s0) :=
    match s with
    | c :: s' => if chr_eqb c c_minus then (true, s') else (false, s)
    | [] => (false, [])
    end in
  match scan_int_part s0 with
  | None => None
  | Some (ds, s1) =>
      let (frac, s2) := scan_frac s1 in
      let (ex, s3) := scan_exp s2 in
      match frac, ex with
      | [], [] =>
          Some (JInt (if neg then - digits_value ds else digits_value ds)%Z, s3)
      | _, _ =>
          Some (JFloat (float_of_literal
                          ((if neg then [c_minus] else []) ++ ds ++ frac ++ ex)), s3)
      end
  end.

(** The named constants, tried before a number. *)
Definition scan_constant (s : pystr) : option (json * pystr) :=
  match strip_prefix (str "null") s with
  | Some r => Some (JNull, r)
  | None =>
  match strip_prefix (str "true") s with
  | Some r => Some (JBool true, r)
  | None =>
  match strip_prefix (str "false") s with
  | Some r => Some (JBool false, r)
  | None =>
  match strip_prefix (str "NaN") s with
  | Some r => Some (JFloat (float_of_literal (str "NaN")), r)
  | None =>
  match strip_prefix (str "Infinity") s with
  | Some r => Some (JFloat (float_of_literal (str "Infinity")), r)
  | None =>
  match strip_prefix (str "-Infinity") s with
  | Some r => Some (JFloat (float_of_literal (str "-Infinity")), r)
  | None => None
  end end end end end end.

(** What [scan_once] does when no string, object or array starts. *)
Definition scan_scalar (s : pystr) : option (json * pystr) :=
  match scan_constant s with
  | Some res => Some res
  | None => match_number s
  end.

(** [scan_once] with the loops of [_parse_array] and [_parse_object];
    [fuel] bounds the number of nested calls. *)
Fixpoint scan_once (fuel : nat) (s : pystr) : option (json * pystr) :=
  match fuel with
  | 0 => None
  | S fuel' =>
      match s with
      | [] => None
      | c :: s' =>
          if chr_eqb c c_dquote then
            match scanstring s' with
            | Some (t, rest) => Some (JString t, rest)
            | None => None
            end
          else if chr_eqb c c_lbrace then
            match skip_ws s' with
            | x :: r =>
                if chr_eqb x c_rbrace then Some (JObject [], r)
                else
                  match object_loop fuel' (x :: r) with
                  | Some (pairs, rest) => Some (JObject (dict_of_pairs pairs), rest)
                  | None => None
                  end
            | [] => None
            end
          else if chr_eqb c c_lbracket then
            match skip_ws s' with
            | x :: r =>
                if chr_eqb x c_rbracket then Some (JArray [], r)
                else
                  match array_loop fuel' (x :: r) with
                  | Some (items, rest) => Some (JArray items, rest)
                  | None => None
                  end
            | [] => None
            end
          else scan_scalar s
      end
  end

with array_loop (fuel : nat) (s : pystr) : option (list json * pystr) :=
  match fuel with
  | 0 => None
  | S fuel' =>
      match scan_once fuel' s with
      | None => None
      | Some (val, s1) =>
          match skip_ws s1 with
          | x :: r =>
              if chr_eqb x c_rbracket then Some ([val], r)
              else if chr_eqb x c_comma then
                match array_loop fuel' (skip_ws r) with
                | Some (items, rest) => Some (val :: items, rest)
                | None => None
                end
              else None
          | [] => None
          end
      end
  end

with object_loop (fuel : nat) (s : pystr) : option (list (pystr * json) * pystr) :=
  match fuel with
  | 0 => None
  | S fuel' =>
      match s with
      | q :: s1 =>
          if chr_eqb q c_dquote then
            match scanstring s1 with
            | None => None
            | Some (key, s2) =>
                match skip_ws s2 with
                | col :: s3 =>
                    if chr_eqb col c_colon then
                      match scan_once fuel' (skip_ws s3) with
                      | None => None
                      | Some (val, s4) =>
                          match skip_ws s4 with
                          | x :: r =>
                              if chr_eqb x c_rbrace then Some ([(key, val)], r)
                              else if chr_eqb x c_comma then
                                match object_loop fuel' (skip_ws r) with
                                | Some (pairs, rest) => Some ((key, val) :: pairs, rest)
                                | None => None
                                end
                              else None
                          | [] => None
                          end
                      end
                    else None
                | [] => None
                end
            end
          else None
      | [] => None
      end
  end.

(** [json.loads(s)]: no byte order mark, one value, nothing but JSON
    whitespace around it.  [None] stands for [JSONDecodeError]. *)
Definition json_loads (s : pystr) : option json :=
  if startswith 65279%N s then None
  else
    match scan_once (2 * length s + 2) (skip_ws s) with
    | Some (obj, rest) =>
        match skip_ws rest with
        | [] => Some obj
        | _ => None
        end
    | None => None
    end.

(** *** [json.dumps(obj, ensure_ascii=False)] *)

Definition hex_digit (n : N) : char :=
  if N.ltb n 10 then (48 + n)%N else (87 + n)%N.

(** What [encode_basestring] writes for one character. *)
Definition escape_char (c : char) : pystr :=
  if chr_eqb c c_dquote then [c_backslash; c_dquote]
  else if chr_eqb c c_backslash then [c_backslash; c_backslash]
  else if chr_eqb c 10%N then str "\n"
  else if chr_eqb c 13%N then str "\r"
  else if chr_eqb c 9%N then str "\t"
  else if chr_eqb c 8%N then str "\b"
  else if chr_eqb c 12%N then str "\f"
  else if N.leb c 31%N then
    str "\u00" ++ [hex_digit (N.div c 16); hex_digit (N.modulo c 16)]
  else [c].

Definition encode_basestring (s : pystr) : pystr :=
  [c_dquote] ++ flat_map escape_char s ++ [c_dquote].

Fixpoint uint_digits (u : Decimal.uint) : pystr :=
  match u with
  | Decimal.Nil => []
  | Decimal.D0 u' => 48%N :: uint_digits u'
  | Decimal.D1 u' => 49%N :: uint_digits u'
  | Decimal.D2 u' => 50%N :: uint_digits u'
  | Decimal.D3 u' => 51%N :: uint_digits u'
  | Decimal.D4 u' => 52%N :: uint_digits u'
  | Decimal.D5 u' => 53%N :: uint_digits u'
  | Decimal.D6 u' => 54%N :: uint_digits u'
  | Decimal.D7 u' => 55%N :: uint_digits u'
  | Decimal.D8 u' => 56%N :: uint_digits u'
  | Decimal.D9 u' => 57%N :: uint_digits u'
  end.

(** [int.__repr__] *)
Definition int_repr (z : Z) : pystr :=
  match z with
  | Z0 => [48%N]
  | Zpos p => uint_digits (Pos.to_uint p)
  | Zneg p => c_minus :: uint_digits (Pos.to_uint p)
  end.

Fixpoint json_dumps (o : json) : pystr :=
  match o with
  | JNull => str "null"
  | JBool true => str "true"
  | JBool false => str "false"
  | JInt z => int_repr z
  | JFloat f => float_str f
  | JString s => encode_basestring s
  | JArray [] => str "[]"
  | JArray items => str "[" ++ join (str ", ") (map json_dumps items) ++ str "]"
  | JObject [] => str "{}"
  | JObject members =>
      str "{"
      ++ join (str ", ")
           (map (fun kv => encode_basestring (fst kv) ++ str ": " ++ json_dumps (snd kv))
              members)
      ++ str "}"
  end.

End JsonModel.

Arguments json {F}.

(** ** Type detection *)

Inductive Kind : Type := Email | Phone | URL | JSON | Env | Text.

Section Sanitizer.

Context {F : PyFloat}.

Definition env_candidate (ln : pystr) : bool :=
  match strip ln with
  | [] => false
  | _ :: _ => negb (startswith c_hash (strip ln))
  end.

Definition detect_type (value : pystr) : Kind :=
  let v := strip value in
  let json_ok :=
    if ((startswith c_lbrace v && endswith c_rbrace v)
        || (startswith c_lbracket v && endswith c_rbracket v))%bool
    then match json_loads v with Some _ => true | None => false end
    else false in
  if json_ok then JSON
  else
    let env_ok :=
      if contains c_eq v then
        let lines := filter env_candidate (splitlines v) in
        match lines with
        | [] => false
        | _ :: _ => forallb (contains c_eq) lines
        end
      else false in
    if env_ok then Env
    else if fullmatch _EMAIL_RE v then Email
    else if fullmatch _PHONE_RE v then Phone
    else if fullmatch _URL_RE v then URL
    else Text.

(** ** Main sanitization *)

(** The inner function [recurse] of [sanitize_value]; [leaf] is what it
    does to a string.  Items are visited in order and the first exception
    ends the traversal. *)
Fixpoint recurse (leaf : pystr -> outcome pystr) (o : json) : outcome json :=
  match o with
  | JObject members =>
      omap JObject
        ((fix go (ms : list (pystr * json)) : outcome (list (pystr * json)) :=
            match ms with
            | [] => Returns []
            | (k, val) :: ms' =>
                match recurse leaf val with
                | Raises e => Raises e
                | Returns val' => omap (cons (k, val')) (go ms')
                end
            end) members)
  | JArray items =>
      omap JArray
        ((fix go (xs : list json) : outcome (list json) :=
            match xs with
            | [] => Returns []
            | i :: xs' =>
                match recurse leaf i with
                | Raises e => Raises e
                | Returns i' => omap (cons i') (go xs')
                end
            end) items)
  | JString s => omap JString (leaf s)
  | _ => Returns o
  end.

(** One line of an env block, given what sanitizing a value returns. *)
Definition env_line (sanitize : pystr -> outcome pystr) (line : pystr)
  : outcome pystr :=
  match strip line with
  | [] => Returns line
  | _ :: _ =>
      if startswith c_hash (strip line) then Returns line
      else if negb (contains c_eq line) then Returns line
      else
        let (k, val) := split_first c_eq line in
        omap (fun sanitized_val => k ++ [c_eq] ++ sanitized_val)
          (sanitize (strip val))
  end.

Fixpoint env_lines (sanitize : pystr -> outcome pystr) (ls : list pystr)
  : outcome (list pystr) :=
  match ls with
  | [] => Returns []
  | line :: ls' =>
      match env_line sanitize line with
      | Raises e => Raises e
      | Returns l' => omap (cons l') (env_lines sanitize ls')
      end
  end.

(** [sanitize_value] with a budget of nested calls. *)
Fixpoint sanitize_fuel (fuel : nat) (value : pystr) (kind : option Kind)
  : outcome (Kind * pystr) :=
  match fuel with
  | 0 => Raises RecursionError
  | S fuel' =>
      let detected := match kind with Some k => k | None => detect_type value end in
      let v := value in
      let nested := fun o =>
        omap snd (sanitize_fuel fuel' o (Some (detect_type o))) in
      match detected with
      | Email => Returns (detected, mask_email v)
      | Phone => omap (pair detected) (mask_phone v)
      | URL => Returns (detected, strip_url_query v)
      | JSON =>
          match json_loads v with
          | Some obj =>
              match recurse nested obj with
              | Returns sanitized => Returns (detected, json_dumps sanitized)
              | Raises _ => Returns (Text, html_escape v)
              end
          | None => Returns (Text, html_escape v)
          end
      | Env =>
          omap (fun lines => (detected, join [c_lf] lines))
            (env_lines nested (splitlines v))
      | Text => Returns (Text, html_escape (escape_sql v))
      end
  end.

(** [sanitize_value(value, kind)]: a nested call always works on a string
    shorter than the one at hand, so this budget is never used up. *)
Definition sanitize_value (value : pystr) (kind : option Kind)
  : outcome (Kind * pystr) :=
  sanitize_fuel (S (length value)) value kind.

End Sanitizer.

Definition quoted (s : pystr) : pystr := [c_dquote] ++ s ++ [c_dquote].

(** A float kept as the text that denotes it: enough to run the sanitizer
    on concrete documents. *)
Definition literal_floats : PyFloat :=
  {| pyfloat := pystr; float_of_literal := fun l => l; float_str := fun l => l |}.

(** ** More of the Unicode database

    [repr] consults [str.isprintable]; [str.lower] consults the lowercase
    mappings and, for the capital sigma, the properties Cased and
    Case_Ignorable. *)

(** The characters [str.isprintable] rejects: the general categories Cc, Cf,
    Cs, Co, Cn, Zl, Zp and Zs, the space U+0020 left out. *)
Definition nonprintable_ranges : list (N * N) :=
  [(0, 31); (127, 160); (173, 173); (888, 889); (896, 899); (907, 907);
   (909, 909); (930, 930); (1328, 1328); (1367, 1368); (1419, 1420);
   (1424, 1424); (1480, 1487); (1515, 1518); (1525, 1541); (1564, 1564);
   (1757, 1757); (1806, 1807); (1867, 1868); (1970, 1983); (2043, 2044);
   (2094, 2095); (2111, 2111); (2140, 2141); (2143, 2143); (2155, 2159);
   (2191, 2199); (2274, 2274); (2436, 2436); (2445, 2446); (2449, 2450);
   (2473, 2473); (2481, 2481); (2483, 2485); (2490, 2491); (2501, 2502);
   (2505, 2506); (2511, 2518); (2520, 2523); (2526, 2526); (2532, 2533);
   (2559, 2560); (2564, 2564); (2571, 2574); (2577, 2578); (2601, 2601);
   (2609, 2609); (2612, 2612); (2615, 2615); (2618, 2619); (2621, 2621);
   (2627, 2630); (2633, 2634); (2638, 2640); (2642, 2648); (2653, 2653);
   (2655, 2661); (2679, 2688); (2692, 2692); (2702, 2702); (2706, 2706);
   (2729, 2729); (2737, 2737); (2740, 2740); (2746, 2747); (2758, 2758);
   (2762, 2762); (2766, 2767); (2769, 2783); (2788, 2789); (2802, 2808);
   (2816, 2816); (2820, 2820); (2829, 2830); (2833, 2834); (2857, 2857);
   (2865, 2865); (2868, 2868); (2874, 2875); (2885, 2886); (2889, 2890);
   (2894, 2900); (2904, 2907); (2910, 2910); (2916, 2917); (2936, 2945);
   (2948, 2948); (2955, 2957); (2961, 2961); (2966, 2968); (2971, 2971);
   (2973, 2973); (2976, 2978); (2981, 2983); (2987, 2989); (3002, 3005);
   (3011, 3013); (3017, 3017); (3022, 3023); (3025, 3030); (3032, 3045);
   (3067, 3071); (3085, 3085); (3089, 3089); (3113, 3113); (3130, 3131);
   (3141, 3141); (3145, 3145); (3150, 3156); (3159, 3159); (3163, 3164);
   (3166, 3167); (3172, 3173); (3184, 3190); (3213, 3213); (3217, 3217);
   (3241, 3241); (3252, 3252); (3258, 3259); (3269, 3269); (3273, 3273);
   (3278, 3284); (3287, 3292); (3295, 3295); (3300, 3301); (3312, 3312);
   (3315, 3327); (3341, 3341); (3345, 3345); (3397, 3397); (3401, 3401);
   (3408, 3411); (3428, 3429); (3456, 3456); (3460, 3460); (3479, 3481);
   (3506, 3506); (3516, 3516); (3518, 3519); (3527, 3529); (3531, 3534);
   (3541, 3541); (3543, 3543); (3552, 3557); (3568, 3569); (3573, 3584);
   (3643, 3646); (3676, 3712); (3715, 3715); (3717, 3717); (3723, 3723);
   (3748, 3748); (3750, 3750); (3774, 3775); (3781, 3781); (3783, 3783);
   (3790, 3791); (3802, 3803); (3808, 3839); (3912, 3912); (3949, 3952);
   (3992, 3992); (4029, 4029); (4045, 4045); (4059, 4095); (4294, 4294);
   (4296, 4300); (4302, 4303); (4681, 4681); (4686, 4687); (4695, 4695);
   (4697, 4697); (4702, 4703); (4745, 4745); (4750, 4751); (4785, 4785);
   (4790, 4791); (4799, 4799); (4801, 4801); (4806, 4807); (4823, 4823);
   (4881, 4881); (4886, 4887); (4955, 4956); (4989, 4991); (5018, 5023);
   (5110, 5111); (5118, 5119); (5760, 5760); (5789, 5791); (5881, 5887);
   (5910, 5918); (5943, 5951); (5972, 5983); (5997, 5997); (6001, 6001);
   (6004, 6015); (6110, 6111); (6122, 6127); (6138, 6143); (6158, 6158);
   (6170, 6175); (6265, 6271); (6315, 6319); (6390, 6399); (6431, 6431);
   (6444, 6447); (6460, 6463); (6465, 6467); (6510, 6511); (6517, 6527);
   (6572, 6575); (6602, 6607); (6619, 6621); (6684, 6685); (6751, 6751);
   (6781, 6782); (6794, 6799); (6810, 6815); (6830, 6831); (6863, 6911);
   (6989, 6991); (7039, 7039); (7156, 7163); (7224, 7226); (7242, 7244);
   (7305, 7311); (7355, 7356); (7368, 7375); (7419, 7423); (7958, 7959);
   (7966, 7967); (8006, 8007); (8014, 8015); (8024, 8024); (8026, 8026);
   (8028, 8028); (8030, 8030); (8062, 8063); (8117, 8117); (8133, 8133);
   (8148, 8149); (8156, 8156); (8176, 8177); (8181, 8181); (8191, 8207);
   (8232, 8239); (8287, 8303); (8306, 8307); (8335, 8335); (8349, 8351);
   (8385, 8399); (8433, 8447); (8588, 8591); (9255, 9279); (9291, 9311);
   (11124, 11125); (11158, 11158); (11508, 11512); (11558, 11558);
   (11560, 11564); (11566, 11567); (11624, 11630); (11633, 11646);
   (11671, 11679); (11687, 11687); (11695, 11695); (11703, 11703);
   (11711, 11711); (11719, 11719); (11727, 11727); (11735, 11735);
   (11743, 11743); (11870, 11903); (11930, 11930); (12020, 12031);
   (12246, 12271); (12284, 12288); (12352, 12352); (12439, 12440);
   (12544, 12548); (12592, 12592); (12687, 12687); (12772, 12783);
   (12831, 12831); (42125, 42127); (42183, 42191); (42540, 42559);
   (42744, 42751); (42955, 42959); (42962, 42962); (42964, 42964);
   (42970, 42993); (43053, 43055); (43066, 43071); (43128, 43135);
   (43206, 43213); (43226, 43231); (43348, 43358); (43389, 43391);
   (43470, 43470); (43482, 43485); (43519, 43519); (43575, 43583);
   (43598, 43599); (43610, 43611); (43715, 43738); (43767, 43776);
   (43783, 43784); (43791, 43792); (43799, 43807); (43815, 43815);
   (43823, 43823); (43884, 43887); (44014, 44015); (44026, 44031);
   (55204, 55215); (55239, 55242); (55292, 63743); (64110, 64111);
   (64218, 64255); (64263, 64274); (64280, 64284); (64311, 64311);
   (64317, 64317); (64319, 64319); (64322, 64322); (64325, 64325);
   (64451, 64466); (64912, 64913); (64968, 64974); (64976, 65007);
   (65050, 65055); (65107, 65107); (65127, 65127); (65132, 65135);
   (65141, 65141); (65277, 65280); (65471, 65473); (65480, 65481);
   (65488, 65489); (65496, 65497); (65501, 65503); (65511, 65511);
   (65519, 65531); (65534, 65535); (65548, 65548); (65575, 65575);
   (65595, 65595); (65598, 65598); (65614, 65615); (65630, 65663);
   (65787, 65791); (65795, 65798); (65844, 65846); (65935, 65935);
   (65949, 65951); (65953, 65999); (66046, 66175); (66205, 66207);
   (66257, 66271); (66300, 66303); (66340, 66348); (66379, 66383);
   (66427, 66431); (66462, 66462); (66500, 66503); (66518, 66559);
   (66718, 66719); (66730, 66735); (66772, 66775); (66812, 66815);
   (66856, 66863); (66916, 66926); (66939, 66939); (66955, 66955);
   (66963, 66963); (66966, 66966); (66978, 66978); (66994, 66994);
   (67002, 67002); (67005, 67071); (67383, 67391); (67414, 67423);
   (67432, 67455); (67462, 67462); (67505, 67505); (67515, 67583);
   (67590, 67591); (67593, 67593); (67638, 67638); (67641, 67643);
   (67645, 67646); (67670, 67670); (67743, 67750); (67760, 67807);
   (67827, 67827); (67830, 67834); (67868, 67870); (67898, 67902);
   (67904, 67967); (68024, 68027); (68048, 68049); (68100, 68100);
   (68103, 68107); (68116, 68116); (68120, 68120); (68150, 68151);
   (68155, 68158); (68169, 68175); (68185, 68191); (68256, 68287);
   (68327, 68330); (68343, 68351); (68406, 68408); (68438, 68439);
   (68467, 68471); (68498, 68504); (68509, 68520); (68528, 68607);
   (68681, 68735); (68787, 68799); (68851, 68857); (68904, 68911);
   (68922, 69215); (69247, 69247); (69290, 69290); (69294, 69295);
   (69298, 69375); (69416, 69423); (69466, 69487); (69514, 69551);
   (69580, 69599); (69623, 69631); (69710, 69713); (69750, 69758);
   (69821, 69821); (69827, 69839); (69865, 69871); (69882, 69887);
   (69941, 69941); (69960, 69967); (70007, 70015); (70112, 70112);
   (70133, 70143); (70162, 70162); (70207, 70271); (70279, 70279);
   (70281, 70281); (70286, 70286); (70302, 70302); (70314, 70319);
   (70379, 70383); (70394, 70399); (70404, 70404); (70413, 70414);
   (70417, 70418); (70441, 70441); (70449, 70449); (70452, 70452);
   (70458, 70458); (70469, 70470); (70473, 70474); (70478, 70479);
   (70481, 70486); (70488, 70492); (70500, 70501); (70509, 70511);
   (70517, 70655); (70748, 70748); (70754, 70783); (70856, 70863);
   (70874, 71039); (71094, 71095); (71134, 71167); (71237, 71247);
   (71258, 71263); (71277, 71295); (71354, 71359); (71370, 71423);
   (71451, 71452); (71468, 71471); (71495, 71679); (71740, 71839);
   (71923, 71934); (71943, 71944); (71946, 71947); (71956, 71956);
   (71959, 71959); (71990, 71990); (71993, 71994); (72007, 72015);
   (72026, 72095); (72104, 72105); (72152, 72153); (72165, 72191);
   (72264, 72271); (72355, 72367); (72441, 72703); (72713, 72713);
   (72759, 72759); (72774, 72783); (72813, 72815); (72848, 72849);
   (72872, 72872); (72887, 72959); (72967, 72967); (72970, 72970);
   (73015, 73017); (73019, 73019); (73022, 73022); (73032, 73039);
   (73050, 73055); (73062, 73062); (73065, 73065); (73103, 73103);
   (73106, 73106); (73113, 73119); (73130, 73439); (73465, 73647);
   (73649, 73663); (73714, 73726); (74650, 74751); (74863, 74863);
   (74869, 74879); (75076, 77711); (77811, 77823); (78895, 82943);
   (83527, 92159); (92729, 92735); (92767, 92767); (92778, 92781);
   (92863, 92863); (92874, 92879); (92910, 92911); (92918, 92927);
   (92998, 93007); (93018, 93018); (93026, 93026); (93048, 93052);
   (93072, 93759); (93851, 93951); (94027, 94030); (94088, 94094);
   (94112, 94175); (94181, 94191); (94194, 94207); (100344, 100351);
   (101590, 101631); (101641, 110575); (110580, 110580); (110588, 110588);
   (110591, 110591); (110883, 110927); (110931, 110947); (110952, 110959);
   (111356, 113663); (113771, 113775); (113789, 113791); (113801, 113807);
   (113818, 113819); (113824, 118527); (118574, 118575); (118599, 118607);
   (118724, 118783); (119030, 119039); (119079, 119080); (119155, 119162);
   (119275, 119295); (119366, 119519); (119540, 119551); (119639, 119647);
   (119673, 119807); (119893, 119893); (119965, 119965); (119968, 119969);
   (119971, 119972); (119975, 119976); (119981, 119981); (119994, 119994);
   (119996, 119996); (120004, 120004); (120070, 120070); (120075, 120076);
   (120085, 120085); (120093, 120093); (120122, 120122); (120127, 120127);
   (120133, 120133); (120135, 120137); (120145, 120145); (120486, 120487);
   (120780, 120781); (121484, 121498); (121504, 121504); (121520, 122623);
   (122655, 122879); (122887, 122887); (122905, 122906); (122914, 122914);
   (122917, 122917); (122923, 123135); (123181, 123183); (123198, 123199);
   (123210, 123213); (123216, 123535); (123567, 123583); (123642, 123646);
   (123648, 124895); (124903, 124903); (124908, 124908); (124911, 124911);
   (124927, 124927); (125125, 125126); (125143, 125183); (125260, 125263);
   (125274, 125277); (125280, 126064); (126133, 126208); (126270, 126463);
   (126468, 126468); (126496, 126496); (126499, 126499); (126501, 126502);
   (126504, 126504); (126515, 126515); (126520, 126520); (126522, 126522);
   (126524, 126529); (126531, 126534); (126536, 126536); (126538, 126538);
   (126540, 126540); (126544, 126544); (126547, 126547); (126549, 126550);
   (126552, 126552); (126554, 126554); (126556, 126556); (126558, 126558);
   (126560, 126560); (126563, 126563); (126565, 126566); (126571, 126571);
   (126579, 126579); (126584, 126584); (126589, 126589); (126591, 126591);
   (126602, 126602); (126620, 126624); (126628, 126628); (126634, 126634);
   (126652, 126703); (126706, 126975); (127020, 127023); (127124, 127135);
   (127151, 127152); (127168, 127168); (127184, 127184); (127222, 127231);
   (127406, 127461); (127491, 127503); (127548, 127551); (127561, 127567);
   (127570, 127583); (127590, 127743); (128728, 128732); (128749, 128751);
   (128765, 128767); (128884, 128895); (128985, 128991); (129004, 129007);
   (129009, 129023); (129036, 129039); (129096, 129103); (129114, 129119);
   (129160, 129167); (129198, 129199); (129202, 129279); (129620, 129631);
   (129646, 129647); (129653, 129655); (129661, 129663); (129671, 129679);
   (129709, 129711); (129723, 129727); (129734, 129743); (129754, 129759);
   (129768, 129775); (129783, 129791); (129939, 129939); (129995, 130031);
   (130042, 131071); (173792, 173823); (177977, 177983); (178206, 178207);
   (183970, 183983); (191457, 194559); (195102, 196607); (201547, 917759);
   (918000, 1114111)]%N.

(** The one-character lowercase mappings, as runs [(first, last, step,
    image of first)]: the characters [first], [first + step], ..., [last]
    are mapped to the same distance from the image of [first]. *)
Definition lower_runs : list (N * N * N * N) :=
  [(65, 90, 1, 97); (192, 214, 1, 224); (216, 222, 1, 248); (256, 302, 2, 257);
   (306, 310, 2, 307); (313, 327, 2, 314); (330, 374, 2, 331);
   (376, 376, 1, 255); (377, 381, 2, 378); (385, 385, 1, 595);
   (386, 388, 2, 387); (390, 390, 1, 596); (391, 391, 1, 392);
   (393, 394, 1, 598); (395, 395, 1, 396); (398, 398, 1, 477);
   (399, 399, 1, 601); (400, 400, 1, 603); (401, 401, 1, 402);
   (403, 403, 1, 608); (404, 404, 1, 611); (406, 406, 1, 617);
   (407, 407, 1, 616); (408, 408, 1, 409); (412, 412, 1, 623);
   (413, 413, 1, 626); (415, 415, 1, 629); (416, 420, 2, 417);
   (422, 422, 1, 640); (423, 423, 1, 424); (425, 425, 1, 643);
   (428, 428, 1, 429); (430, 430, 1, 648); (431, 431, 1, 432);
   (433, 434, 1, 650); (435, 437, 2, 436); (439, 439, 1, 658);
   (440, 440, 1, 441); (444, 444, 1, 445); (452, 452, 1, 454);
   (453, 453, 1, 454); (455, 455, 1, 457); (456, 456, 1, 457);
   (458, 458, 1, 460); (459, 475, 2, 460); (478, 494, 2, 479);
   (497, 497, 1, 499); (498, 500, 2, 499); (502, 502, 1, 405);
   (503, 503, 1, 447); (504, 542, 2, 505); (544, 544, 1, 414);
   (546, 562, 2, 547); (570, 570, 1, 11365); (571, 571, 1, 572);
   (573, 573, 1, 410); (574, 574, 1, 11366); (577, 577, 1, 578);
   (579, 579, 1, 384); (580, 580, 1, 649); (581, 581, 1, 652);
   (582, 590, 2, 583); (880, 882, 2, 881); (886, 886, 1, 887);
   (895, 895, 1, 1011); (902, 902, 1, 940); (904, 906, 1, 941);
   (908, 908, 1, 972); (910, 911, 1, 973); (913, 929, 1, 945);
   (931, 939, 1, 963); (975, 975, 1, 983); (984, 1006, 2, 985);
   (1012, 1012, 1, 952); (1015, 1015, 1, 1016); (1017, 1017, 1, 1010);
   (1018, 1018, 1, 1019); (1021, 1023, 1, 891); (1024, 1039, 1, 1104);
   (1040, 1071, 1, 1072); (1120, 1152, 2, 1121); (1162, 1214, 2, 1163);
   (1216, 1216, 1, 1231); (1217, 1229, 2, 1218); (1232, 1326, 2, 1233);
   (1329, 1366, 1, 1377); (4256, 4293, 1, 11520); (4295, 4295, 1, 11559);
   (4301, 4301, 1, 11565); (5024, 5103, 1, 43888); (5104, 5109, 1, 5112);
   (7312, 7354, 1, 4304); (7357, 7359, 1, 4349); (7680, 7828, 2, 7681);
   (7838, 7838, 1, 223); (7840, 7934, 2, 7841); (7944, 7951, 1, 7936);
   (7960, 7965, 1, 7952); (7976, 7983, 1, 7968); (7992, 7999, 1, 7984);
   (8008, 8013, 1, 8000); (8025, 8031, 2, 8017); (8040, 8047, 1, 8032);
   (8072, 8079, 1, 8064); (8088, 8095, 1, 8080); (8104, 8111, 1, 8096);
   (8120, 8121, 1, 8112); (8122, 8123, 1, 8048); (8124, 8124, 1, 8115);
   (8136, 8139, 1, 8050); (8140, 8140, 1, 8131); (8152, 8153, 1, 8144);
   (8154, 8155, 1, 8054); (8168, 8169, 1, 8160); (8170, 8171, 1, 8058);
   (8172, 8172, 1, 8165); (8184, 8185, 1, 8056); (8186, 8187, 1, 8060);
   (8188, 8188, 1, 8179); (8486, 8486, 1, 969); (8490, 8490, 1, 107);
   (8491, 8491, 1, 229); (8498, 8498, 1, 8526); (8544, 8559, 1, 8560);
   (8579, 8579, 1, 8580); (9398, 9423, 1, 9424); (11264, 11311, 1, 11312);
   (11360, 11360, 1, 11361); (11362, 11362, 1, 619); (11363, 11363, 1, 7549);
   (11364, 11364, 1, 637); (11367, 11371, 2, 11368); (11373, 11373, 1, 593);
   (11374, 11374, 1, 625); (11375, 11375, 1, 592); (11376, 11376, 1, 594);
   (11378, 11378, 1, 11379); (11381, 11381, 1, 11382); (11390, 11391, 1, 575);
   (11392, 11490, 2, 11393); (11499, 11501, 2, 11500);
   (11506, 11506, 1, 11507); (42560, 42604, 2, 42561);
   (42624, 42650, 2, 42625); (42786, 42798, 2, 42787);
   (42802, 42862, 2, 42803); (42873, 42875, 2, 42874); (42877, 42877, 1, 7545);
   (42878, 42886, 2, 42879); (42891, 42891, 1, 42892); (42893, 42893, 1, 613);
   (42896, 42898, 2, 42897); (42902, 42920, 2, 42903); (42922, 42922, 1, 614);
   (42923, 42923, 1, 604); (42924, 42924, 1, 609); (42925, 42925, 1, 620);
   (42926, 42926, 1, 618); (42928, 42928, 1, 670); (42929, 42929, 1, 647);
   (42930, 42930, 1, 669); (42931, 42931, 1, 43859); (42932, 42946, 2, 42933);
   (42948, 42948, 1, 42900); (42949, 42949, 1, 642); (42950, 42950, 1, 7566);
   (42951, 42953, 2, 42952); (42960, 42960, 1, 42961);
   (42966, 42968, 2, 42967); (42997, 42997, 1, 42998);
   (65313, 65338, 1, 65345); (66560, 66599, 1, 66600);
   (66736, 66771, 1, 66776); (66928, 66938, 1, 66967);
   (66940, 66954, 1, 66979); (66956, 66962, 1, 66995);
   (66964, 66965, 1, 67003); (68736, 68786, 1, 68800);
   (71840, 71871, 1, 71872); (93760, 93791, 1, 93792);
   (125184, 125217, 1, 125218)]%N.

(** The property Cased: Lowercase, Uppercase or general category Lt. *)
Definition cased_ranges : list (N * N) :=
  [(65, 90); (97, 122); (170, 170); (181, 181); (186, 186); (192, 214);
   (216, 246); (248, 442); (444, 447); (452, 659); (661, 696); (704, 705);
   (736, 740); (837, 837); (880, 883); (886, 887); (890, 893); (895, 895);
   (902, 902); (904, 906); (908, 908); (910, 929); (931, 1013); (1015, 1153);
   (1162, 1327); (1329, 1366); (1376, 1416); (4256, 4293); (4295, 4295);
   (4301, 4301); (4304, 4346); (4349, 4351); (5024, 5109); (5112, 5117);
   (7296, 7304); (7312, 7354); (7357, 7359); (7424, 7615); (7680, 7957);
   (7960, 7965); (7968, 8005); (8008, 8013); (8016, 8023); (8025, 8025);
   (8027, 8027); (8029, 8029); (8031, 8061); (8064, 8116); (8118, 8124);
   (8126, 8126); (8130, 8132); (8134, 8140); (8144, 8147); (8150, 8155);
   (8160, 8172); (8178, 8180); (8182, 8188); (8305, 8305); (8319, 8319);
   (8336, 8348); (8450, 8450); (8455, 8455); (8458, 8467); (8469, 8469);
   (8473, 8477); (8484, 8484); (8486, 8486); (8488, 8488); (8490, 8493);
   (8495, 8500); (8505, 8505); (8508, 8511); (8517, 8521); (8526, 8526);
   (8544, 8575); (8579, 8580); (9398, 9449); (11264, 11492); (11499, 11502);
   (11506, 11507); (11520, 11557); (11559, 11559); (11565, 11565);
   (42560, 42605); (42624, 42653); (42786, 42887); (42891, 42894);
   (42896, 42954); (42960, 42961); (42963, 42963); (42965, 42969);
   (42997, 42998); (43000, 43002); (43824, 43866); (43868, 43880);
   (43888, 43967); (64256, 64262); (64275, 64279); (65313, 65338);
   (65345, 65370); (66560, 66639); (66736, 66771); (66776, 66811);
   (66928, 66938); (66940, 66954); (66956, 66962); (66964, 66965);
   (66967, 66977); (66979, 66993); (66995, 67001); (67003, 67004);
   (67456, 67456); (67459, 67461); (67463, 67504); (67506, 67514);
   (68736, 68786); (68800, 68850); (71840, 71903); (93760, 93823);
   (119808, 119892); (119894, 119964); (119966, 119967); (119970, 119970);
   (119973, 119974); (119977, 119980); (119982, 119993); (119995, 119995);
   (119997, 120003); (120005, 120069); (120071, 120074); (120077, 120084);
   (120086, 120092); (120094, 120121); (120123, 120126); (120128, 120132);
   (120134, 120134); (120138, 120144); (120146, 120485); (120488, 120512);
   (120514, 120538); (120540, 120570); (120572, 120596); (120598, 120628);
   (120630, 120654); (120656, 120686); (120688, 120712); (120714, 120744);
   (120746, 120770); (120772, 120779); (122624, 122633); (122635, 122654);
   (125184, 125251); (127280, 127305); (127312, 127337); (127344, 127369)]%N.

(** The property Case_Ignorable. *)
Definition case_ignorable_ranges : list (N * N) :=
  [(39, 39); (46, 46); (58, 58); (94, 94); (96, 96); (168, 168); (173, 173);
   (175, 175); (180, 180); (183, 184); (688, 879); (884, 885); (890, 890);
   (900, 901); (903, 903); (1155, 1161); (1369, 1369); (1375, 1375);
   (1425, 1469); (1471, 1471); (1473, 1474); (1476, 1477); (1479, 1479);
   (1524, 1524); (1536, 1541); (1552, 1562); (1564, 1564); (1600, 1600);
   (1611, 1631); (1648, 1648); (1750, 1757); (1759, 1768); (1770, 1773);
   (1807, 1807); (1809, 1809); (1840, 1866); (1958, 1968); (2027, 2037);
   (2042, 2042); (2045, 2045); (2070, 2093); (2137, 2139); (2184, 2184);
   (2192, 2193); (2200, 2207); (2249, 2306); (2362, 2362); (2364, 2364);
   (2369, 2376); (2381, 2381); (2385, 2391); (2402, 2403); (2417, 2417);
   (2433, 2433); (2492, 2492); (2497, 2500); (2509, 2509); (2530, 2531);
   (2558, 2558); (2561, 2562); (2620, 2620); (2625, 2626); (2631, 2632);
   (2635, 2637); (2641, 2641); (2672, 2673); (2677, 2677); (2689, 2690);
   (2748, 2748); (2753, 2757); (2759, 2760); (2765, 2765); (2786, 2787);
   (2810, 2815); (2817, 2817); (2876, 2876); (2879, 2879); (2881, 2884);
   (2893, 2893); (2901, 2902); (2914, 2915); (2946, 2946); (3008, 3008);
   (3021, 3021); (3072, 3072); (3076, 3076); (3132, 3132); (3134, 3136);
   (3142, 3144); (3146, 3149); (3157, 3158); (3170, 3171); (3201, 3201);
   (3260, 3260); (3263, 3263); (3270, 3270); (3276, 3277); (3298, 3299);
   (3328, 3329); (3387, 3388); (3393, 3396); (3405, 3405); (3426, 3427);
   (3457, 3457); (3530, 3530); (3538, 3540); (3542, 3542); (3633, 3633);
   (3636, 3642); (3654, 3662); (3761, 3761); (3764, 3772); (3782, 3782);
   (3784, 3789); (3864, 3865); (3893, 3893); (3895, 3895); (3897, 3897);
   (3953, 3966); (3968, 3972); (3974, 3975); (3981, 3991); (3993, 4028);
   (4038, 4038); (4141, 4144); (4146, 4151); (4153, 4154); (4157, 4158);
   (4184, 4185); (4190, 4192); (4209, 4212); (4226, 4226); (4229, 4230);
   (4237, 4237); (4253, 4253); (4348, 4348); (4957, 4959); (5906, 5908);
   (5938, 5939); (5970, 5971); (6002, 6003); (6068, 6069); (6071, 6077);
   (6086, 6086); (6089, 6099); (6103, 6103); (6109, 6109); (6155, 6159);
   (6211, 6211); (6277, 6278); (6313, 6313); (6432, 6434); (6439, 6440);
   (6450, 6450); (6457, 6459); (6679, 6680); (6683, 6683); (6742, 6742);
   (6744, 6750); (6752, 6752); (6754, 6754); (6757, 6764); (6771, 6780);
   (6783, 6783); (6823, 6823); (6832, 6862); (6912, 6915); (6964, 6964);
   (6966, 6970); (6972, 6972); (6978, 6978); (7019, 7027); (7040, 7041);
   (7074, 7077); (7080, 7081); (7083, 7085); (7142, 7142); (7144, 7145);
   (7149, 7149); (7151, 7153); (7212, 7219); (7222, 7223); (7288, 7293);
   (7376, 7378); (7380, 7392); (7394, 7400); (7405, 7405); (7412, 7412);
   (7416, 7417); (7468, 7530); (7544, 7544); (7579, 7679); (8125, 8125);
   (8127, 8129); (8141, 8143); (8157, 8159); (8173, 8175); (8189, 8190);
   (8203, 8207); (8216, 8217); (8228, 8228); (8231, 8231); (8234, 8238);
   (8288, 8292); (8294, 8303); (8305, 8305); (8319, 8319); (8336, 8348);
   (8400, 8432); (11388, 11389); (11503, 11505); (11631, 11631);
   (11647, 11647); (11744, 11775); (11823, 11823); (12293, 12293);
   (12330, 12333); (12337, 12341); (12347, 12347); (12441, 12446);
   (12540, 12542); (40981, 40981); (42232, 42237); (42508, 42508);
   (42607, 42610); (42612, 42621); (42623, 42623); (42652, 42655);
   (42736, 42737); (42752, 42785); (42864, 42864); (42888, 42890);
   (42994, 42996); (43000, 43001); (43010, 43010); (43014, 43014);
   (43019, 43019); (43045, 43046); (43052, 43052); (43204, 43205);
   (43232, 43249); (43263, 43263); (43302, 43309); (43335, 43345);
   (43392, 43394); (43443, 43443); (43446, 43449); (43452, 43453);
   (43471, 43471); (43493, 43494); (43561, 43566); (43569, 43570);
   (43573, 43574); (43587, 43587); (43596, 43596); (43632, 43632);
   (43644, 43644); (43696, 43696); (43698, 43700); (43703, 43704);
   (43710, 43711); (43713, 43713); (43741, 43741); (43756, 43757);
   (43763, 43764); (43766, 43766); (43867, 43871); (43881, 43883);
   (44005, 44005); (44008, 44008); (44013, 44013); (64286, 64286);
   (64434, 64450); (65024, 65039); (65043, 65043); (65056, 65071);
   (65106, 65106); (65109, 65109); (65279, 65279); (65287, 65287);
   (65294, 65294); (65306, 65306); (65342, 65342); (65344, 65344);
   (65392, 65392); (65438, 65439); (65507, 65507); (65529, 65531);
   (66045, 66045); (66272, 66272); (66422, 66426); (67456, 67461);
   (67463, 67504); (67506, 67514); (68097, 68099); (68101, 68102);
   (68108, 68111); (68152, 68154); (68159, 68159); (68325, 68326);
   (68900, 68903); (69291, 69292); (69446, 69456); (69506, 69509);
   (69633, 69633); (69688, 69702); (69744, 69744); (69747, 69748);
   (69759, 69761); (69811, 69814); (69817, 69818); (69821, 69821);
   (69826, 69826); (69837, 69837); (69888, 69890); (69927, 69931);
   (69933, 69940); (70003, 70003); (70016, 70017); (70070, 70078);
   (70089, 70092); (70095, 70095); (70191, 70193); (70196, 70196);
   (70198, 70199); (70206, 70206); (70367, 70367); (70371, 70378);
   (70400, 70401); (70459, 70460); (70464, 70464); (70502, 70508);
   (70512, 70516); (70712, 70719); (70722, 70724); (70726, 70726);
   (70750, 70750); (70835, 70840); (70842, 70842); (70847, 70848);
   (70850, 70851); (71090, 71093); (71100, 71101); (71103, 71104);
   (71132, 71133); (71219, 71226); (71229, 71229); (71231, 71232);
   (71339, 71339); (71341, 71341); (71344, 71349); (71351, 71351);
   (71453, 71455); (71458, 71461); (71463, 71467); (71727, 71735);
   (71737, 71738); (71995, 71996); (71998, 71998); (72003, 72003);
   (72148, 72151); (72154, 72155); (72160, 72160); (72193, 72202);
   (72243, 72248); (72251, 72254); (72263, 72263); (72273, 72278);
   (72281, 72283); (72330, 72342); (72344, 72345); (72752, 72758);
   (72760, 72765); (72767, 72767); (72850, 72871); (72874, 72880);
   (72882, 72883); (72885, 72886); (73009, 73014); (73018, 73018);
   (73020, 73021); (73023, 73029); (73031, 73031); (73104, 73105);
   (73109, 73109); (73111, 73111); (73459, 73460); (78896, 78904);
   (92912, 92916); (92976, 92982); (92992, 92995); (94031, 94031);
   (94095, 94111); (94176, 94177); (94179, 94180); (110576, 110579);
   (110581, 110587); (110589, 110590); (113821, 113822); (113824, 113827);
   (118528, 118573); (118576, 118598); (119143, 119145); (119155, 119170);
   (119173, 119179); (119210, 119213); (119362, 119364); (121344, 121398);
   (121403, 121452); (121461, 121461); (121476, 121476); (121499, 121503);
   (121505, 121519); (122880, 122886); (122888, 122904); (122907, 122913);
   (122915, 122916); (122918, 122922); (123184, 123197); (123566, 123566);
   (123628, 123631); (125136, 125142); (125252, 125259); (127995, 127999);
   (917505, 917505); (917536, 917631); (917760, 917999)]%N.

Definition isprintable (c : char) : bool :=
  negb (in_ranges nonprintable_ranges c).

Definition iscased (c : char) : bool := in_ranges cased_ranges c.

Definition iscaseignorable (c : char) : bool :=
  in_ranges case_ignorable_ranges c.

Definition in_run (c : char) (r : N * N * N * N) : bool :=
  let '(first, last, step, _) := r in
  (N.leb first c && N.leb c last && N.eqb (N.modulo (c - first) step) 0)%bool.

Fixpoint run_image (runs : list (N * N * N * N)) (c : char) : char :=
  match runs with
  | [] => c
  | (first, last, step, image) :: runs' =>
      if in_run c (first, last, step, image) then (image + (c - first))%N
      else run_image runs' c
  end.

(** The full lowercase mapping of one character; U+0130 is the only
    character whose mapping has more than one. *)
Definition tolower_full (c : char) : pystr :=
  if chr_eqb c 304%N then [105; 775]%N else [run_image lower_runs c].

(** ** [str.lower] *)

(** The first character that is not Case_Ignorable, if any. *)
Fixpoint first_solid (s : pystr) : option char :=
  match s with
  | [] => None
  | c :: s' => if iscaseignorable c then first_solid s' else Some c
  end.

(** The capital sigma U+03A3 becomes the final sigma U+03C2 when a cased
    character comes before it and none after it, Case_Ignorable characters
    skipped on both sides; otherwise U+03C3.  [before] is the text before
    the sigma, nearest character first. *)
Definition handle_capital_sigma (before after : pystr) : char :=
  let final_sigma :=
    match first_solid before with
    | Some c => iscased c
    | None => false
    end in
  let final_sigma :=
    if final_sigma then
      match first_solid after with
      | Some c => negb (iscased c)
      | None => true
      end
    else false in
  if final_sigma then 962%N else 963%N.

Fixpoint lower_from (before : pystr) (s : pystr) : pystr :=
  match s with
  | [] => []
  | c :: s' =>
      (if chr_eqb c 931%N then [handle_capital_sigma before s']
       else tolower_full c)
      ++ lower_from (c :: before) s'
  end.

(** [s.lower()] *)
Definition lower (s : pystr) : pystr := lower_from [] s.

(** ** Language literal escaping, continued *)

(** The low [n] hexadecimal digits of [c], lower case. *)
Fixpoint hex_digits (n : nat) (c : N) : pystr :=
  match n with
  | 0 => []
  | S n' => hex_digits n' (N.shiftr c 4) ++ [hex_digit (N.land c 15)]
  end.

(** What [repr] writes for one character of a string quoted with [quote]. *)
Definition repr_char (quote : char) (ch : char) : pystr :=
  if (chr_eqb ch quote || chr_eqb ch c_backslash)%bool then [c_backslash; ch]
  else if chr_eqb ch 9%N then str "\t"
  else if chr_eqb ch 10%N then str "\n"
  else if chr_eqb ch 13%N then str "\r"
  else if (N.ltb ch 32 || chr_eqb ch 127%N)%bool then
    str "\x" ++ hex_digits 2 ch
  else if N.ltb ch 127 then [ch]
  else if negb (isprintable ch) then
    if N.leb ch 255 then str "\x" ++ hex_digits 2 ch
    else if N.leb ch 65535 then str "\u" ++ hex_digits 4 ch
    else str "\U" ++ hex_digits 8 ch
  else [ch].

(** [repr(s)] for a string: single quotes, unless the string holds a single
    quote and no double quote. *)
Definition repr (s : pystr) : pystr :=
  let quote :=
    if (contains c_squote s && negb (contains c_dquote s))%bool
    then c_dquote else c_squote in
  [quote] ++ flat_map (repr_char quote) s ++ [quote].

Definition _python_literal (s : pystr) : pystr := repr s.

Definition _bash_literal (s : pystr) : pystr :=
  if negb (contains c_squote s) then [c_squote] ++ s ++ [c_squote]
  else
    let esc := replace c_squote (str "'\''") s in
    [c_squote] ++ esc ++ [c_squote].

(** The dict [_LANGUAGE_ESCAPERS], as the list of its items. *)
Definition _LANGUAGE_ESCAPERS : list (pystr * (pystr -> pystr)) :=
  [(str "python", _python_literal);
   (str "javascript", _js_literal);
   (str "js", _js_literal);
   (str "java", _java_literal);
   (str "go", _c_literal);
   (str "c", _c_literal);
   (str "csharp", _c_literal);
   (str "cs", _c_literal);
   (str "php", _c_literal);
   (str "ruby", _c_literal);
   (str "rust", _c_literal);
   (str "swift", _c_literal);
   (str "bash", _bash_literal)].

(** [d.get(k)] *)
Fixpoint dict_get {V : Type} (d : list (pystr * V)) (k : pystr) : option V :=
  match d with
  | [] => None
  | (k', v) :: d' => if str_eqb k' k then Some v else dict_get d' k
  end.

Definition language_escape (s language : pystr) : pystr :=
  match dict_get _LANGUAGE_ESCAPERS (lower language) with
  | Some fn => fn s
  | None => _python_literal s
  end.

(** ** The package functions *)

(** [sanitize(text)] of [__init__.py] *)
Definition sanitize {F : PyFloat} (text : pystr) : outcome pystr :=
  match sanitize_value text None with
  | Returns (_, result) => Returns result
  | Raises e => Raises e
  end.

(** [escape_for(text, target)] of [__init__.py] *)
Definition escape_for (text target : pystr) : pystr :=
  language_escape text target.

(** * Properties *)

(** ** Characters and replacement *)

Lemma chr_eqb_eq (a b : char) : chr_eqb a b = true <-> a = b.
Proof. apply N.eqb_eq. Qed.

Lemma chr_eqb_neq (a b : char) : chr_eqb a b = false <-> a <> b.
Proof. apply N.eqb_neq. Qed.

Lemma chr_eqb_refl (a : char) : chr_eqb a a = true.
Proof. apply N.eqb_refl. Qed.

Lemma chr_eqb_sym (a b : char) : chr_eqb a b = chr_eqb b a.
Proof. apply N.eqb_sym. Qed.

Lemma contains_In (c : char) (s : pystr) : contains c s = true <-> In c s.
Proof.
  unfold contains. rewrite existsb_exists. split.
  - intros [x [Hx Heq]]. apply chr_eqb_eq in Heq. now subst.
  - intros H. exists c. split; [assumption | apply chr_eqb_refl].
Qed.

Lemma contains_app (c : char) (a b : pystr) :
  contains c (a ++ b) = (contains c a || contains c b)%bool.
Proof. unfold contains. apply existsb_app. Qed.

Lemma flat_map_flat_map {A B C : Type} (f : A -> list B) (g : B -> list C) (l : list A) :
  flat_map g (flat_map f l) = flat_map (fun x => flat_map g (f x)) l.
Proof.
  induction l as [|x l IH]; simpl; [reflexivity|].
  now rewrite flat_map_app, IH.
Qed.

Lemma flat_map_pointwise {A B : Type} (f g : A -> list B) (l : list A) :
  (forall x, In x l -> f x = g x) -> flat_map f l = flat_map g l.
Proof.
  induction l as [|x l IH]; simpl; intros H; [reflexivity|].
  rewrite (H x), IH; auto.
Qed.

Lemma replace_app (c : char) (r a b : pystr) :
  replace c r (a ++ b) = replace c r a ++ replace c r b.
Proof. unfold replace. apply flat_map_app. Qed.

Lemma replace_absent (c : char) (r s : pystr) :
  contains c s = false -> replace c r s = s.
Proof.
  induction s as [|x s IH]; simpl; intros H; [reflexivity|].
  apply orb_false_iff in H. destruct H as [Hx Hs].
  rewrite chr_eqb_sym in Hx. rewrite Hx. simpl. f_equal. now apply IH.
Qed.

(** ** HTML escaping, one character at a time *)

Definition html_char (x : char) : pystr :=
  if chr_eqb x c_amp then str "&amp;"
  else if chr_eqb x c_lt then str "&lt;"
  else if chr_eqb x c_gt then str "&gt;"
  else if chr_eqb x c_dquote then str "&quot;"
  else if chr_eqb x c_squote then str "&#x27;"
  else [x].

Definition html_special (x : char) : bool :=
  (chr_eqb x c_amp || chr_eqb x c_lt || chr_eqb x c_gt
   || chr_eqb x c_dquote || chr_eqb x c_squote)%bool.

Ltac case_chr x c :=
  let E := fresh "E" in
  destruct (chr_eqb x c) eqn:E;
  [apply chr_eqb_eq in E; subst x | ].

Lemma html_escape_chars (s : pystr) : html_escape s = flat_map html_char s.
Proof.
  unfold html_escape, replace. rewrite !flat_map_flat_map.
  apply flat_map_pointwise. intros x _. unfold html_char.
  case_chr x c_amp; [reflexivity|].
  case_chr x c_lt; [reflexivity|].
  case_chr x c_gt; [reflexivity|].
  case_chr x c_dquote; [reflexivity|].
  case_chr x c_squote; [reflexivity|].
  simpl. rewrite E0. simpl. rewrite E1. simpl. rewrite E2. simpl. rewrite E3.
  reflexivity.
Qed.

Lemma html_char_special (x : char) :
  html_special x = true -> exists t, html_char x = c_amp :: t /\ 3 <= length t.
Proof.
  unfold html_special, html_char. intros H.
  case_chr x c_amp; [eexists; split; [reflexivity | simpl; lia]|].
  case_chr x c_lt; [eexists; split; [reflexivity | simpl; lia]|].
  case_chr x c_gt; [eexists; split; [reflexivity | simpl; lia]|].
  case_chr x c_dquote; [eexists; split; [reflexivity | simpl; lia]|].
  case_chr x c_squote; [eexists; split; [reflexivity | simpl; lia]|].
  discriminate H.
Qed.

Lemma html_char_plain (x : char) : html_special x = false -> html_char x = [x].
Proof.
  unfold html_special, html_char. intros H.
  repeat (apply orb_false_iff in H; destruct H as [H ?]).
  now rewrite H, H3, H2, H1, H0.
Qed.

Lemma html_char_length (x : char) : 1 <= length (html_char x).
Proof.
  destruct (html_special x) eqn:E.
  - destruct (html_char_special x E) as [t [-> Ht]]. simpl. lia.
  - rewrite (html_char_plain x E). simpl. lia.
Qed.

Lemma html_escape_length (s : pystr) : length s <= length (html_escape s).
Proof.
  rewrite html_escape_chars. induction s as [|x s IH]; simpl; [lia|].
  rewrite length_app. pose proof (html_char_length x). lia.
Qed.

Lemma html_escape_grows (s : pystr) :
  existsb html_special s = true -> length s < length (html_escape s).
Proof.
  rewrite html_escape_chars. induction s as [|x s IH]; simpl; [discriminate|].
  intros H. rewrite length_app. apply orb_true_iff in H. destruct H as [H | H].
  - destruct (html_char_special x H) as [t [-> Ht]].
    pose proof (html_escape_length s) as L. rewrite html_escape_chars in L.
    simpl. lia.
  - pose proof (html_char_length x). specialize (IH H). lia.
Qed.

Lemma html_escape_has_amp (s : pystr) :
  existsb html_special s = true -> contains c_amp (html_escape s) = true.
Proof.
  rewrite html_escape_chars. induction s as [|x s IH]; simpl; [discriminate|].
  intros H. rewrite contains_app. apply orb_true_iff.
  destruct (html_special x) eqn:E.
  - left. destruct (html_char_special x E) as [t [-> _]]. reflexivity.
  - right. apply IH. simpl in H. exact H.
Qed.

Lemma amp_special (s : pystr) :
  contains c_amp s = true -> existsb html_special s = true.
Proof.
  rewrite contains_In, existsb_exists. intros H. exists c_amp. split; [assumption | reflexivity].
Qed.

(** C8. [html_escape] is not idempotent on the strings it changes: when
    [s] holds one of the five characters it replaces, escaping the escaped
    string once more gives a different string. *)
Theorem html_escape_not_idempotent (s : pystr) :
  (contains c_amp s || contains c_lt s || contains c_gt s
   || contains c_dquote s || contains c_squote s)%bool = true ->
  html_escape (html_escape s) <> html_escape s.
Proof.
  intros H Heq.
  assert (Hs : existsb html_special s = true).
  { apply existsb_exists.
    repeat (apply orb_true_iff in H; destruct H as [H | H]);
      apply contains_In in H; eexists; (split; [exact H | reflexivity]). }
  pose proof (html_escape_grows (html_escape s)
                (amp_special _ (html_escape_has_amp s Hs))) as L.
  rewrite Heq in L. lia.
Qed.

Lemma html_escape_not_idempotent_witness :
  html_escape (html_escape (str "a<b")) <> html_escape (str "a<b").
Proof. apply html_escape_not_idempotent. reflexivity. Defined.

(** ** The regular-expression engine against the language it decides *)

(** What one item may match: characters of its class, as many as its
    quantifier allows. *)
Definition piece_ok (it : item) (p : pystr) : Prop :=
  Forall (fun c => cls it c = true) p
  /\ lo it <= length p
  /\ match hi it with Some h => length p <= h | None => True end.

(** A string is in the language of a pattern when it can be cut into one
    piece per item. *)
Definition Matches (r : list item) (s : pystr) : Prop :=
  exists ps, Forall2 piece_ok r ps /\ s = concat ps.

Lemma run_length_le (p : char -> bool) (s : pystr) : run_length p s <= length s.
Proof. induction s as [|c s IH]; simpl; [lia|]. destruct (p c); simpl; lia. Qed.

Lemma run_length_firstn (p : char -> bool) (s : pystr) (m : nat) :
  m <= run_length p s -> Forall (fun c => p c = true) (firstn m s).
Proof.
  revert m. induction s as [|c s IH]; intros m H; simpl in *.
  - destruct m; constructor.
  - destruct m; [constructor|]. destruct (p c) eqn:E; [|lia].
    simpl. constructor; [assumption | apply IH; lia].
Qed.

Lemma run_length_prefix (p : char -> bool) (a b : pystr) :
  Forall (fun c => p c = true) a -> length a <= run_length p (a ++ b).
Proof.
  induction 1 as [|c a Hc _ IH]; simpl; [lia|]. rewrite Hc. lia.
Qed.

Lemma take_down_eq k s l n :
  take_down k s l n =
  if n <? l then None
  else match k (skipn n s) with
       | Some (gs, rest) => Some (firstn n s :: gs, rest)
       | None => match n with
                 | 0 => None
                 | S n' => take_down k s l n'
                 end
       end.
Proof. destruct n; reflexivity. Qed.

Lemma take_down_some k s l n res :
  take_down k s l n = Some res ->
  exists m gs rest,
    res = (firstn m s :: gs, rest) /\ l <= m <= n
    /\ k (skipn m s) = Some (gs, rest).
Proof.
  induction n as [|n IH]; rewrite take_down_eq.
  - destruct (0 <? l) eqn:E; [discriminate|]. apply Nat.ltb_ge in E.
    destruct (k (skipn 0 s)) as [[gs' rest']|] eqn:K; [|discriminate].
    intros H. inversion H; subst. exists 0, gs', rest'.
    split; [reflexivity | split; [lia | assumption]].
  - destruct (S n <? l) eqn:E; [discriminate|]. apply Nat.ltb_ge in E.
    destruct (k (skipn (S n) s)) as [[gs' rest']|] eqn:K.
    + intros H. inversion H; subst. exists (S n), gs', rest'.
      split; [reflexivity | split; [lia | assumption]].
    + intros H. destruct (IH H) as [m [gs' [rest' [Hr [Hm Hk]]]]].
      exists m, gs', rest'. split; [assumption | split; [lia | assumption]].
Qed.

Lemma take_down_complete k s l n m :
  l <= m <= n -> k (skipn m s) <> None -> take_down k s l n <> None.
Proof.
  induction n as [|n IH]; intros Hm Hk; rewrite take_down_eq.
  - assert (m = 0) by lia. subst m.
    destruct (0 <? l) eqn:E; [apply Nat.ltb_lt in E; lia|].
    destruct (k (skipn 0 s)) as [[gs rest]|]; [discriminate | contradiction].
  - destruct (S n <? l) eqn:E; [apply Nat.ltb_lt in E; lia|].
    destruct (k (skipn (S n) s)) as [[gs rest]|] eqn:K; [discriminate|].
    destruct (Nat.eq_dec m (S n)) as [-> | Hne]; [congruence|].
    apply IH; [lia | assumption].
Qed.

Lemma max_take_le_run it s : max_take it s <= run_length (cls it) s.
Proof. unfold max_take. destruct (hi it); lia. Qed.

Lemma re_match_sound full r s gs rest :
  re_match full r s = Some (gs, rest) ->
  Forall2 piece_ok r gs /\ s = concat gs ++ rest /\ (full = true -> rest = []).
Proof.
  revert s gs rest. induction r as [|it r IH]; intros s gs rest; simpl.
  - destruct full.
    + destruct s; [|discriminate]. intros H. inversion H; subst.
      repeat split; constructor.
    + intros H. inversion H; subst. repeat split; [constructor | discriminate].
  - intros H.
    destruct (take_down_some _ _ _ _ H) as [m [gs' [rest' [E [Hm Hk]]]]].
    inversion E; subst gs rest'; clear E.
    destruct (IH _ _ _ Hk) as [HF [Hs Hfull]].
    pose proof (max_take_le_run it s) as Hrun.
    pose proof (run_length_le (cls it) s) as Hlen.
    assert (Lg : length (firstn m s) = m) by (apply firstn_length_le; lia).
    repeat split.
    + constructor; [|assumption]. repeat split.
      * apply run_length_firstn. lia.
      * lia.
      * unfold max_take in Hm. destruct (hi it); [lia | exact I].
    + simpl. rewrite <- app_assoc, <- Hs. symmetry. apply firstn_skipn.
    + assumption.
Qed.

Lemma re_match_complete full r ps rest :
  Forall2 piece_ok r ps -> (full = true -> rest = []) ->
  re_match full r (concat ps ++ rest) <> None.
Proof.
  induction 1 as [|it p r ps [Hc [Hlo Hhi]] _ IH]; intros Hfull; simpl.
  - destruct full; [rewrite (Hfull eq_refl)|]; discriminate.
  - rewrite <- app_assoc.
    apply take_down_complete with (m := length p).
    + split; [assumption|]. unfold max_take.
      pose proof (run_length_prefix (cls it) (concat ps ++ rest) Hc).
      destruct (hi it); lia.
    + rewrite skipn_app, skipn_all, Nat.sub_diag. simpl. apply IH, Hfull.
Qed.

(** The engine decides the language of the pattern. *)
Lemma fullmatch_Matches (r : list item) (s : pystr) :
  fullmatch r s = true <-> Matches r s.
Proof.
  unfold fullmatch, Matches. split.
  - destruct (re_match true r s) as [[gs rest]|] eqn:E; [|discriminate].
    intros _. destruct (re_match_sound _ _ _ E) as [HF [Hs Hr]].
    exists gs. split; [assumption|]. rewrite (Hr eq_refl), app_nil_r in Hs. exact Hs.
  - intros [ps [HF ->]].
    pose proof (@re_match_complete true r ps [] HF (fun _ => eq_refl)) as H.
    rewrite app_nil_r in H.
    destruct (re_match true r (concat ps)); [reflexivity | contradiction].
Qed.

(** ** Trimming *)

Definition space_free_ends (s : pystr) : Prop :=
  match s with
  | [] => True
  | c :: _ => isspace c = false /\ isspace (last s c) = false
  end.

Lemma lstrip_split (s : pystr) :
  exists ws, s = ws ++ lstrip s /\ Forall (fun c => isspace c = true) ws.
Proof.
  induction s as [|c s [ws [E H]]]; simpl.
  - exists []. split; [reflexivity | constructor].
  - destruct (isspace c) eqn:Ec.
    + exists (c :: ws). split; [simpl; congruence | constructor; assumption].
    + exists []. split; [reflexivity | constructor].
Qed.

Lemma lstrip_head (s : pystr) :
  match lstrip s with [] => True | c :: _ => isspace c = false end.
Proof.
  induction s as [|c s IH]; simpl; [exact I|].
  destruct (isspace c) eqn:Ec; [assumption | exact Ec].
Qed.

Lemma lstrip_nil (s : pystr) :
  lstrip s = [] <-> Forall (fun c => isspace c = true) s.
Proof.
  induction s as [|c s IH]; simpl.
  - split; [constructor | reflexivity].
  - destruct (isspace c) eqn:Ec.
    + rewrite IH. split; intros H; [constructor; assumption | inversion H; assumption].
    + split; [discriminate | intros H; inversion H; congruence].
Qed.

Lemma lstrip_fixed (s : pystr) :
  match s with [] => True | c :: _ => isspace c = false end -> lstrip s = s.
Proof. destruct s as [|c s]; simpl; [reflexivity | intros ->; reflexivity]. Qed.

Lemma lstrip_app_nonspace (a b : pystr) (c : char) :
  isspace c = false -> lstrip (a ++ c :: b) = lstrip (a ++ [c]) ++ b.
Proof.
  intros Hc. induction a as [|x a IH]; simpl.
  - rewrite Hc. reflexivity.
  - destruct (isspace x); [assumption|]. simpl. now rewrite <- app_assoc.
Qed.

Lemma strip_nil (s : pystr) :
  strip s = [] <-> Forall (fun c => isspace c = true) s.
Proof.
  unfold strip, rstrip. split.
  - intros H. apply (f_equal (@rev char)) in H. rewrite rev_involutive in H.
    simpl in H. apply lstrip_nil in H. apply Forall_rev in H.
    rewrite rev_involutive in H.
    destruct (lstrip_split s) as [ws [E Hws]]. rewrite E.
    apply Forall_app. split; assumption.
  - intros H. apply lstrip_nil in H. rewrite H. reflexivity.
Qed.

Lemma strip_length (s : pystr) : length (strip s) <= length s.
Proof.
  unfold strip, rstrip. rewrite length_rev.
  destruct (lstrip_split (rev (lstrip s))) as [ws [E _]].
  apply (f_equal (@length char)) in E. rewrite length_app, length_rev in E.
  destruct (lstrip_split s) as [ws' [E' _]].
  apply (f_equal (@length char)) in E'. rewrite length_app in E'. lia.
Qed.

Lemma last_rev_head (s : pystr) (c d : char) : last (rev (c :: s)) d = c.
Proof. simpl. apply last_last. Qed.

Lemma strip_ends (s : pystr) : space_free_ends (strip s).
Proof.
  unfold strip, rstrip.
  pose proof (lstrip_head (rev (lstrip s))) as H1.
  destruct (lstrip_split (rev (lstrip s))) as [ws [E Hws]].
  destruct (lstrip (rev (lstrip s))) as [|c t] eqn:L; simpl; [exact I|].
  unfold space_free_ends.
  destruct (rev t ++ [c]) as [|x u] eqn:R; [destruct (rev t); discriminate|].
  split.
  - (* the head of the result is the head of [lstrip s] *)
    apply (f_equal (@rev char)) in E. rewrite rev_involutive, rev_app_distr in E.
    simpl in E. rewrite R in E.
    pose proof (lstrip_head s) as H2. rewrite E in H2. exact H2.
  - rewrite <- R. rewrite last_last. exact H1.
Qed.

Lemma strip_fixed (s : pystr) : space_free_ends s -> strip s = s.
Proof.
  destruct s as [|c s]; [reflexivity|]. intros [Hc Hl].
  unfold strip, rstrip. rewrite (lstrip_fixed (c :: s)) by exact Hc.
  rewrite lstrip_fixed; [apply rev_involutive|].
  destruct (rev (c :: s)) as [|x t] eqn:R; [exact I|].
  assert (E : c :: s = rev (x :: t)) by (rewrite <- R, rev_involutive; reflexivity).
  simpl in E. rewrite E in Hl. rewrite last_last in Hl. exact Hl.
Qed.

Lemma strip_idempotent (s : pystr) : strip (strip s) = strip s.
Proof. apply strip_fixed, strip_ends. Qed.

(** ** Type detection: the decision list *)

Section Detection.

Context {F : PyFloat}.

(** [v] opens with [o] and closes with [c]. *)
Definition delimited (o c : char) (v : pystr) : Prop :=
  exists m, v = o :: m ++ [c].

Definition json_shaped (v : pystr) : Prop :=
  (delimited c_lbrace c_rbrace v \/ delimited c_lbracket c_rbracket v)
  /\ exists obj, json_loads v = Some obj.

Definition blank (ln : pystr) : Prop := Forall (fun c => isspace c = true) ln.

Definition comment (ln : pystr) : Prop := exists rest, strip ln = c_hash :: rest.

(** The lines of [v] that are neither blank nor comments. *)
Definition remaining (v ln : pystr) : Prop :=
  In ln (splitlines v) /\ ~ blank ln /\ ~ comment ln.

Definition env_shaped (v : pystr) : Prop :=
  In c_eq v
  /\ (exists ln, remaining v ln)
  /\ (forall ln, remaining v ln -> In c_eq ln).

(** The decision list of the type detector: each rule applies only when
    all the earlier ones have failed. *)
Inductive detects (s : pystr) : Kind -> Prop :=
| detects_json :
    json_shaped (strip s) -> detects s JSON
| detects_env :
    ~ json_shaped (strip s) -> env_shaped (strip s) -> detects s Env
| detects_email :
    ~ json_shaped (strip s) -> ~ env_shaped (strip s) ->
    Matches _EMAIL_RE (strip s) -> detects s Email
| detects_phone :
    ~ json_shaped (strip s) -> ~ env_shaped (strip s) ->
    ~ Matches _EMAIL_RE (strip s) ->
    Matches _PHONE_RE (strip s) -> detects s Phone
| detects_url :
    ~ json_shaped (strip s) -> ~ env_shaped (strip s) ->
    ~ Matches _EMAIL_RE (strip s) -> ~ Matches _PHONE_RE (strip s) ->
    Matches _URL_RE (strip s) -> detects s URL
| detects_text :
    ~ json_shaped (strip s) -> ~ env_shaped (strip s) ->
    ~ Matches _EMAIL_RE (strip s) -> ~ Matches _PHONE_RE (strip s) ->
    ~ Matches _URL_RE (strip s) -> detects s Text.

Lemma delimited_spec (o c : char) (v : pystr) :
  o <> c ->
  (startswith o v && endswith c v)%bool = true <-> delimited o c v.
Proof.
  intros Hoc. unfold delimited, endswith. split.
  - intros H. apply andb_true_iff in H. destruct H as [H1 H2].
    destruct v as [|x v]; [discriminate|]. simpl in H1. apply chr_eqb_eq in H1. subst x.
    destruct (@exists_last _ (o :: v) ltac:(discriminate)) as [m [y E]].
    rewrite E, rev_app_distr in H2. simpl in H2. apply chr_eqb_eq in H2. subst y.
    destruct m as [|z m]; simpl in E.
    + inversion E. congruence.
    + inversion E. subst. exists m. reflexivity.
  - intros [m ->]. simpl. rewrite chr_eqb_refl. simpl.
    change (o :: m ++ [c]) with ((o :: m) ++ [c]). rewrite rev_app_distr. simpl.
    apply chr_eqb_refl.
Qed.

Definition json_ok (v : pystr) : bool :=
  if ((startswith c_lbrace v && endswith c_rbrace v)
      || (startswith c_lbracket v && endswith c_rbracket v))%bool
  then match json_loads v with Some _ => true | None => false end
  else false.

Definition env_ok (v : pystr) : bool :=
  if contains c_eq v then
    match filter env_candidate (splitlines v) with
    | [] => false
    | _ :: _ => forallb (contains c_eq) (filter env_candidate (splitlines v))
    end
  else false.

Lemma detect_type_cascade (s : pystr) :
  detect_type s =
  if json_ok (strip s) then JSON
  else if env_ok (strip s) then Env
  else if fullmatch _EMAIL_RE (strip s) then Email
  else if fullmatch _PHONE_RE (strip s) then Phone
  else if fullmatch _URL_RE (strip s) then URL
  else Text.
Proof. reflexivity. Qed.

Lemma json_ok_spec (v : pystr) : json_ok v = true <-> json_shaped v.
Proof.
  unfold json_ok, json_shaped.
  rewrite <- (@delimited_spec c_lbrace c_rbrace v) by discriminate.
  rewrite <- (@delimited_spec c_lbracket c_rbracket v) by discriminate.
  rewrite <- orb_true_iff.
  destruct (_ || _)%bool.
  - destruct (json_loads v) as [obj|].
    + split; [intros _; split; [reflexivity | eauto] | reflexivity].
    + split; [discriminate | intros [_ [obj H]]; discriminate].
  - split; [discriminate | intros [H _]; discriminate].
Qed.

Lemma env_candidate_spec (ln : pystr) :
  env_candidate ln = true <-> ~ blank ln /\ ~ comment ln.
Proof.
  unfold env_candidate, blank, comment.
  rewrite <- strip_nil.
  destruct (strip ln) as [|c t] eqn:E; simpl.
  - split; [discriminate | intros [H _]; now contradiction H].
  - rewrite negb_true_iff, chr_eqb_neq. split.
    + intros H. split; [discriminate|]. intros [rest Hr]. inversion Hr. contradiction.
    + intros [_ H] ->. apply H. eauto.
Qed.

Lemma remaining_spec (v ln : pystr) :
  In ln (filter env_candidate (splitlines v)) <-> remaining v ln.
Proof.
  unfold remaining. rewrite filter_In, env_candidate_spec. tauto.
Qed.

Lemma env_ok_spec (v : pystr) : env_ok v = true <-> env_shaped v.
Proof.
  unfold env_ok, env_shaped. rewrite <- contains_In.
  destruct (contains c_eq v).
  - destruct (filter env_candidate (splitlines v)) as [|l ls] eqn:E.
    + split; [discriminate|]. intros [_ [[ln H] _]].
      apply remaining_spec in H. rewrite E in H. contradiction.
    + rewrite <- E, forallb_forall. split.
      * intros H. split; [reflexivity|]. split.
        -- exists l. apply remaining_spec. rewrite E. now left.
        -- intros ln Hln. apply contains_In, H, remaining_spec, Hln.
      * intros [_ [_ H]] ln Hln. apply contains_In, H, remaining_spec, Hln.
  - split; [discriminate | intros [H _]; discriminate].
Qed.

Lemma not_true_iff (b : bool) (P : Prop) : (b = true <-> P) -> (b = false <-> ~ P).
Proof. destruct b; intuition congruence. Qed.

Lemma detects_detect_type (s : pystr) : detects s (detect_type s).
Proof.
  rewrite detect_type_cascade.
  destruct (json_ok (strip s)) eqn:J.
  { apply detects_json, json_ok_spec, J. }
  apply (not_true_iff (json_ok_spec _)) in J.
  destruct (env_ok (strip s)) eqn:E.
  { apply detects_env; [assumption | apply env_ok_spec, E]. }
  apply (not_true_iff (env_ok_spec _)) in E.
  destruct (fullmatch _EMAIL_RE (strip s)) eqn:M1.
  { apply detects_email; try assumption. apply fullmatch_Matches, M1. }
  apply (not_true_iff (fullmatch_Matches _ _)) in M1.
  destruct (fullmatch _PHONE_RE (strip s)) eqn:M2.
  { apply detects_phone; try assumption. apply fullmatch_Matches, M2. }
  apply (not_true_iff (fullmatch_Matches _ _)) in M2.
  destruct (fullmatch _URL_RE (strip s)) eqn:M3.
  { apply detects_url; try assumption. apply fullmatch_Matches, M3. }
  apply (not_true_iff (fullmatch_Matches _ _)) in M3.
  apply detects_text; assumption.
Qed.

Lemma detects_functional (s : pystr) (k k' : Kind) :
  detects s k -> detects s k' -> k = k'.
Proof. intros H H'. destruct H; destruct H'; try reflexivity; contradiction. Qed.

(** C1. [detect_type] is total, and what it returns is the first rule of
    the decision list that applies to the trimmed input: JSON when
    delimited by braces or brackets and accepted by the JSON parser, else
    Env when it holds an equals sign and its lines that are neither blank
    nor comments are at least one and all hold an equals sign, else Email,
    Phone, URL by full match, else Text. Exactly one kind is detected. *)
Theorem detect_type_decision_list (s : pystr) :
  detects s (detect_type s)
  /\ (forall k, detects s k -> k = detect_type s)
  /\ In (detect_type s) [Email; Phone; URL; JSON; Env; Text].
Proof.
  split; [apply detects_detect_type|]. split.
  - intros k H. exact (detects_functional H (detects_detect_type s)).
  - destruct (detect_type s); simpl; tauto.
Qed.

End Detection.

(** ** The JSON parser as a derivation *)

Section Parser.

Context {F : PyFloat}.

(** [parses s obj rest]: a JSON value [obj] is read at the head of [s],
    leaving [rest]. *)
Inductive parses : pystr -> json -> pystr -> Prop :=
| parses_string s t rest :
    scanstring s = Some (t, rest) ->
    parses (c_dquote :: s) (JString t) rest
| parses_empty_object s r :
    skip_ws s = c_rbrace :: r ->
    parses (c_lbrace :: s) (JObject []) r
| parses_object s x r pairs rest :
    skip_ws s = x :: r -> x <> c_rbrace ->
    parses_pairs (x :: r) pairs rest ->
    parses (c_lbrace :: s) (JObject (dict_of_pairs pairs)) rest
| parses_empty_array s r :
    skip_ws s = c_rbracket :: r ->
    parses (c_lbracket :: s) (JArray []) r
| parses_array s x r items rest :
    skip_ws s = x :: r -> x <> c_rbracket ->
    parses_items (x :: r) items rest ->
    parses (c_lbracket :: s) (JArray items) rest
| parses_scalar c s obj rest :
    c <> c_dquote -> c <> c_lbrace -> c <> c_lbracket ->
    scan_scalar (c :: s) = Some (obj, rest) ->
    parses (c :: s) obj rest

with parses_items : pystr -> list json -> pystr -> Prop :=
| parses_items_last s val s1 r :
    parses s val s1 -> skip_ws s1 = c_rbracket :: r ->
    parses_items s [val] r
| parses_items_more s val s1 r items rest :
    parses s val s1 -> skip_ws s1 = c_comma :: r ->
    parses_items (skip_ws r) items rest ->
    parses_items s (val :: items) rest

with parses_pairs : pystr -> list (pystr * json) -> pystr -> Prop :=
| parses_pairs_last s1 key s2 s3 val s4 r :
    scanstring s1 = Some (key, s2) -> skip_ws s2 = c_colon :: s3 ->
    parses (skip_ws s3) val s4 -> skip_ws s4 = c_rbrace :: r ->
    parses_pairs (c_dquote :: s1) [(key, val)] r
| parses_pairs_more s1 key s2 s3 val s4 r pairs rest :
    scanstring s1 = Some (key, s2) -> skip_ws s2 = c_colon :: s3 ->
    parses (skip_ws s3) val s4 -> skip_ws s4 = c_comma :: r ->
    parses_pairs (skip_ws r) pairs rest ->
    parses_pairs (c_dquote :: s1) ((key, val) :: pairs) rest.

Scheme parses_min := Minimality for parses Sort Prop
  with parses_items_min := Minimality for parses_items Sort Prop
  with parses_pairs_min := Minimality for parses_pairs Sort Prop.

Combined Scheme parses_mutind from parses_min, parses_items_min, parses_pairs_min.

Ltac case_chr' x c :=
  let E := fresh "E" in
  destruct (chr_eqb x c) eqn:E;
  [apply chr_eqb_eq in E | apply chr_eqb_neq in E].

(** The parser only returns what the grammar derives. *)
Lemma scan_sound (n : nat) :
  (forall s obj rest, scan_once n s = Some (obj, rest) -> parses s obj rest)
  /\ (forall s items rest, array_loop n s = Some (items, rest) -> parses_items s items rest)
  /\ (forall s pairs rest, object_loop n s = Some (pairs, rest) -> parses_pairs s pairs rest).
Proof.
  induction n as [|n [IH1 [IH2 IH3]]]; [repeat split; intros; discriminate|].
  repeat split.
  - intros s obj rest H. simpl in H. destruct s as [|c s]; [discriminate|].
    case_chr' c c_dquote.
    { subst c. destruct (scanstring s) as [[t r]|] eqn:S; [|discriminate].
      inversion H; subst. now constructor. }
    case_chr' c c_lbrace.
    { subst c. destruct (skip_ws s) as [|x r] eqn:W; [discriminate|].
      case_chr' x c_rbrace.
      - subst x. inversion H; subst. now constructor.
      - destruct (object_loop n (x :: r)) as [[pairs rest']|] eqn:L; [|discriminate].
        inversion H; subst. eapply parses_object; eauto. }
    case_chr' c c_lbracket.
    { subst c. destruct (skip_ws s) as [|x r] eqn:W; [discriminate|].
      case_chr' x c_rbracket.
      - subst x. inversion H; subst. now constructor.
      - destruct (array_loop n (x :: r)) as [[items rest']|] eqn:L; [|discriminate].
        inversion H; subst. eapply parses_array; eauto. }
    now apply parses_scalar.
  - intros s items rest H. simpl in H.
    destruct (scan_once n s) as [[val s1]|] eqn:S; [|discriminate].
    destruct (skip_ws s1) as [|x r] eqn:W; [discriminate|].
    case_chr' x c_rbracket.
    { subst x. inversion H; subst. eapply parses_items_last; eauto. }
    case_chr' x c_comma; [|discriminate]. subst x.
    destruct (array_loop n (skip_ws r)) as [[items' rest']|] eqn:L; [|discriminate].
    inversion H; subst. eapply parses_items_more; eauto.
  - intros s pairs rest H. simpl in H. destruct s as [|q s1]; [discriminate|].
    case_chr' q c_dquote; [|discriminate]. subst q.
    destruct (scanstring s1) as [[key s2]|] eqn:S; [|discriminate].
    destruct (skip_ws s2) as [|col s3] eqn:W2; [discriminate|].
    case_chr' col c_colon; [|discriminate]. subst col.
    destruct (scan_once n (skip_ws s3)) as [[val s4]|] eqn:V; [|discriminate].
    destruct (skip_ws s4) as [|x r] eqn:W4; [discriminate|].
    case_chr' x c_rbrace.
    { subst x. inversion H; subst. eapply parses_pairs_last; eauto. }
    case_chr' x c_comma; [|discriminate]. subst x.
    destruct (object_loop n (skip_ws r)) as [[pairs' rest']|] eqn:L; [|discriminate].
    inversion H; subst. eapply parses_pairs_more; eauto.
Qed.

End Parser.

(** ** What the scanners consume *)

Section ParserFacts.

Context {F : PyFloat}.

Lemma skip_ws_split (s : pystr) :
  exists ws, s = ws ++ skip_ws s /\ Forall (fun c => is_json_ws c = true) ws.
Proof.
  induction s as [|c s [ws [E H]]]; simpl.
  - exists []. split; [reflexivity | constructor].
  - destruct (is_json_ws c) eqn:Ec.
    + exists (c :: ws). split; [simpl; congruence | constructor; assumption].
    + exists []. split; [reflexivity | constructor].
Qed.

Lemma skip_ws_length (s : pystr) : length (skip_ws s) <= length s.
Proof.
  destruct (skip_ws_split s) as [ws [E _]].
  apply (f_equal (@length char)) in E. rewrite length_app in E. lia.
Qed.

Lemma skip_ws_cons_length (s r : pystr) (x : char) :
  skip_ws s = x :: r -> length r < length s.
Proof. intros H. pose proof (skip_ws_length s) as L. rewrite H in L. simpl in L. lia. Qed.

Lemma scanstring_length_aux (n : nat) :
  forall s t rest, length s <= n -> scanstring s = Some (t, rest) ->
  length t + 1 + length rest <= length s.
Proof.
  induction n as [|n IH]; intros s t rest Hn H.
  - destruct s; [discriminate | simpl in Hn; lia].
  - destruct s as [|c s]; [discriminate|]. simpl in Hn.
    cbn [scanstring] in H.
    destruct (chr_eqb c c_dquote).
    { inversion H; subst. simpl. lia. }
    destruct (chr_eqb c c_backslash).
    { destruct s as [|e s2]; [discriminate|].
      destruct (chr_eqb e 117%N).
      - destruct s2 as [|h1 [|h2 [|h3 [|h4 r1]]]]; try discriminate.
        destruct (hex4 h1 h2 h3 h4) as [c1|]; [|discriminate].
        destruct r1 as [|b [|u [|g1 [|g2 [|g3 [|g4 r2]]]]]];
          try (destruct (scanstring _) as [[t' rest']|] eqn:S; [|discriminate];
               inversion H; subst; apply IH in S; simpl in *; lia).
        destruct (if is_high_surrogate c1
                  then low_escape (b :: u :: g1 :: g2 :: g3 :: g4 :: r2)
                  else None) as [[c2 r]|].
        + destruct (scanstring r2) as [[t' rest']|] eqn:S; [|discriminate].
          inversion H; subst. apply IH in S; simpl in *; lia.
        + destruct (scanstring (b :: u :: g1 :: g2 :: g3 :: g4 :: r2))
            as [[t' rest']|] eqn:S; [|discriminate].
          inversion H; subst. apply IH in S; simpl in *; lia.
      - destruct (simple_escape e); [|discriminate].
        destruct (scanstring s2) as [[t' rest']|] eqn:S; [|discriminate].
        inversion H; subst. apply IH in S; simpl in *; lia. }
    destruct (N.leb c 31); [discriminate|].
    destruct (scanstring s) as [[t' rest']|] eqn:S; [|discriminate].
    inversion H; subst. apply IH in S; simpl in *; lia.
Qed.

Lemma scanstring_length (s t rest : pystr) :
  scanstring s = Some (t, rest) -> length t + 1 + length rest <= length s.
Proof. apply scanstring_length_aux with (n := length s). lia. Qed.

Lemma strip_prefix_app (p s r : pystr) : strip_prefix p s = Some r -> s = p ++ r.
Proof.
  revert s. induction p as [|x p IH]; intros s; simpl.
  - intros H. now inversion H.
  - destruct s as [|y s]; [discriminate|].
    case_chr x y; [|discriminate]. intros H. f_equal. now apply IH.
Qed.

Lemma span_digits_app (s d r : pystr) :
  span_digits s = (d, r) ->
  s = d ++ r /\ Forall (fun c => is_ascii_digit c = true) d.
Proof.
  revert d r. induction s as [|c s IH]; intros d r; simpl.
  - intros H. inversion H. split; [reflexivity | constructor].
  - destruct (is_ascii_digit c) eqn:E.
    + destruct (span_digits s) as [d' r'] eqn:S. intros H. inversion H; subst.
      destruct (IH _ _ eq_refl) as [-> Hd]. split; [reflexivity | constructor; assumption].
    + intros H. inversion H. split; [reflexivity | constructor].
Qed.

(** The characters a number or a named constant is written with. *)
Definition scalar_char (c : char) : bool :=
  (is_ascii_digit c || contains c (str "-+.eENaInfinitynulltruefalse"))%bool.

Lemma digit_scalar (d : pystr) :
  Forall (fun c => is_ascii_digit c = true) d ->
  Forall (fun c => scalar_char c = true) d.
Proof. apply Forall_impl. intros c H. unfold scalar_char. now rewrite H. Qed.

Lemma scan_int_part_app (s ds r : pystr) :
  scan_int_part s = Some (ds, r) ->
  s = ds ++ r /\ ds <> [] /\ Forall (fun c => is_ascii_digit c = true) ds.
Proof.
  unfold scan_int_part. destruct s as [|c s]; [discriminate|].
  case_chr c 48%N.
  - intros H. inversion H. split; [reflexivity|]. split; [discriminate|].
    constructor; [reflexivity | constructor].
  - destruct (is_ascii_digit c) eqn:D; [|discriminate].
    destruct (span_digits s) as [d r'] eqn:S. intros H. inversion H; subst.
    destruct (span_digits_app _ S) as [-> Hd].
    split; [reflexivity|]. split; [discriminate | constructor; assumption].
Qed.

Lemma scan_frac_app (s fr r : pystr) :
  scan_frac s = (fr, r) ->
  s = fr ++ r /\ Forall (fun c => scalar_char c = true) fr.
Proof.
  unfold scan_frac. destruct s as [|c s].
  - intros H. inversion H. split; [reflexivity | constructor].
  - case_chr c c_dot.
    + destruct (span_digits s) as [d r'] eqn:S.
      destruct (span_digits_app _ S) as [-> Hd].
      destruct d as [|x d]; intros H; inversion H; subst.
      * split; [reflexivity | constructor].
      * split; [reflexivity|]. constructor; [reflexivity | apply digit_scalar, Hd].
    + intros H. inversion H. split; [reflexivity | constructor].
Qed.

Lemma scan_exp_app (s ex r : pystr) :
  scan_exp s = (ex, r) ->
  s = ex ++ r /\ Forall (fun c => scalar_char c = true) ex.
Proof.
  unfold scan_exp. destruct s as [|c s].
  - intros H. inversion H. split; [reflexivity | constructor].
  - destruct (chr_eqb c 101%N || chr_eqb c 69%N)%bool eqn:E.
    + assert (Hc : scalar_char c = true).
      { apply orb_true_iff in E. destruct E as [E | E]; apply chr_eqb_eq in E; subst; reflexivity. }
      destruct s as [|x s2].
      * simpl. intros H. inversion H. split; [reflexivity | constructor].
      * destruct (chr_eqb x c_minus || chr_eqb x c_plus)%bool eqn:Ex.
        -- assert (Hx : scalar_char x = true).
           { apply orb_true_iff in Ex. destruct Ex as [Ex | Ex]; apply chr_eqb_eq in Ex; subst; reflexivity. }
           destruct (span_digits s2) as [d r'] eqn:S.
           destruct (span_digits_app _ S) as [-> Hd].
           destruct d as [|y d]; intros H; inversion H; subst.
           ++ split; [reflexivity | constructor].
           ++ split; [reflexivity|].
              constructor; [assumption|]. constructor; [assumption|]. apply digit_scalar, Hd.
        -- destruct (span_digits (x :: s2)) as [d r'] eqn:S.
           destruct (span_digits_app _ S) as [E' Hd]. rewrite E'.
           destruct d as [|y d]; intros H; inversion H; subst.
           ++ split; [reflexivity | constructor].
           ++ split; [reflexivity|]. constructor; [assumption|]. apply digit_scalar, Hd.
    + intros H. inversion H. split; [reflexivity | constructor].
Qed.

(** Values without string leaves. *)
Definition scalar (o : json) : Prop :=
  match o with
  | JNull | JBool _ | JInt _ | JFloat _ => True
  | _ => False
  end.

Lemma match_number_app (s : pystr) (obj : json) (rest : pystr) :
  match_number s = Some (obj, rest) ->
  scalar obj
  /\ exists pre, s = pre ++ rest /\ pre <> []
                 /\ Forall (fun c => scalar_char c = true) pre.
Proof.
  unfold match_number.
  set (p := match s with
            | [] => (false, [])
            | c :: s' => if chr_eqb c c_minus then (true, s') else (false, s)
            end).
  assert (Hp : exists sg, s = sg ++ snd p /\ Forall (fun c => scalar_char c = true) sg).
  { subst p. destruct s as [|c s']; [exists []; split; [reflexivity | constructor]|].
    case_chr c c_minus.
    - exists [c_minus]. split; [reflexivity | repeat constructor].
    - exists []. split; [reflexivity | constructor]. }
  destruct p as [neg s0]. destruct Hp as [sg [Es Hsg]]. simpl in Es.
  destruct (scan_int_part s0) as [[ds s1]|] eqn:I; [|discriminate].
  destruct (scan_int_part_app _ I) as [E0 [Hne Hds]].
  destruct (scan_frac s1) as [fr s2] eqn:Fr.
  destruct (scan_frac_app _ Fr) as [E1 Hfr].
  destruct (scan_exp s2) as [ex s3] eqn:Ex.
  destruct (scan_exp_app _ Ex) as [E2 Hex].
  intros H.
  assert (Hrest : rest = s3 /\ scalar obj).
  { destruct fr; destruct ex; inversion H; subst; split; simpl; auto. }
  destruct Hrest as [-> Hsc]. split; [assumption|].
  exists (sg ++ ds ++ fr ++ ex). split.
  - rewrite Es, E0, E1, E2. now rewrite <- !app_assoc.
  - split.
    + destruct sg; [destruct ds; [contradiction | discriminate] | discriminate].
    + repeat (apply Forall_app; split); try assumption. apply digit_scalar, Hds.
Qed.

Lemma scan_constant_app (s : pystr) (obj : json) (rest : pystr) :
  scan_constant s = Some (obj, rest) ->
  scalar obj
  /\ exists pre, s = pre ++ rest /\ pre <> []
                 /\ Forall (fun c => scalar_char c = true) pre.
Proof.
  unfold scan_constant.
  repeat match goal with
  | |- context [strip_prefix ?p s] =>
      let E := fresh "E" in
      destruct (strip_prefix p s) eqn:E;
      [ apply strip_prefix_app in E; intros H; inversion H; subst;
        split; [exact I|];
        eexists; split; [reflexivity|]; split;
        [discriminate | repeat constructor] | ]
  end.
  discriminate.
Qed.

Lemma scan_scalar_app (s : pystr) (obj : json) (rest : pystr) :
  scan_scalar s = Some (obj, rest) ->
  scalar obj
  /\ exists pre, s = pre ++ rest /\ pre <> []
                 /\ Forall (fun c => scalar_char c = true) pre.
Proof.
  unfold scan_scalar. destruct (scan_constant s) as [[o r]|] eqn:C.
  - intros H. inversion H; subst. now apply scan_constant_app.
  - apply match_number_app.
Qed.

End ParserFacts.

(** ** String leaves of a parsed document *)

Section Leaves.

Context {F : PyFloat}.

(** The strings [recurse] rewrites: string values, not keys. *)
Fixpoint leaves (o : json) : list pystr :=
  match o with
  | JString s => [s]
  | JArray items => flat_map leaves items
  | JObject members => flat_map (fun kv => leaves (snd kv)) members
  | _ => []
  end.

Lemma dict_set_value (d : list (pystr * json)) (k : pystr) (v : json) (kv : pystr * json) :
  In kv (dict_set d k v) -> snd kv = v \/ In kv d.
Proof.
  induction d as [|[k' v'] d IH]; simpl.
  - intros [<- | []]. now left.
  - destruct (str_eqb k' k).
    + intros [<- | H]; [now left | right; now right].
    + intros [<- | H]; [right; now left|].
      destruct (IH H) as [E | E]; [now left | right; now right].
Qed.

Lemma dict_of_pairs_value_aux (pairs d : list (pystr * json)) (kv : pystr * json) :
  In kv (fold_left (fun d kv => dict_set d (fst kv) (snd kv)) pairs d) ->
  In kv d \/ exists kv', In kv' pairs /\ snd kv' = snd kv.
Proof.
  revert d. induction pairs as [|p pairs IH]; simpl; intros d H; [now left|].
  destruct (IH _ H) as [H1 | [kv' [H1 H2]]].
  - destruct (dict_set_value _ _ _ _ H1) as [E | E]; [|now left].
    right. exists p. split; [now left | now symmetry].
  - right. exists kv'. split; [now right | assumption].
Qed.

Lemma dict_of_pairs_value (pairs : list (pystr * json)) (kv : pystr * json) :
  In kv (dict_of_pairs pairs) -> exists kv', In kv' pairs /\ snd kv' = snd kv.
Proof.
  intros H. destruct (dict_of_pairs_value_aux _ _ _ H) as [[] | H']. exact H'.
Qed.

Definition leaves_below (n : nat) (o : json) : Prop :=
  forall l, In l (leaves o) -> length l < n.

Lemma leaves_below_le (n m : nat) (o : json) :
  n <= m -> leaves_below n o -> leaves_below m o.
Proof. intros Hnm H l Hl. specialize (H l Hl). lia. Qed.

Lemma parses_length :
  (forall s obj rest, parses s obj rest ->
     length rest < length s /\ leaves_below (length s) obj)
  /\ (forall s items rest, parses_items s items rest ->
        length rest < length s
        /\ forall i, In i items -> leaves_below (length s) i)
  /\ (forall s pairs rest, parses_pairs s pairs rest ->
        length rest < length s
        /\ forall kv, In kv pairs -> leaves_below (length s) (snd kv)).
Proof.
  apply parses_mutind.
  - intros s t rest H. apply scanstring_length in H. simpl. split; [lia|].
    intros l [<- | []]. lia.
  - intros s r H. apply skip_ws_cons_length in H. simpl. split; [lia | intros l []].
  - intros s x r pairs rest W _ _ [L IH].
    pose proof (skip_ws_length s) as Ls. rewrite W in Ls. split; [simpl in *; lia|].
    intros l Hl. simpl in Hl. apply in_flat_map in Hl. destruct Hl as [kv [Hkv Hl]].
    apply dict_of_pairs_value in Hkv. destruct Hkv as [kv' [Hin E]].
    rewrite <- E in Hl. specialize (IH kv' Hin l Hl). simpl in *. lia.
  - intros s r H. apply skip_ws_cons_length in H. simpl. split; [lia | intros l []].
  - intros s x r items rest W _ _ [L IH].
    pose proof (skip_ws_length s) as Ls. rewrite W in Ls. split; [simpl in *; lia|].
    intros l Hl. simpl in Hl. apply in_flat_map in Hl. destruct Hl as [i [Hi Hl]].
    specialize (IH i Hi l Hl). simpl in *. lia.
  - intros c s obj rest _ _ _ H. apply scan_scalar_app in H.
    destruct H as [Hsc [pre [E [Hne _]]]].
    split.
    + rewrite E, length_app. destruct pre; [contradiction | simpl; lia].
    + intros l Hl. destruct obj; simpl in *; contradiction.
  - intros s val s1 r _ [L1 IH1] W. apply skip_ws_cons_length in W.
    split; [lia|]. intros i [<- | []]. exact IH1.
  - intros s val s1 r items rest _ [L1 IH1] W _ [L2 IH2].
    apply skip_ws_cons_length in W. pose proof (skip_ws_length r) as Lr.
    split; [lia|]. intros i [<- | Hi]; [exact IH1|].
    apply leaves_below_le with (n := length (skip_ws r)); [lia | auto].
  - intros s1 key s2 s3 val s4 r S W2 _ [L IH] W4.
    apply scanstring_length in S. apply skip_ws_cons_length in W2, W4.
    pose proof (skip_ws_length s3) as L3. simpl.
    split; [lia|]. intros kv [<- | []].
    apply leaves_below_le with (n := length (skip_ws s3)); [lia | exact IH].
  - intros s1 key s2 s3 val s4 r pairs rest S W2 _ [L IH] W4 _ [L' IH'].
    apply scanstring_length in S. apply skip_ws_cons_length in W2, W4.
    pose proof (skip_ws_length s3) as L3. pose proof (skip_ws_length r) as Lr. simpl.
    split; [lia|]. intros kv [<- | Hkv].
    + apply leaves_below_le with (n := length (skip_ws s3)); [lia | exact IH].
    + apply leaves_below_le with (n := length (skip_ws r)); [lia | auto].
Qed.

Lemma json_loads_parses (v : pystr) (obj : json) :
  json_loads v = Some obj ->
  exists rest, parses (skip_ws v) obj rest /\ skip_ws rest = [].
Proof.
  unfold json_loads. destruct (startswith 65279%N v); [discriminate|].
  destruct (scan_once _ _) as [[o rest]|] eqn:S; [|discriminate].
  destruct (skip_ws rest) eqn:W; [|discriminate].
  intros H. inversion H; subst. exists rest. split; [|assumption].
  eapply scan_sound, S.
Qed.

(** Every string of a parsed document is shorter than its text. *)
Lemma json_loads_leaves (v : pystr) (obj : json) :
  json_loads v = Some obj -> leaves_below (length v) obj.
Proof.
  intros H. destruct (json_loads_parses _ H) as [rest [P _]].
  apply parses_length in P. destruct P as [_ P].
  apply leaves_below_le with (n := length (skip_ws v)); [apply skip_ws_length | exact P].
Qed.

End Leaves.

(** ** Nested calls of [sanitize_value] *)

Section Nesting.

Context {F : PyFloat}.

Lemma json_induction (P : json -> Prop) :
  P JNull -> (forall b, P (JBool b)) -> (forall z, P (JInt z)) ->
  (forall f, P (JFloat f)) -> (forall s, P (JString s)) ->
  (forall items, Forall P items -> P (JArray items)) ->
  (forall members, Forall (fun kv => P (snd kv)) members -> P (JObject members)) ->
  forall o, P o.
Proof.
  intros Hn Hb Hz Hf Hs Ha Ho.
  fix IH 1. intros [| b | z | f | s | items | members].
  - exact Hn.
  - apply Hb.
  - apply Hz.
  - apply Hf.
  - apply Hs.
  - apply Ha. induction items as [|i items IHi]; constructor; [apply IH | exact IHi].
  - apply Ho. induction members as [|[k v] members IHm]; constructor; [apply IH | exact IHm].
Qed.

(** The two list traversals inside [recurse]. *)
Fixpoint recurse_items (leaf : pystr -> outcome pystr) (xs : list json)
  : outcome (list json) :=
  match xs with
  | [] => Returns []
  | i :: xs' =>
      match recurse leaf i with
      | Raises e => Raises e
      | Returns i' => omap (cons i') (recurse_items leaf xs')
      end
  end.

Fixpoint recurse_members (leaf : pystr -> outcome pystr) (ms : list (pystr * json))
  : outcome (list (pystr * json)) :=
  match ms with
  | [] => Returns []
  | (k, val) :: ms' =>
      match recurse leaf val with
      | Raises e => Raises e
      | Returns val' => omap (cons (k, val')) (recurse_members leaf ms')
      end
  end.

Lemma recurse_array leaf items :
  recurse leaf (JArray items) = omap JArray (recurse_items leaf items).
Proof.
  simpl. f_equal. induction items as [|i items IH]; simpl; [reflexivity|].
  destruct (recurse leaf i); [|reflexivity]. now rewrite IH.
Qed.

Lemma recurse_object leaf members :
  recurse leaf (JObject members) = omap JObject (recurse_members leaf members).
Proof.
  simpl. f_equal. induction members as [|[k v] members IH]; simpl; [reflexivity|].
  destruct (recurse leaf v); [|reflexivity]. now rewrite IH.
Qed.

Lemma recurse_ext (f g : pystr -> outcome pystr) (o : json) :
  (forall l, In l (leaves o) -> f l = g l) -> recurse f o = recurse g o.
Proof.
  induction o as [| | | | s | items IH | members IH] using json_induction;
    intros H; try reflexivity.
  - simpl. rewrite H; [reflexivity | now left].
  - rewrite !recurse_array. f_equal.
    induction IH as [|i items Hi _ IHl]; simpl; [reflexivity|].
    rewrite Hi, IHl; [reflexivity | |];
      intros l Hl; apply H; simpl; apply in_or_app; auto.
  - rewrite !recurse_object. f_equal.
    induction IH as [|[k v] members Hv _ IHl]; simpl; [reflexivity|].
    simpl in Hv. rewrite Hv, IHl; [reflexivity | |];
      intros l Hl; apply H; simpl; apply in_or_app; auto.
Qed.

Lemma splitlines_from_length (s cur : pystr) (b : bool) (l : pystr) :
  In l (splitlines_from cur b s) -> length l <= length cur + length s.
Proof.
  revert cur b. induction s as [|c s IH]; intros cur b; simpl.
  - destruct cur; [intros [] | intros [<- | []]]. rewrite length_rev. simpl. lia.
  - destruct (b && chr_eqb c c_lf)%bool.
    + intros H. apply IH in H. simpl in H. lia.
    + destruct (islinebreak c).
      * intros [<- | H]; [rewrite length_rev; lia|]. apply IH in H. simpl in H. lia.
      * intros H. apply IH in H. simpl in H. lia.
Qed.

Lemma splitlines_length (s l : pystr) : In l (splitlines s) -> length l <= length s.
Proof. intros H. apply splitlines_from_length in H. simpl in H. lia. Qed.

Lemma split_first_app (c : char) (s : pystr) :
  contains c s = true ->
  s = fst (split_first c s) ++ [c] ++ snd (split_first c s).
Proof.
  induction s as [|x s IH]; simpl; [discriminate|].
  rewrite (chr_eqb_sym c x). case_chr x c.
  - reflexivity.
  - simpl. intros H. destruct (split_first c s) as [k v]. simpl in *.
    f_equal. now apply IH.
Qed.


(** The value of a [KEY=VALUE] line is shorter than the line. *)
Lemma env_value_length (line : pystr) :
  contains c_eq line = true ->
  length (strip (snd (split_first c_eq line))) < length line.
Proof.
  intros H. pose proof (split_first_app _ _ H) as E.
  apply (f_equal (@length char)) in E. rewrite !length_app in E. simpl in E.
  pose proof (strip_length (snd (split_first c_eq line))). lia.
Qed.

Lemma env_line_ext (f g : pystr -> outcome pystr) (line : pystr) :
  (forall val, length val < length line -> f val = g val) ->
  env_line f line = env_line g line.
Proof.
  intros H. unfold env_line. destruct (strip line); [reflexivity|].
  destruct (startswith c_hash _); [reflexivity|].
  destruct (contains c_eq line) eqn:C; [|reflexivity]. simpl.
  pose proof (env_value_length _ C) as L.
  destruct (split_first c_eq line) as [k val]. simpl in L. now rewrite H.
Qed.

Lemma env_lines_ext (f g : pystr -> outcome pystr) (ls : list pystr) :
  (forall line, In line ls -> env_line f line = env_line g line) ->
  env_lines f ls = env_lines g ls.
Proof.
  induction ls as [|l ls IH]; intros H; simpl; [reflexivity|].
  rewrite (H l) by now left. rewrite IH; [reflexivity|]. intros; apply H; now right.
Qed.

Lemma sanitize_fuel_stable (n : nat) :
  forall m v kind, length v < n -> length v < m ->
  sanitize_fuel n v kind = sanitize_fuel m v kind.
Proof.
  induction n as [|n IH]; intros m v kind Hn Hm; [lia|].
  destruct m as [|m]; [lia|]. cbn [sanitize_fuel].
  assert (Nested : forall o, length o < length v ->
            omap snd (sanitize_fuel n o (Some (detect_type o)))
            = omap snd (sanitize_fuel m o (Some (detect_type o)))).
  { intros o Ho. rewrite (IH m); [reflexivity | lia | lia]. }
  destruct (match kind with Some k => k | None => detect_type v end);
    try reflexivity.
  - destruct (json_loads v) as [obj|] eqn:J; [|reflexivity].
    rewrite (@recurse_ext _ (fun o => omap snd (sanitize_fuel m o (Some (detect_type o)))));
      [reflexivity|].
    intros l Hl. apply Nested. exact (json_loads_leaves _ J l Hl).
  - f_equal. apply env_lines_ext. intros line Hl. apply env_line_ext.
    intros val Hv. apply Nested. apply splitlines_length in Hl. lia.
Qed.

(** What a nested call makes of a string: detect its kind, sanitize it by
    the rule of that kind, keep the text. *)
Definition sanitized (o : pystr) : outcome pystr :=
  omap snd (sanitize_value o (Some (detect_type o))).

(** [sanitize_value] satisfies the recursive equation of the source. *)
Lemma sanitize_value_eq (v : pystr) (kind : option Kind) :
  sanitize_value v kind =
  match (match kind with Some k => k | None => detect_type v end) with
  | Email => Returns (Email, mask_email v)
  | Phone => omap (pair Phone) (mask_phone v)
  | URL => Returns (URL, strip_url_query v)
  | JSON =>
      match json_loads v with
      | Some obj =>
          match recurse sanitized obj with
          | Returns obj' => Returns (JSON, json_dumps obj')
          | Raises _ => Returns (Text, html_escape v)
          end
      | None => Returns (Text, html_escape v)
      end
  | Env =>
      omap (fun lines => (Env, join [c_lf] lines))
        (env_lines sanitized (splitlines v))
  | Text => Returns (Text, html_escape (escape_sql v))
  end.
Proof.
  unfold sanitize_value at 1. cbn [sanitize_fuel].
  assert (Nested : forall o, length o < length v ->
            omap snd (sanitize_fuel (length v) o (Some (detect_type o))) = sanitized o).
  { intros o Ho. unfold sanitized, sanitize_value.
    rewrite (@sanitize_fuel_stable (length v) (S (length o))); [reflexivity | lia | lia]. }
  destruct (match kind with Some k => k | None => detect_type v end);
    try reflexivity.
  - destruct (json_loads v) as [obj|] eqn:J; [|reflexivity].
    rewrite (@recurse_ext _ sanitized); [reflexivity|].
    intros l Hl. apply Nested. exact (json_loads_leaves _ J l Hl).
  - f_equal. apply env_lines_ext. intros line Hl. apply env_line_ext.
    intros val Hv. apply Nested. apply splitlines_length in Hl. lia.
Qed.

End Nesting.

(** ** Character tables *)

Definition ranges_disjoint (a b : list (N * N)) : bool :=
  forallb (fun r => forallb (fun q => (N.ltb (snd r) (fst q) || N.ltb (snd q) (fst r))%bool) b) a.

Lemma ranges_disjoint_sound (a b : list (N * N)) :
  ranges_disjoint a b = true ->
  forall c, in_ranges a c = true -> in_ranges b c = false.
Proof.
  unfold ranges_disjoint, in_ranges. intros H c Ha.
  apply existsb_exists in Ha. destruct Ha as [r [Hr Hc]].
  rewrite forallb_forall in H. specialize (H r Hr). rewrite forallb_forall in H.
  destruct (existsb (in_range c) b) eqn:E; [|reflexivity].
  apply existsb_exists in E. destruct E as [q [Hq Hc']].
  specialize (H q Hq). unfold in_range in *.
  apply andb_true_iff in Hc, Hc'. destruct Hc as [H1 H2], Hc' as [H3 H4].
  apply N.leb_le in H1, H2, H3, H4.
  apply orb_true_iff in H. destruct H as [H | H]; apply N.ltb_lt in H; lia.
Qed.


Lemma decimal_digit (c : char) : isdecimal c = true -> isdigit c = true.
Proof. unfold isdigit. intros ->. reflexivity. Qed.

Lemma linebreak_space (c : char) : islinebreak c = true -> isspace c = true.
Proof.
  unfold islinebreak, isspace, in_ranges. simpl. unfold in_range. simpl.
  rewrite !orb_false_r, !orb_true_iff, !andb_true_iff, !N.leb_le. lia.
Qed.

(** ** The phone mask *)

Arguments isdigit : simpl never.
Arguments isdecimal : simpl never.
Arguments isspace : simpl never.
Arguments islinebreak : simpl never.
Arguments chr_eqb : simpl never.

(** No character is a digit for [str.isdigit] without being one for the
    regex class of digits. *)
Definition plain_digits (v : pystr) : Prop :=
  Forall (fun c => isdigit c = true -> isdecimal c = true) v.

(** [out] has the layout of [v]: same length, and the same character
    wherever [v] has no digit. *)
Definition same_layout (v out : pystr) : Prop :=
  Forall2 (fun c x => isdigit c = false -> x = c) v out.

(** The characters of [out] that stand where [v] has a digit. *)
Fixpoint digit_slots (v out : pystr) : pystr :=
  match v, out with
  | c :: v', x :: out' =>
      if isdigit c then x :: digit_slots v' out' else digit_slots v' out'
  | _, _ => []
  end.

Lemma phone_layout_spec (v : pystr) :
  plain_digits v ->
  forall it, length it = length (filter isdecimal v) ->
  exists out, phone_layout v it = Returns out
              /\ same_layout v out /\ digit_slots v out = it.
Proof.
  induction 1 as [|c v Hc Hv IH]; intros it Hit; simpl in *.
  - destruct it; [|discriminate]. exists []. repeat split. constructor.
  - destruct (isdigit c) eqn:D.
    + rewrite (Hc eq_refl) in Hit. destruct it as [|d it]; [discriminate|].
      simpl in Hit. destruct (IH it) as [out [E [L S]]]; [lia|].
      rewrite E. exists (d :: out). simpl. repeat split.
      * constructor; [intros X; congruence | assumption].
      * now rewrite S.
    + assert (isdecimal c = false) as Dc.
      { destruct (isdecimal c) eqn:X; [|reflexivity]. apply decimal_digit in X. congruence. }
      rewrite Dc in Hit. destruct (IH it Hit) as [out [E [L S]]].
      rewrite E. exists (c :: out). simpl. repeat split.
      * constructor; [intros _; reflexivity | assumption].
      * assumption.
Qed.

(** What [mask_phone] returns on a string whose digits are all decimal
    digits. *)
Lemma mask_phone_spec (v : pystr) :
  plain_digits v ->
  let digits := filter isdecimal v in
  if length digits <? 4 then
    mask_phone v = Returns (times c_star (length digits))
  else
    exists out,
      mask_phone v = Returns out
      /\ same_layout v out
      /\ digit_slots v out
         = times c_star (length digits - 2) ++ skipn (length digits - 2) digits.
Proof.
  intros Hv digits. unfold mask_phone. fold digits.
  destruct (length digits <? 4) eqn:E; [reflexivity|].
  apply Nat.ltb_ge in E.
  destruct (@phone_layout_spec v Hv
              (times c_star (length digits - 2) ++ skipn (length digits - 2) digits))
    as [out [H1 [H2 H3]]].
  - unfold times. rewrite length_app, repeat_length, length_skipn. fold digits. lia.
  - exists out. auto.
Qed.


Lemma strip_split (s : pystr) :
  exists a b, s = a ++ strip s ++ b
              /\ Forall (fun c => isspace c = true) a
              /\ Forall (fun c => isspace c = true) b.
Proof.
  destruct (lstrip_split s) as [a [Ea Ha]].
  destruct (lstrip_split (rev (lstrip s))) as [b [Eb Hb]].
  exists a, (rev b). repeat split; [|assumption | apply Forall_rev; assumption].
  unfold strip, rstrip. rewrite <- rev_app_distr, <- Eb, rev_involutive. exact Ea.
Qed.

Lemma Matches_chars (P : char -> Prop) (r : list item) (s : pystr) :
  Forall (fun it => forall c, cls it c = true -> P c) r ->
  Matches r s -> Forall P s.
Proof.
  intros Hr [ps [HF ->]]. revert Hr.
  induction HF as [|it p r ps [Hp _] _ IH]; intros Hr; simpl; [constructor|].
  inversion Hr; subst. apply Forall_app. split; [|auto].
  eapply Forall_impl; [|exact Hp]. auto.
Qed.



(** ** Structured sanitization *)

Section Structured.

Context {F : PyFloat}.




(** A nested call returns the kind it was given, or Text. *)
Lemma sanitize_value_kind (v : pystr) (kind : option Kind) (k : Kind) (out : pystr) :
  sanitize_value v kind = Returns (k, out) ->
  k = match kind with Some k' => k' | None => detect_type v end \/ k = Text.
Proof.
  rewrite sanitize_value_eq.
  destruct (match kind with Some k' => k' | None => detect_type v end) eqn:D;
    try (intros H; inversion H; auto; fail).
  - destruct (mask_phone v); intros H; inversion H; auto.
  - destruct (json_loads v); [destruct (recurse _ _)|]; intros H; inversion H; auto.
  - destruct (env_lines _ _); intros H; inversion H; auto.
Qed.





End Structured.

(** ** Env blocks *)




(** ** The fallback of the JSON branch *)

(** C6, as the code has it: asked for JSON on a text the parser rejects,
    [sanitize_value] answers Text and escapes the raw input for HTML only;
    the SQL escape of the Text rule is not applied. *)
Theorem json_fallback_html_only (F : PyFloat) (v : pystr) :
  json_loads v = None ->
  sanitize_value v (Some JSON) = Returns (Text, html_escape v).
Proof. intros H. rewrite sanitize_value_eq, H. reflexivity. Qed.

Lemma json_fallback_html_only_witness :
  sanitize_value (F := literal_floats) (str "it's") (Some JSON)
  = Returns (Text, html_escape (str "it's")).
Proof. apply json_fallback_html_only. vm_compute. reflexivity. Defined.

(** C6, as stated, fails: the fallback does not double the single quote. *)
Lemma json_fallback_no_sql_escape :
  json_loads (F := literal_floats) (str "it's") = None
  /\ sanitize_value (F := literal_floats) (str "it's") (Some JSON)
     <> Returns (Text, html_escape (escape_sql (str "it's"))).
Proof. split; [vm_compute; reflexivity | vm_compute; discriminate]. Qed.

(** ** Evaluations of the field sanitizers *)

(** C5. The code masks every label of the domain, so the address of the
    docstring comes out with its top-level domain, not as [a***e@e*****m]. *)
Theorem mask_email_alice :
  mask_email (str "alice@example.com") = str "a***e@e*****e.c*m"
  /\ mask_email (str "alice@example.com") <> str "a***e@e*****m".
Proof. split; [vm_compute; reflexivity | vm_compute; discriminate]. Qed.

(** C4. With four decimal digits and a superscript two, which is a digit
    for [str.isdigit] and not for the regex class of digits, the iterator
    over the masked digits runs out and [mask_phone] raises; with fewer
    than four decimal digits the superscript gets no star. *)
Theorem mask_phone_superscript :
  mask_phone (str "1234" ++ [178%N]) = Raises StopIteration
  /\ mask_phone (str "12" ++ [178%N]) = Returns (str "**")
  /\ mask_phone (str "+1 (555) 123-4567") = Returns (str "+* (***) ***-**67").
Proof. repeat split; vm_compute; reflexivity. Qed.

(** ** Literal escapers, one character at a time *)

Definition java_char (x : char) : pystr :=
  if chr_eqb x c_backslash then [c_backslash; c_backslash]
  else if chr_eqb x c_dquote then [c_backslash; c_dquote]
  else if chr_eqb x c_lf then str "\n"
  else if chr_eqb x c_cr then str "\r"
  else [x].

Definition js_char (x : char) : pystr :=
  if chr_eqb x c_backslash then [c_backslash; c_backslash]
  else if chr_eqb x c_dquote then [c_backslash; c_dquote]
  else [x].

Lemma java_literal_chars (s : pystr) :
  _java_literal s = quoted (flat_map java_char s).
Proof.
  unfold _java_literal, quoted, replace. rewrite !flat_map_flat_map.
  do 2 f_equal. apply flat_map_pointwise. intros x _. unfold java_char.
  destruct (chr_eqb x c_backslash) eqn:E1; [apply chr_eqb_eq in E1; subst; reflexivity|].
  destruct (chr_eqb x c_dquote) eqn:E2; [apply chr_eqb_eq in E2; subst; reflexivity|].
  destruct (chr_eqb x c_lf) eqn:E3; [apply chr_eqb_eq in E3; subst; reflexivity|].
  destruct (chr_eqb x c_cr) eqn:E4; [apply chr_eqb_eq in E4; subst; reflexivity|].
  simpl. rewrite E2. simpl. rewrite E3. simpl. rewrite E4. reflexivity.
Qed.

Lemma js_literal_chars (s : pystr) :
  _js_literal s = quoted (flat_map js_char s).
Proof.
  unfold _js_literal, quoted, replace. rewrite !flat_map_flat_map.
  do 2 f_equal. apply flat_map_pointwise. intros x _. unfold js_char.
  destruct (chr_eqb x c_backslash) eqn:E1; [apply chr_eqb_eq in E1; subst; reflexivity|].
  destruct (chr_eqb x c_dquote) eqn:E2; [apply chr_eqb_eq in E2; subst; reflexivity|].
  simpl. rewrite E2. reflexivity.
Qed.

(** C7. The Java escaper writes a line feed and a carriage return as
    two-character escapes; the JavaScript escaper leaves both as they are,
    so its literal spans two lines. *)
Theorem js_literal_keeps_newline :
  _js_literal (str "a" ++ [c_lf; c_cr] ++ str "b")
  = quoted (str "a" ++ [c_lf; c_cr] ++ str "b")
  /\ _java_literal (str "a" ++ [c_lf; c_cr] ++ str "b") = quoted (str "a\n\rb").
Proof. split; vm_compute; reflexivity. Qed.

(** ** The parser finds every derivation *)

Section ParserComplete.

Context {F : PyFloat}.

Lemma chr_eqb_false (a b : char) : a <> b -> chr_eqb a b = false.
Proof. apply chr_eqb_neq. Qed.



End ParserComplete.

(** ** Printing and reading back: numbers and constants *)


Section PrintScalars.

Context {F : PyFloat}.

(** What may follow a value in a printed document. *)
Definition value_end (rest : pystr) : Prop :=
  match rest with
  | [] => True
  | c :: _ => c = c_comma \/ c = c_rbracket \/ c = c_rbrace
  end.

















End PrintScalars.

(** ** Printing and reading back: strings *)

Section PrintStrings.

Context {F : PyFloat}.





End PrintStrings.

(** ** Printing and reading back: documents *)

Section PrintDocuments.

Context {F : PyFloat}.

(** The float [f] is read back from what [json.dumps] writes for it; this
    is the repr round trip of Python floats, which the model leaves to
    [PyFloat]. *)
Definition float_ok (f : pyfloat) : Prop :=
  forall rest, value_end rest ->
  scan_scalar (float_str f ++ rest) = Some (JFloat f, rest).


Lemma str_eqb_eq (a b : pystr) : str_eqb a b = true <-> a = b.
Proof.
  revert b. induction a as [|x a IH]; intros [|y b]; simpl; try (split; [discriminate | discriminate]).
  - split; reflexivity.
  - rewrite andb_true_iff, chr_eqb_eq, IH. split; [intros [-> ->]; reflexivity | intros H; inversion H; auto].
Qed.















End PrintDocuments.

Section PrintParse.

Context {F : PyFloat}.

Lemma join_cons2 (sep a b : pystr) (l : list pystr) :
  join sep (a :: b :: l) = a ++ sep ++ join sep (b :: l).
Proof. reflexivity. Qed.










End PrintParse.

(** ** JSON sanitization *)

Section JsonSanitization.

Context {F : PyFloat}.





End JsonSanitization.

(** With floats kept as their literals, a float literal is read back from
    its printed form: the hypothesis on floats below can be met. *)
Example float_ok_literal : float_ok (F := literal_floats) (str "-1.5e3").
Proof.
  intros rest E. destruct rest as [|c r]; [reflexivity|].
  destruct E as [-> | [-> | ->]]; reflexivity.
Qed.







(** ** The Text rule, one character at a time *)

Definition text_char (c : char) : pystr :=
  flat_map html_char (if chr_eqb c c_squote then [c_squote; c_squote] else [c]).

Lemma text_rule_chars (s : pystr) :
  html_escape (escape_sql s) = flat_map text_char s.
Proof.
  rewrite html_escape_chars. unfold escape_sql, replace.
  rewrite flat_map_flat_map. reflexivity.
Qed.

(** The characters the entities are written with. *)
Definition entity_char (x : char) : bool := contains x (str "&amp;ltgquo#x27").

Lemma text_char_special (c : char) :
  html_special c = true ->
  exists t, text_char c = c_amp :: t
            /\ Forall (fun x => entity_char x = true) (c_amp :: t).
Proof.
  unfold html_special. intros H.
  repeat (apply orb_true_iff in H; destruct H as [H | H]);
    apply chr_eqb_eq in H; subst c; eexists; (split; [reflexivity|]);
    repeat constructor.
Qed.

Lemma text_char_plain (c : char) : html_special c = false -> text_char c = [c].
Proof.
  intros H. unfold text_char.
  assert (Q : chr_eqb c c_squote = false).
  { unfold html_special in H. repeat (apply orb_false_iff in H; destruct H as [H ?]).
    assumption. }
  rewrite Q. simpl. rewrite (html_char_plain _ H). reflexivity.
Qed.

Lemma space_not_special (c : char) : isspace c = true -> html_special c = false.
Proof.
  intros H. unfold html_special.
  repeat match goal with
  | |- context [chr_eqb c ?x] =>
      rewrite (chr_eqb_false (a := c) (b := x)) by (intros ->; vm_compute in H; discriminate)
  end.
  reflexivity.
Qed.

Lemma entity_not_space (x : char) : entity_char x = true -> isspace x = false.
Proof.
  unfold entity_char. rewrite contains_In. simpl. intros H.
  repeat (destruct H as [<- | H]; [reflexivity|]). contradiction.
Qed.

Lemma text_chars_space (a : pystr) :
  Forall (fun c => isspace c = true) a -> flat_map text_char a = a.
Proof.
  induction 1 as [|c a Hc _ IH]; simpl; [reflexivity|].
  rewrite (text_char_plain _ (space_not_special _ Hc)), IH. reflexivity.
Qed.

Lemma text_chars_plain (s : pystr) :
  existsb html_special s = false -> flat_map text_char s = s.
Proof.
  induction s as [|c s IH]; simpl; [reflexivity|]. intros H.
  apply orb_false_iff in H. destruct H as [Hc Hs].
  rewrite (text_char_plain _ Hc), IH by assumption. reflexivity.
Qed.

Lemma text_chars_amp (s : pystr) :
  existsb html_special s = true -> In c_amp (flat_map text_char s).
Proof.
  induction s as [|c s IH]; simpl; [discriminate|]. intros H.
  apply in_or_app. destruct (html_special c) eqn:E.
  - left. destruct (text_char_special _ E) as [t [-> _]]. now left.
  - right. apply IH. exact H.
Qed.

Lemma text_chars_no_dquote (s : pystr) : ~ In c_dquote (flat_map text_char s).
Proof.
  induction s as [|c s IH]; simpl; [tauto|]. intros H.
  apply in_app_or in H. destruct H as [H | H]; [|tauto].
  destruct (html_special c) eqn:E.
  - destruct (text_char_special _ E) as [t [Et A]]. rewrite Et in H.
    rewrite Forall_forall in A. specialize (A _ H). discriminate A.
  - rewrite (text_char_plain _ E) in H. destruct H as [-> | []].
    vm_compute in E. discriminate E.
Qed.

(** ** Trimming commutes with the Text rule *)

Lemma lstrip_spaces (a y : pystr) :
  Forall (fun c => isspace c = true) a -> lstrip (a ++ y) = lstrip y.
Proof. induction 1 as [|c a Hc _ IH]; simpl; [reflexivity|]. now rewrite Hc. Qed.

Lemma strip_unique (a m b : pystr) :
  Forall (fun c => isspace c = true) a ->
  Forall (fun c => isspace c = true) b ->
  space_free_ends m ->
  strip (a ++ m ++ b) = m.
Proof.
  intros Ha Hb Hm. destruct m as [|c m].
  - simpl. apply strip_nil. apply Forall_app. split; assumption.
  - destruct Hm as [Hc Hl]. unfold strip, rstrip.
    rewrite (lstrip_spaces _ Ha).
    rewrite (lstrip_fixed ((c :: m) ++ b)) by exact Hc.
    rewrite rev_app_distr, lstrip_spaces by (apply Forall_rev; exact Hb).
    rewrite lstrip_fixed; [apply rev_involutive|].
    destruct (rev (c :: m)) as [|x t] eqn:R; [exact I|].
    assert (E : c :: m = rev (x :: t)) by (rewrite <- R, rev_involutive; reflexivity).
    simpl in E. rewrite E, last_last in Hl. exact Hl.
Qed.

Lemma text_char_ends (c : char) :
  isspace c = false ->
  exists x t, text_char c = x :: t /\ isspace x = false
              /\ isspace (last (x :: t) x) = false.
Proof.
  intros H. destruct (html_special c) eqn:E.
  - unfold html_special in E.
    repeat (apply orb_true_iff in E; destruct E as [E | E]);
      apply chr_eqb_eq in E; subst c; eexists; eexists;
      (split; [reflexivity | split; reflexivity]).
  - rewrite (text_char_plain _ E). exists c, []. auto.
Qed.

Lemma last_app_nonempty (a b : pystr) (d : char) :
  b <> [] -> last (a ++ b) d = last b d.
Proof.
  intros Hb. induction a as [|x a IH]; [reflexivity|].
  simpl. destruct (a ++ b) eqn:E; [|exact IH].
  apply app_eq_nil in E. destruct E; contradiction.
Qed.

Lemma last_default (s : pystr) (d d' : char) : s <> [] -> last s d = last s d'.
Proof.
  induction s as [|x s IH]; [contradiction|]. intros _.
  destruct s; [reflexivity|]. apply IH. discriminate.
Qed.

Lemma text_chars_ends (m : pystr) :
  space_free_ends m -> space_free_ends (flat_map text_char m).
Proof.
  destruct m as [|c m]; [trivial|]. intros [Hc Hl].
  destruct (@text_char_ends _ Hc) as [x [t [E [Hx _]]]].
  destruct (@exists_last _ (c :: m) ltac:(discriminate)) as [m' [z Ez]].
  rewrite Ez, last_last in Hl.
  destruct (@text_char_ends _ Hl) as [y [u [E' [_ Hy]]]].
  assert (HW : flat_map text_char (c :: m) = x :: (t ++ flat_map text_char m)).
  { cbn [flat_map]. rewrite E. reflexivity. }
  assert (HW2 : flat_map text_char (c :: m) = flat_map text_char m' ++ (y :: u)).
  { rewrite Ez, flat_map_app. cbn [flat_map]. rewrite E', app_nil_r. reflexivity. }
  rewrite HW. split; [exact Hx|].
  rewrite <- HW, HW2, last_app_nonempty by discriminate.
  rewrite (@last_default (y :: u) x y) by discriminate. exact Hy.
Qed.

Lemma strip_text_chars (s : pystr) :
  strip (flat_map text_char s) = flat_map text_char (strip s).
Proof.
  destruct (strip_split s) as [a [b [E [Ha Hb]]]].
  rewrite E at 1. rewrite !flat_map_app.
  rewrite (@text_chars_space _ Ha), (@text_chars_space _ Hb).
  apply strip_unique; try assumption.
  apply text_chars_ends, strip_ends.
Qed.

(** ** The three patterns, spelled out *)

Lemma piece_lit (c : char) (p : pystr) : piece_ok (lit c) p <-> p = [c].
Proof.
  unfold piece_ok, lit, one. simpl. split.
  - intros [H [L1 L2]]. destruct p as [|x [|y p]]; simpl in *; try lia.
    inversion H; subst. f_equal. symmetry. now apply chr_eqb_eq.
  - intros ->. repeat split; simpl; try lia. constructor; [apply chr_eqb_refl | constructor].
Qed.

Lemma piece_opt (c : char) (p : pystr) :
  piece_ok (opt (chr_eqb c)) p <-> p = [] \/ p = [c].
Proof.
  unfold piece_ok, opt. simpl. split.
  - intros [H [_ L2]]. destruct p as [|x [|y p]]; simpl in *; try lia; [now left|].
    right. inversion H; subst. f_equal. symmetry. now apply chr_eqb_eq.
  - intros [-> | ->]; repeat split; simpl; try lia; repeat constructor.
    apply chr_eqb_refl.
Qed.

Lemma piece_plus (P : char -> bool) (p : pystr) :
  piece_ok (at_least 1 P) p <-> Forall (fun c => P c = true) p /\ p <> [].
Proof.
  unfold piece_ok, at_least. simpl. split.
  - intros [H [L _]]. split; [exact H|]. destruct p; [simpl in L; lia | discriminate].
  - intros [H N]. repeat split; [exact H|]. destruct p; [contradiction | simpl; lia].
Qed.

Definition all_in (P : char -> bool) (p : pystr) : Prop :=
  Forall (fun c => P c = true) p /\ p <> [].

Lemma email_shape (v : pystr) :
  Matches _EMAIL_RE v <->
  exists l d1 d3, v = l ++ c_at :: d1 ++ c_dot :: d3
                  /\ all_in not_at_space l /\ all_in not_at_space d1
                  /\ all_in not_at_space d3.
Proof.
  unfold Matches, _EMAIL_RE. split.
  - intros [ps [H ->]].
    inversion H as [|? l ? ? P1 H1]; subst. inversion H1 as [|? a ? ? P2 H2]; subst.
    inversion H2 as [|? d1 ? ? P3 H3]; subst. inversion H3 as [|? d ? ? P4 H4]; subst.
    inversion H4 as [|? d3 ? ? P5 H5]; subst. inversion H5; subst.
    apply piece_lit in P2, P4. subst. apply piece_plus in P1, P3, P5.
    exists l, d1, d3. simpl. rewrite app_nil_r. auto.
  - intros [l [d1 [d3 [-> [H1 [H2 H3]]]]]].
    exists [l; [c_at]; d1; [c_dot]; d3]. split.
    + repeat constructor; try (now apply piece_plus); now apply piece_lit.
    + simpl. rewrite app_nil_r. reflexivity.
Qed.

Lemma url_shape (v : pystr) :
  Matches _URL_RE v <->
  exists sopt rest, v = str "http" ++ sopt ++ str "://" ++ rest
                    /\ (sopt = [] \/ sopt = [115%N])
                    /\ all_in not_space rest.
Proof.
  unfold Matches, _URL_RE. split.
  - intros [ps [H ->]].
    inversion H as [|? p1 ? ? P1 H1]; subst. inversion H1 as [|? p2 ? ? P2 H2]; subst.
    inversion H2 as [|? p3 ? ? P3 H3]; subst. inversion H3 as [|? p4 ? ? P4 H4]; subst.
    inversion H4 as [|? p5 ? ? P5 H5]; subst. inversion H5 as [|? p6 ? ? P6 H6]; subst.
    inversion H6 as [|? p7 ? ? P7 H7]; subst. inversion H7 as [|? p8 ? ? P8 H8]; subst.
    inversion H8 as [|? p9 ? ? P9 H9]; subst. inversion H9; subst.
    apply piece_lit in P1, P2, P3, P4, P6, P7, P8. subst.
    apply piece_opt in P5. apply piece_plus in P9.
    exists p5, p9. simpl. rewrite app_nil_r. repeat split; try tauto.
  - intros [sopt [rest [-> [Hs Hr]]]].
    exists [[104]; [116]; [116]; [112]; sopt; [c_colon]; [c_slash]; [c_slash]; rest]%N.
    split.
    + repeat (apply Forall2_cons;
                [first [now apply piece_lit | now apply piece_opt | now apply piece_plus]|]).
      constructor.
    + simpl. rewrite app_nil_r. destruct Hs as [-> | ->]; reflexivity.
Qed.

(** ** Pulling a match back through the Text rule *)

Lemma text_head_back (w : pystr) (x : char) (b : pystr) :
  flat_map text_char w = x :: b -> x <> c_amp ->
  exists w', w = x :: w' /\ flat_map text_char w' = b.
Proof.
  destruct w as [|c w]; simpl; [discriminate|]. intros H Hx.
  destruct (html_special c) eqn:E.
  - destruct (text_char_special _ E) as [t [Et _]]. rewrite Et in H.
    inversion H. congruence.
  - rewrite (text_char_plain _ E) in H. inversion H; subst. eauto.
Qed.

Lemma prefix_split (u g a b : pystr) (x : char) :
  u ++ g = a ++ x :: b -> ~ In x u ->
  exists a', a = u ++ a' /\ g = a' ++ x :: b.
Proof.
  revert a. induction u as [|z u IH]; intros a H Hx; simpl in *.
  - exists a. auto.
  - destruct a as [|y a]; simpl in H; inversion H; subst.
    + exfalso. apply Hx. now left.
    + destruct (IH a H2) as [a' [-> Hg]]; [tauto|]. exists a'. auto.
Qed.

Lemma text_split_back (x : char) (w a b : pystr) :
  entity_char x = false ->
  flat_map text_char w = a ++ x :: b ->
  exists wa wb, w = wa ++ x :: wb
                /\ flat_map text_char wa = a /\ flat_map text_char wb = b.
Proof.
  intros Hx. revert a. induction w as [|c w IH]; intros a H; simpl in H.
  - destruct a; discriminate.
  - destruct (html_special c) eqn:E.
    + destruct (text_char_special _ E) as [t [Et A]].
      rewrite Et in H.
      destruct (@prefix_split (c_amp :: t) (flat_map text_char w) a b x H) as [a' [-> Hg]].
      { intros I. rewrite Forall_forall in A. specialize (A _ I). congruence. }
      destruct (IH _ Hg) as [wa [wb [-> [Ha Hb]]]].
      exists (c :: wa), wb. simpl. rewrite Et, Ha. auto.
    + rewrite (text_char_plain _ E) in H. destruct a as [|y a]; simpl in H; inversion H; subst.
      * exists [], w. auto.
      * destruct (IH _ H2) as [wa [wb [-> [Ha Hb]]]].
        exists (y :: wa), wb. simpl. rewrite (text_char_plain _ E), Ha. auto.
Qed.

Lemma text_all_in_back (P : char -> bool) (w : pystr) :
  (forall c, html_special c = true -> P c = true) ->
  all_in P (flat_map text_char w) -> all_in P w.
Proof.
  intros HP [H N]. split.
  - clear N. induction w as [|c w IH]; [constructor|]. simpl in H.
    apply Forall_app in H. destruct H as [Hc Hw].
    constructor; [|exact (IH Hw)].
    destruct (html_special c) eqn:E; [now apply HP|].
    rewrite (text_char_plain _ E) in Hc. now inversion Hc.
  - destruct w; [contradiction | discriminate].
Qed.

Lemma special_not_at_space (c : char) : html_special c = true -> not_at_space c = true.
Proof.
  unfold html_special. intros H.
  repeat (apply orb_true_iff in H; destruct H as [H | H]);
    apply chr_eqb_eq in H; subst c; reflexivity.
Qed.

Lemma special_not_space (c : char) : html_special c = true -> not_space c = true.
Proof.
  unfold html_special. intros H.
  repeat (apply orb_true_iff in H; destruct H as [H | H]);
    apply chr_eqb_eq in H; subst c; reflexivity.
Qed.

Lemma email_back (w : pystr) :
  Matches _EMAIL_RE (flat_map text_char w) -> Matches _EMAIL_RE w.
Proof.
  rewrite !email_shape. intros [l [d1 [d3 [E [H1 [H2 H3]]]]]].
  destruct (@text_split_back c_at w l (d1 ++ c_dot :: d3) eq_refl E)
    as [wl [wr [-> [<- E']]]].
  destruct (@text_split_back c_dot wr d1 d3 eq_refl E') as [w1 [w3 [-> [<- <-]]]].
  exists wl, w1, w3. split; [reflexivity|].
  repeat split; apply (text_all_in_back _ special_not_at_space); assumption.
Qed.

Lemma url_back (w : pystr) :
  Matches _URL_RE (flat_map text_char w) -> Matches _URL_RE w.
Proof.
  rewrite !url_shape. intros [sopt [rest [E [Hs Hr]]]].
  simpl in E.
  apply text_head_back in E; [|discriminate]. destruct E as [w1 [-> E]].
  apply text_head_back in E; [|discriminate]. destruct E as [w2 [-> E]].
  apply text_head_back in E; [|discriminate]. destruct E as [w3 [-> E]].
  apply text_head_back in E; [|discriminate]. destruct E as [w4 [-> E]].
  destruct Hs as [-> | ->]; simpl in E.
  - apply text_head_back in E; [|discriminate]. destruct E as [w5 [-> E]].
    apply text_head_back in E; [|discriminate]. destruct E as [w6 [-> E]].
    apply text_head_back in E; [|discriminate]. destruct E as [w7 [-> E]].
    exists [], w7. split; [reflexivity|]. split; [now left|].
    apply (text_all_in_back _ special_not_space). now rewrite E.
  - apply text_head_back in E; [|discriminate]. destruct E as [w5 [-> E]].
    apply text_head_back in E; [|discriminate]. destruct E as [w6 [-> E]].
    apply text_head_back in E; [|discriminate]. destruct E as [w7 [-> E]].
    apply text_head_back in E; [|discriminate]. destruct E as [w8 [-> E]].
    exists [115%N], w8. split; [reflexivity|]. split; [now right|].
    apply (text_all_in_back _ special_not_space). now rewrite E.
Qed.

Lemma phone_no_amp (v : pystr) : Matches _PHONE_RE v -> ~ In c_amp v.
Proof.
  intros H I.
  apply (@Matches_chars (fun c => c <> c_amp)) in H.
  - rewrite Forall_forall in H. exact (H _ I eq_refl).
  - repeat constructor; simpl; intros c Hc ->; vm_compute in Hc; discriminate.
Qed.

Lemma no_amp_plain (w : pystr) :
  ~ In c_amp (flat_map text_char w) -> flat_map text_char w = w.
Proof.
  intros H. apply text_chars_plain.
  destruct (existsb html_special w) eqn:E; [|reflexivity].
  exfalso. apply H. now apply text_chars_amp.
Qed.

(** ** A document without strings has no ampersand *)

Section PlainDocuments.

Context {F : PyFloat}.

Lemma not_in_suffix (q : char) (a b : pystr) : ~ In q (a ++ b) -> ~ In q b.
Proof. intros H I. apply H. apply in_or_app. now right. Qed.

Lemma ws_no_amp (ws : pystr) :
  Forall (fun c => is_json_ws c = true) ws -> ~ In c_amp ws.
Proof.
  intros H I. rewrite Forall_forall in H. specialize (H _ I). discriminate H.
Qed.

Lemma scalar_no_amp (pre : pystr) :
  Forall (fun c => scalar_char c = true) pre -> ~ In c_amp pre.
Proof.
  intros H I. rewrite Forall_forall in H. specialize (H _ I). discriminate H.
Qed.

Lemma skip_ws_cons_split (s r : pystr) (x : char) :
  skip_ws s = x :: r ->
  exists ws, s = ws ++ x :: r /\ ~ In c_amp ws.
Proof.
  intros H. destruct (skip_ws_split s) as [ws [E Hws]]. rewrite H in E.
  exists ws. split; [exact E | now apply ws_no_amp].
Qed.

Lemma parses_plain :
  (forall s o rest, parses s o rest -> ~ In c_dquote s ->
     exists pre, s = pre ++ rest /\ ~ In c_amp pre)
  /\ (forall s items rest, parses_items s items rest -> ~ In c_dquote s ->
        exists pre, s = pre ++ rest /\ ~ In c_amp pre)
  /\ (forall s pairs rest, parses_pairs s pairs rest -> ~ In c_dquote s -> False).
Proof.
  apply parses_mutind.
  - intros s t rest _ H. exfalso. apply H. now left.
  - intros s r W _. destruct (skip_ws_cons_split _ W) as [ws [-> Hws]].
    exists (c_lbrace :: ws ++ [c_rbrace]). split.
    + simpl. rewrite <- app_assoc. reflexivity.
    + intros [I | I]; [discriminate I|]. apply in_app_or in I.
      destruct I as [I | [I | []]]; [tauto | discriminate I].
  - intros s x r pairs rest W _ _ IH H. exfalso. apply IH.
    destruct (skip_ws_cons_split _ W) as [ws [-> _]].
    apply (@not_in_suffix _ (c_lbrace :: ws)). exact H.
  - intros s r W _. destruct (skip_ws_cons_split _ W) as [ws [-> Hws]].
    exists (c_lbracket :: ws ++ [c_rbracket]). split.
    + simpl. rewrite <- app_assoc. reflexivity.
    + intros [I | I]; [discriminate I|]. apply in_app_or in I.
      destruct I as [I | [I | []]]; [tauto | discriminate I].
  - intros s x r items rest W _ _ IH H.
    destruct (skip_ws_cons_split _ W) as [ws [-> Hws]].
    destruct IH as [pre [E Hpre]].
    { apply (@not_in_suffix _ (c_lbracket :: ws)). exact H. }
    exists (c_lbracket :: ws ++ pre). split.
    + simpl. rewrite E, <- app_assoc. reflexivity.
    + intros [I | I]; [discriminate I|]. apply in_app_or in I. tauto.
  - intros c s o rest _ _ _ S _. apply scan_scalar_app in S.
    destruct S as [_ [pre [E [_ A]]]]. exists pre. split; [exact E | now apply scalar_no_amp].
  - intros s val s1 r _ IH W H. destruct (IH H) as [pre [-> Hpre]].
    destruct (skip_ws_cons_split _ W) as [ws [-> Hws]].
    exists (pre ++ ws ++ [c_rbracket]). split.
    + rewrite <- !app_assoc. reflexivity.
    + intros I. apply in_app_or in I. destruct I as [I | I]; [tauto|].
      apply in_app_or in I. destruct I as [I | [I | []]]; [tauto | discriminate I].
  - intros s val s1 r items rest _ IH W _ IH' H. destruct (IH H) as [pre [-> Hpre]].
    destruct (skip_ws_cons_split _ W) as [ws [-> Hws]].
    destruct (skip_ws_split r) as [ws' [Er Hws']].
    destruct IH' as [pre' [E' Hpre']].
    { rewrite Er in H. apply not_in_suffix in H.
      apply (@not_in_suffix _ (ws ++ c_comma :: ws')).
      rewrite <- app_assoc. exact H. }
    exists (pre ++ ws ++ c_comma :: ws' ++ pre'). split.
    + rewrite Er at 1. rewrite E' at 1. rewrite <- !app_assoc. simpl.
      rewrite <- !app_assoc. reflexivity.
    + apply ws_no_amp in Hws'.
      intros I. apply in_app_or in I. destruct I as [I | I]; [tauto|].
      apply in_app_or in I. destruct I as [I | [I | I]]; [tauto | discriminate I |].
      apply in_app_or in I. tauto.
  - intros s1 key s2 s3 val s4 r _ _ _ _ _ H. apply H. now left.
  - intros s1 key s2 s3 val s4 r pairs rest _ _ _ _ _ _ _ H. apply H. now left.
Qed.

Lemma json_loads_plain (v : pystr) (o : json) :
  json_loads v = Some o -> ~ In c_dquote v -> ~ In c_amp v.
Proof.
  intros J H. destruct (json_loads_parses _ J) as [rest [P W]].
  destruct (skip_ws_split v) as [ws [Ev Hws]].
  destruct (proj1 parses_plain _ _ _ P) as [pre [E Hpre]].
  { rewrite Ev in H. now apply not_in_suffix in H. }
  destruct (skip_ws_split rest) as [ws' [Er Hws']]. rewrite W, app_nil_r in Er.
  rewrite Ev, E, Er. apply ws_no_amp in Hws, Hws'.
  intros I. apply in_app_or in I. destruct I as [I | I]; [tauto|].
  apply in_app_or in I. tauto.
Qed.

End PlainDocuments.

(** ** Detection after the Text rule *)

Section Redetection.

Context {F : PyFloat}.

Lemma json_ok_text_back (w : pystr) :
  json_ok (flat_map text_char w) = true -> flat_map text_char w = w.
Proof.
  intros H. apply json_ok_spec in H. destruct H as [_ [o J]].
  apply no_amp_plain. exact (json_loads_plain _ J (@text_chars_no_dquote w)).
Qed.

Lemma fullmatch_back (r : list item) (w : pystr) :
  (Matches r (flat_map text_char w) -> Matches r w) ->
  fullmatch r w = false -> fullmatch r (flat_map text_char w) = false.
Proof.
  intros B H. destruct (fullmatch r (flat_map text_char w)) eqn:E; [|reflexivity].
  apply fullmatch_Matches, B, fullmatch_Matches in E. congruence.
Qed.

Lemma phone_back (w : pystr) :
  Matches _PHONE_RE (flat_map text_char w) -> Matches _PHONE_RE w.
Proof.
  intros H. pose proof (phone_no_amp H) as N.
  rewrite (no_amp_plain _ N) in H. exact H.
Qed.

(** C9, as the code has it: when the detector classifies [s] as Text, the
    output of the Text rule is detected as Env or Text again, never as
    Email, Phone, URL or JSON. *)
Theorem text_rule_output_not_promoted (s : pystr) :
  detect_type s = Text ->
  sanitize_value s None = Returns (Text, html_escape (escape_sql s))
  /\ detect_type (html_escape (escape_sql s)) <> Email
  /\ detect_type (html_escape (escape_sql s)) <> Phone
  /\ detect_type (html_escape (escape_sql s)) <> URL
  /\ detect_type (html_escape (escape_sql s)) <> JSON.
Proof.
  intros D. split.
  { rewrite sanitize_value_eq, D. reflexivity. }
  rewrite detect_type_cascade in D.
  destruct (json_ok (strip s)) eqn:J; [discriminate|].
  destruct (env_ok (strip s)); [discriminate|].
  destruct (fullmatch _EMAIL_RE (strip s)) eqn:M1; [discriminate|].
  destruct (fullmatch _PHONE_RE (strip s)) eqn:M2; [discriminate|].
  destruct (fullmatch _URL_RE (strip s)) eqn:M3; [discriminate|].
  rewrite text_rule_chars, detect_type_cascade, strip_text_chars.
  assert (J' : json_ok (flat_map text_char (strip s)) = false).
  { destruct (json_ok (flat_map text_char (strip s))) eqn:E; [|reflexivity].
    rewrite (json_ok_text_back _ E) in E. congruence. }
  rewrite J', (fullmatch_back (@email_back _) M1),
    (fullmatch_back (@phone_back _) M2), (fullmatch_back (@url_back _) M3).
  destruct (env_ok _); repeat split; discriminate.
Qed.

End Redetection.

Lemma text_rule_output_not_promoted_witness :
  sanitize_value (F := literal_floats) (str "x < 'y' & z") None
  = Returns (Text, html_escape (escape_sql (str "x < 'y' & z")))
  /\ detect_type (F := literal_floats) (html_escape (escape_sql (str "x < 'y' & z"))) <> Email
  /\ detect_type (F := literal_floats) (html_escape (escape_sql (str "x < 'y' & z"))) <> Phone
  /\ detect_type (F := literal_floats) (html_escape (escape_sql (str "x < 'y' & z"))) <> URL
  /\ detect_type (F := literal_floats) (html_escape (escape_sql (str "x < 'y' & z"))) <> JSON.
Proof. apply text_rule_output_not_promoted. vm_compute. reflexivity. Defined.

(** C9, as stated, fails: a form feed before a JSON array is trimmed by the
    detector and rejected by the parser, so [sanitize_value] falls back to
    Text and leaves a string that is detected as JSON. *)
Lemma text_fallback_redetected_as_json :
  sanitize_value (F := literal_floats) ([12%N] ++ str "[]") None
  = Returns (Text, [12%N] ++ str "[]")
  /\ detect_type (F := literal_floats) ([12%N] ++ str "[]") = JSON.
Proof. split; vm_compute; reflexivity. Qed.

(** ** Sanitized values keep clean ends *)

Definition nonspace (c : char) : Prop := isspace c = false.

Lemma nonspace_ends (s : pystr) : Forall nonspace s -> space_free_ends s.
Proof.
  destruct s as [|c s]; [intros _; exact I|]. intros H. split.
  - now inversion H.
  - rewrite Forall_forall in H. apply H.
    destruct (@exists_last _ (c :: s) ltac:(discriminate)) as [m [z E]].
    rewrite E, last_last. apply in_or_app. right. now left.
Qed.

Lemma join_chars (P : char -> Prop) (sep : pystr) (parts : list pystr) :
  Forall P sep -> Forall (Forall P) parts -> Forall P (join sep parts).
Proof.
  intros Hs H. induction H as [|p parts Hp _ IH]; [constructor|].
  destruct parts as [|q parts]; [exact Hp|].
  change (join sep (p :: q :: parts)) with (p ++ sep ++ join sep (q :: parts)).
  repeat (apply Forall_app; split); assumption.
Qed.

Lemma split_on_chars (P : char -> Prop) (c : char) (s : pystr) :
  Forall P s -> Forall (Forall P) (split_on c s).
Proof.
  induction 1 as [|x s Hx _ IH]; simpl; [repeat constructor|].
  destruct (chr_eqb x c); [constructor; [constructor | exact IH]|].
  destruct (split_on c s) as [|p ps]; [repeat constructor; assumption|].
  inversion IH; subst. constructor; [constructor; assumption | assumption].
Qed.

Lemma last_In (s : pystr) (x d : char) : In (last (x :: s) d) (x :: s).
Proof.
  destruct (@exists_last _ (x :: s) ltac:(discriminate)) as [m [z E]].
  rewrite E, last_last. apply in_or_app. right. now left.
Qed.

Lemma mask_part_In (s : pystr) (x : char) :
  In x (mask_part s) -> x = c_star \/ In x s.
Proof.
  destruct s as [|a [|b [|c s]]].
  - intros [].
  - intros [<- | [<- | []]]; [right; now left | now left].
  - intros [<- | [<- | []]]; [right; now left | now left].
  - change (mask_part (a :: b :: c :: s))
      with (a :: times c_star (length (a :: b :: c :: s) - 2)
              ++ [last (b :: c :: s) a]).
    intros [<- | H]; [right; now left|].
    apply in_app_or in H. destruct H as [H | [<- | []]].
    + left. unfold times in H. now apply repeat_spec in H.
    + right. right. apply last_In.
Qed.

Lemma mask_part_chars (P : char -> Prop) (s : pystr) :
  P c_star -> Forall P s -> Forall P (mask_part s).
Proof.
  intros Hs H. apply Forall_forall. intros x Hx.
  destruct (mask_part_In _ _ Hx) as [-> | I]; [exact Hs|].
  rewrite Forall_forall in H. auto.
Qed.

Lemma search_from_sound (r : list item) (s skipped : pystr) before gs rest :
  search_from r skipped s = Some (before, gs, rest) ->
  exists s', re_match false r s' = Some (gs, rest)
             /\ rev skipped ++ s = before ++ s'.
Proof.
  revert skipped. induction s as [|c s IH]; intros skipped; simpl.
  - destruct (re_match false r []) as [[gs' rest']|] eqn:E; [|discriminate].
    intros H. inversion H; subst. exists []. auto.
  - destruct (re_match false r (c :: s)) as [[gs' rest']|] eqn:E.
    + intros H. inversion H; subst. exists (c :: s). auto.
    + intros H. destruct (IH _ H) as [s' [M Es]]. exists s'. split; [exact M|].
      rewrite <- Es. simpl. rewrite <- app_assoc. reflexivity.
Qed.











Lemma url_nonspace (v : pystr) : Matches _URL_RE v -> Forall nonspace v.
Proof.
  apply Matches_chars. unfold nonspace.
  assert (L : forall x c, chr_eqb x c = true -> isspace x = false -> isspace c = false).
  { intros x c H. apply chr_eqb_eq in H. now subst. }
  repeat constructor; simpl; intros c Hc;
    try (eapply L; [exact Hc | reflexivity]).
  unfold not_space in Hc. now apply negb_true_iff in Hc.
Qed.

Section CleanEnds.

Context {F : PyFloat}.








(** *** Lines of an env block *)









End CleanEnds.

Section TrimmedValues.

Context {F : PyFloat}.




Lemma split_first_at (c : char) (key value : pystr) :
  ~ In c key -> split_first c (key ++ c :: value) = (key, value).
Proof.
  induction key as [|x key IH]; intros H; simpl.
  - now rewrite chr_eqb_refl.
  - rewrite (chr_eqb_false (a := x) (b := c)) by (intros ->; apply H; now left).
    rewrite IH; [reflexivity|]. intros I. apply H. now right.
Qed.






End TrimmedValues.

Definition env_spaced_example : pystr :=
  str " B =  bob@x.com " ++ [c_lf] ++ str "# note".


Example env_spaced_example_output :
  sanitize_value (F := literal_floats) env_spaced_example (Some Env)
  = Returns (Env, str " B =b*b@x*.c*m" ++ [c_lf] ++ str "# note").
Proof. vm_compute. reflexivity. Qed.

(** * Further properties of the code *)

(** ** Escaping is a code: one character, one word *)

(** A map from characters to words reads back uniquely when no word is
    empty and two words that start the same text come from the same
    character. *)
Definition uniquely_read (f : char -> pystr) : Prop :=
  (forall x, f x <> [])
  /\ (forall x y p q, f x ++ p = f y ++ q -> x = y).

Lemma flat_map_injective (f : char -> pystr) :
  uniquely_read f ->
  forall a b, flat_map f a = flat_map f b -> a = b.
Proof.
  intros [Hne Hpre]. induction a as [|x a IH]; intros [|y b] H; simpl in H.
  - reflexivity.
  - symmetry in H. apply app_eq_nil in H. destruct H as [H _]. now apply Hne in H.
  - apply app_eq_nil in H. destruct H as [H _]. now apply Hne in H.
  - pose proof (Hpre _ _ _ _ H) as E. subst y.
    apply app_inv_head in H. f_equal. now apply IH.
Qed.

Lemma html_char_uniquely_read : uniquely_read html_char.
Proof.
  split.
  - intros x. pose proof (html_char_length x) as L. intros E. rewrite E in L.
    simpl in L. lia.
  - intros x y p q. unfold html_char.
    case_chr x c_amp; case_chr y c_amp; try reflexivity;
    try (case_chr y c_lt); try (case_chr x c_lt); try reflexivity;
    try (case_chr y c_gt); try (case_chr x c_gt); try reflexivity;
    try (case_chr y c_dquote); try (case_chr x c_dquote); try reflexivity;
    try (case_chr y c_squote); try (case_chr x c_squote); try reflexivity;
    intros H; inversion H; subst;
    try discriminate;
    try (rewrite chr_eqb_refl in *; discriminate);
    reflexivity.
Qed.

Definition sql_char (x : char) : pystr :=
  if chr_eqb x c_squote then [c_squote; c_squote] else [x].

Lemma escape_sql_chars (s : pystr) : escape_sql s = flat_map sql_char s.
Proof. reflexivity. Qed.

Lemma sql_char_uniquely_read : uniquely_read sql_char.
Proof.
  split.
  - intros x. unfold sql_char. destruct (chr_eqb x c_squote); discriminate.
  - intros x y p q. unfold sql_char.
    case_chr x c_squote; case_chr y c_squote; try reflexivity;
      intros H; inversion H; subst; try reflexivity;
      rewrite chr_eqb_refl in *; discriminate.
Qed.

(** X1. [html_escape] loses nothing: two strings with the same escaped form are
    the same string. *)
Theorem html_escape_injective (a b : pystr) :
  html_escape a = html_escape b -> a = b.
Proof.
  rewrite !html_escape_chars.
  apply flat_map_injective, html_char_uniquely_read.
Qed.

Lemma html_escape_injective_witness : str "a<b" = str "a<b".
Proof. apply html_escape_injective. reflexivity. Defined.

(** X2. The Text rule, SQL escaping then HTML escaping, loses nothing either. *)
Theorem text_rule_injective (a b : pystr) :
  html_escape (escape_sql a) = html_escape (escape_sql b) -> a = b.
Proof.
  rewrite !html_escape_chars, !escape_sql_chars. intros H.
  apply (flat_map_injective html_char_uniquely_read) in H.
  revert H. apply flat_map_injective, sql_char_uniquely_read.
Qed.

Lemma text_rule_injective_witness : str "it's <b>" = str "it's <b>".
Proof. apply text_rule_injective. reflexivity. Defined.

(** ** What [html_escape] never writes *)

Definition html_unsafe (c : char) : bool :=
  (chr_eqb c c_lt || chr_eqb c c_gt || chr_eqb c c_dquote
   || chr_eqb c c_squote)%bool.

Lemma html_char_safe (x : char) : existsb html_unsafe (html_char x) = false.
Proof.
  unfold html_char.
  case_chr x c_amp; [reflexivity|].
  case_chr x c_lt; [reflexivity|].
  case_chr x c_gt; [reflexivity|].
  case_chr x c_dquote; [reflexivity|].
  case_chr x c_squote; [reflexivity|].
  cbn [existsb]. unfold html_unsafe. now rewrite E0, E1, E2, E3.
Qed.

Lemma existsb_flat_map (p : char -> bool) (f : char -> pystr) (s : pystr) :
  (forall x, existsb p (f x) = false) -> existsb p (flat_map f s) = false.
Proof.
  intros H. induction s as [|x s IH]; [reflexivity|].
  cbn [flat_map]. rewrite existsb_app, H, IH. reflexivity.
Qed.

Lemma html_escape_no_unsafe (s : pystr) :
  contains c_lt (html_escape s) = false
  /\ contains c_gt (html_escape s) = false
  /\ contains c_dquote (html_escape s) = false
  /\ contains c_squote (html_escape s) = false.
Proof.
  assert (H : existsb html_unsafe (html_escape s) = false).
  { rewrite html_escape_chars. apply existsb_flat_map, html_char_safe. }
  assert (G : forall c, html_unsafe c = true -> contains c (html_escape s) = false).
  { intros c Hc. destruct (contains c (html_escape s)) eqn:E; [|reflexivity].
    apply contains_In in E. rewrite <- H. symmetry. apply existsb_exists.
    exists c. auto. }
  repeat split; apply G; reflexivity.
Qed.

(** X3. The output of [html_escape] holds no [<], no [>] and no quote of either
    kind, whatever the input. *)
Theorem html_escape_output_safe (s : pystr) :
  contains c_lt (html_escape s) = false
  /\ contains c_gt (html_escape s) = false
  /\ contains c_dquote (html_escape s) = false
  /\ contains c_squote (html_escape s) = false.
Proof. apply html_escape_no_unsafe. Qed.

(** X4. [html_escape] returns its argument unchanged exactly when the argument
    holds none of the five characters it replaces. *)
Theorem html_escape_fixed_points (s : pystr) :
  html_escape s = s <-> existsb html_special s = false.
Proof.
  split.
  - intros E. destruct (existsb html_special s) eqn:X; [|reflexivity].
    apply html_escape_grows in X. rewrite E in X. lia.
  - intros X. rewrite html_escape_chars.
    induction s as [|x s IH]; [reflexivity|].
    cbn [existsb] in X. apply orb_false_iff in X. destruct X as [Hx Hs].
    cbn [flat_map]. rewrite (html_char_plain x Hx), (IH Hs). reflexivity.
Qed.

(** ** When [mask_phone] raises, and what it lets through *)

Lemma filter_app_length (p : char -> bool) (a b : pystr) :
  length (filter p (a ++ b)) = length (filter p a) + length (filter p b).
Proof. now rewrite filter_app, length_app. Qed.

Lemma phone_layout_outcome (v : pystr) :
  forall it,
    if length it <? length (filter isdigit v)
    then phone_layout v it = Raises StopIteration
    else exists out, phone_layout v it = Returns out.
Proof.
  induction v as [|c v IH]; intros it; cbn [phone_layout filter].
  - cbn [length]. destruct (length it <? 0) eqn:X;
      [apply Nat.ltb_lt in X; lia | now exists []].
  - destruct (isdigit c) eqn:D.
    + destruct it as [|d it]; [reflexivity|]. cbn [length].
      specialize (IH it).
      change (S (length it) <? S (length (filter isdigit v)))
        with (length it <? length (filter isdigit v)).
      destruct (length it <? length (filter isdigit v)).
      * now rewrite IH.
      * destruct IH as [out ->]. now exists (d :: out).
    + specialize (IH it). destruct (length it <? length (filter isdigit v)).
      * now rewrite IH.
      * destruct IH as [out ->]. now exists (c :: out).
Qed.

Lemma masked_digits_length (digits : pystr) :
  2 <= length digits ->
  length (times c_star (length digits - 2) ++ skipn (length digits - 2) digits)
  = length digits.
Proof.
  intros H. unfold times. rewrite length_app, repeat_length, length_skipn. lia.
Qed.

(** X5. [mask_phone] raises exactly when the input holds at least four decimal
    digits and some further character that [str.isdigit] accepts; the
    exception is then [StopIteration]. *)
Theorem mask_phone_raises_iff (v : pystr) (e : exn) :
  mask_phone v = Raises e
  <-> e = StopIteration
      /\ 4 <= length (filter isdecimal v)
      /\ length (filter isdecimal v) < length (filter isdigit v).
Proof.
  unfold mask_phone.
  destruct (length (filter isdecimal v) <? 4) eqn:E.
  - apply Nat.ltb_lt in E. split; [discriminate | lia].
  - apply Nat.ltb_ge in E.
    pose proof (phone_layout_outcome v
                  (times c_star (length (filter isdecimal v) - 2)
                   ++ skipn (length (filter isdecimal v) - 2) (filter isdecimal v))) as H.
    rewrite masked_digits_length in H by lia.
    destruct (_ <? _) eqn:L in H.
    + apply Nat.ltb_lt in L. rewrite H. split.
      * intros X. inversion X. auto.
      * intros [-> _]. reflexivity.
    + apply Nat.ltb_ge in L. destruct H as [out ->]. split; [discriminate | lia].
Qed.

Lemma phone_layout_decimals (v : pystr) :
  forall it out, phone_layout v it = Returns out ->
  length (filter isdecimal out) <= length (filter isdecimal it).
Proof.
  induction v as [|c v IH]; intros it out H; cbn [phone_layout] in H.
  - inversion H. cbn. lia.
  - destruct (isdigit c) eqn:D.
    + destruct it as [|d it]; [discriminate|].
      destruct (phone_layout v it) as [o|] eqn:E; [|discriminate].
      inversion H; subst. specialize (IH _ _ E). cbn [filter].
      destruct (isdecimal d); cbn [length]; lia.
    + destruct (phone_layout v it) as [o|] eqn:E; [|discriminate].
      inversion H; subst. specialize (IH _ _ E). cbn [filter].
      destruct (isdecimal c) eqn:X; [apply decimal_digit in X; congruence|].
      exact IH.
Qed.

Lemma stars_not_decimal (n : nat) : filter isdecimal (times c_star n) = [].
Proof. induction n as [|n IH]; [reflexivity|]. cbn. exact IH. Qed.

(** X6. Whatever [mask_phone] returns shows at most two decimal digits. *)
Theorem mask_phone_shows_two_digits (v out : pystr) :
  mask_phone v = Returns out -> length (filter isdecimal out) <= 2.
Proof.
  unfold mask_phone. destruct (_ <? 4) eqn:E.
  - intros H. inversion H. rewrite stars_not_decimal. cbn. lia.
  - intros H. apply phone_layout_decimals in H.
    rewrite filter_app, stars_not_decimal in H. cbn [app] in H.
    pose proof (filter_length_le isdecimal
                  (skipn (length (filter isdecimal v) - 2) (filter isdecimal v))) as L.
    rewrite length_skipn in L. apply Nat.ltb_ge in E. lia.
Qed.

Lemma mask_phone_shows_two_digits_witness :
  length (filter isdecimal (str "+* (***) ***-**67")) <= 2.
Proof.
  apply (@mask_phone_shows_two_digits (str "+1 (555) 123-4567")). reflexivity.
Defined.

(** ** What [sanitize_value] returns, and when it raises *)

Section Outcomes.

Context {F : PyFloat}.







(** X9. A text that comes back with kind Text holds no [<], no [>] and no
    quote, whichever way it got that kind. *)
Theorem text_output_html_safe (v : pystr) (kind : option Kind) (out : pystr) :
  sanitize_value v kind = Returns (Text, out) ->
  contains c_lt out = false /\ contains c_gt out = false
  /\ contains c_dquote out = false /\ contains c_squote out = false.
Proof.
  rewrite sanitize_value_eq.
  destruct (match kind with Some k => k | None => detect_type v end);
    try discriminate.
  - destruct (mask_phone v); discriminate.
  - destruct (json_loads v) as [obj|].
    + destruct (recurse sanitized obj); [discriminate|].
      intros H. inversion H. apply html_escape_no_unsafe.
    + intros H. inversion H. apply html_escape_no_unsafe.
  - destruct (env_lines _ _); discriminate.
  - intros H. inversion H. apply html_escape_no_unsafe.
Qed.

End Outcomes.


Lemma text_output_html_safe_witness :
  contains c_lt (str "&lt;b&gt;it&#x27;&#x27;s") = false
  /\ contains c_gt (str "&lt;b&gt;it&#x27;&#x27;s") = false
  /\ contains c_dquote (str "&lt;b&gt;it&#x27;&#x27;s") = false
  /\ contains c_squote (str "&lt;b&gt;it&#x27;&#x27;s") = false.
Proof.
  apply (@text_output_html_safe literal_floats (str "<b>it's") None).
  reflexivity.
Defined.

(** ** Detection: whitespace around, blank input, URLs with an equals sign *)

Lemma strip_outer_space (a s b : pystr) :
  Forall (fun c => isspace c = true) a ->
  Forall (fun c => isspace c = true) b ->
  strip (a ++ s ++ b) = strip s.
Proof.
  intros Ha Hb. destruct (strip_split s) as [a' [b' [E [Ha' Hb']]]].
  rewrite E at 1.
  replace (a ++ (a' ++ strip s ++ b') ++ b)
    with ((a ++ a') ++ strip s ++ (b' ++ b))
    by (rewrite <- !app_assoc; reflexivity).
  apply strip_unique; [| | apply strip_ends]; apply Forall_app; split; assumption.
Qed.

Lemma In_strip (c : char) (s : pystr) :
  isspace c = false -> In c s -> In c (strip s).
Proof.
  intros Hc H. destruct (strip_split s) as [a [b [E [Ha Hb]]]].
  rewrite E in H. rewrite Forall_forall in Ha, Hb.
  apply in_app_or in H. destruct H as [H | H]; [apply Ha in H; congruence|].
  apply in_app_or in H. destruct H as [H | H]; [exact H | apply Hb in H; congruence].
Qed.

Lemma splitlines_from_one_line (m : pystr) :
  Forall (fun c => islinebreak c = false) m ->
  forall cur, cur <> [] \/ m <> [] ->
  splitlines_from cur false m = [rev cur ++ m].
Proof.
  induction 1 as [|c m Hc _ IH]; intros cur Hne; cbn [splitlines_from].
  - destruct cur as [|x cur]; [destruct Hne as [N | N]; congruence|].
    now rewrite app_nil_r.
  - cbn [andb]. rewrite Hc.
    destruct m as [|d m].
    + cbn [splitlines_from]. cbn [rev]. reflexivity.
    + rewrite IH by (right; discriminate). cbn [rev].
      rewrite <- app_assoc. reflexivity.
Qed.

(** A text without a line boundary is its own single line. *)
Lemma splitlines_one_line (m : pystr) :
  Forall (fun c => islinebreak c = false) m -> m <> [] -> splitlines m = [m].
Proof.
  intros H N. unfold splitlines. rewrite splitlines_from_one_line; auto.
Qed.

Lemma nonspace_no_linebreak (m : pystr) :
  Forall nonspace m -> Forall (fun c => islinebreak c = false) m.
Proof.
  apply Forall_impl. intros c H. destruct (islinebreak c) eqn:E; [|reflexivity].
  apply linebreak_space in E. unfold nonspace in H. congruence.
Qed.


Section DetectionFacts.

Context {F : PyFloat}.

(** X10. Whitespace before and after a text never changes the kind detected. *)
Theorem detect_type_outer_space (a s b : pystr) :
  Forall (fun c => isspace c = true) a ->
  Forall (fun c => isspace c = true) b ->
  detect_type (a ++ s ++ b) = detect_type s.
Proof.
  intros Ha Hb. rewrite !detect_type_cascade, (strip_outer_space s Ha Hb).
  reflexivity.
Qed.

(** X11. A blank text, empty or all whitespace, is Text and comes back as it
    is. *)
Theorem blank_is_text_unchanged (s : pystr) :
  Forall (fun c => isspace c = true) s ->
  detect_type s = Text /\ sanitize_value s None = Returns (Text, s).
Proof.
  intros H.
  assert (P : existsb html_special s = false).
  { induction H as [|c s Hc _ IH]; [reflexivity|].
    cbn [existsb]. now rewrite (space_not_special _ Hc), IH. }
  assert (D : detect_type s = Text).
  { rewrite detect_type_cascade. apply strip_nil in H. rewrite H. reflexivity. }
  split; [exact D|].
  rewrite sanitize_value_eq, D, text_rule_chars, text_chars_plain; [reflexivity|].
  exact P.
Qed.

Lemma url_one_line (v : pystr) :
  fullmatch _URL_RE v = true ->
  splitlines v = [v] /\ strip v = v /\ exists t, v = 104%N :: t.
Proof.
  intros M. apply fullmatch_Matches in M.
  pose proof (url_nonspace M) as NS.
  apply url_shape in M. destruct M as [sopt [rest [E _]]].
  assert (H : exists t, v = 104%N :: t) by (rewrite E; eexists; reflexivity).
  destruct H as [t Ht]. repeat split.
  - apply splitlines_one_line; [apply nonspace_no_linebreak, NS | now rewrite Ht].
  - apply strip_fixed, nonspace_ends, NS.
  - now exists t.
Qed.

Lemma url_equals_detected_env (s : pystr) :
  fullmatch _URL_RE (strip s) = true ->
  contains c_eq s = true ->
  detect_type s = Env.
Proof.
  intros M E. rewrite detect_type_cascade.
  destruct (url_one_line _ M) as [L [S [t Ht]]].
  assert (J : json_ok (strip s) = false).
  { unfold json_ok. rewrite Ht. reflexivity. }
  assert (V : env_ok (strip s) = true).
  { unfold env_ok.
    assert (C : contains c_eq (strip s) = true).
    { apply contains_In. apply In_strip; [reflexivity|]. now apply contains_In. }
    rewrite C, L. unfold env_candidate. cbn [filter]. rewrite S, Ht.
    cbn [startswith negb]. rewrite <- Ht.
    change (chr_eqb 104%N c_hash) with false. cbn [negb filter forallb].
    rewrite C. reflexivity. }
  now rewrite J, V.
Qed.

(** X12. A URL that holds an equals sign, as in a query [?key=value], is never
    detected as a URL: the Env rule comes first and takes it. *)
Theorem url_with_equals_is_env (s : pystr) :
  fullmatch _URL_RE (strip s) = true ->
  contains c_eq s = true ->
  detect_type s = Env.
Proof. apply url_equals_detected_env. Qed.


End DetectionFacts.

Definition url_example : pystr := str "https://example.com/path?token=abc".

Lemma detect_type_outer_space_witness :
  detect_type (F := literal_floats) ([c_space] ++ str "a@b.cd" ++ [c_lf])
  = detect_type (F := literal_floats) (str "a@b.cd").
Proof. apply detect_type_outer_space; repeat constructor. Defined.

Lemma blank_is_text_unchanged_witness :
  detect_type (F := literal_floats) [c_space; c_lf] = Text
  /\ sanitize_value (F := literal_floats) [c_space; c_lf] None
     = Returns (Text, [c_space; c_lf]).
Proof. apply blank_is_text_unchanged. repeat constructor. Defined.

Lemma url_with_equals_is_env_witness :
  detect_type (F := literal_floats) url_example = Env.
Proof. apply url_with_equals_is_env; reflexivity. Defined.


(** The URL comes back whole, its token included. *)
Example url_example_output :
  sanitize_value (F := literal_floats) url_example None
  = Returns (Env, url_example).
Proof. reflexivity. Qed.

(** ** Where [search] finds its match *)

(** The text left by a greedy run of [P] does not start with a [P]. *)
Definition stops (P : char -> bool) (rest : pystr) : Prop :=
  match rest with
  | [] => True
  | c :: _ => P c = false
  end.

Lemma skipn_run_stops (P : char -> bool) (s : pystr) :
  stops P (skipn (run_length P s) s).
Proof.
  induction s as [|c s IH]; [exact I|]. cbn [run_length].
  destruct (P c) eqn:E; [exact IH | exact E].
Qed.

(** A pattern that ends with an unbounded item leaves nothing that item
    could still take. *)
Lemma re_match_last_greedy (P : char -> bool) (n : nat) (r : list item) :
  forall s gs rest,
    re_match false (r ++ [at_least n P]) s = Some (gs, rest) -> stops P rest.
Proof.
  induction r as [|it r IH]; intros s gs rest H.
  - cbn [app re_match] in H. rewrite take_down_eq in H.
    destruct (_ <? _); [discriminate|]. cbn [re_match] in H.
    inversion H; subst. apply skipn_run_stops.
  - cbn [app re_match] in H.
    destruct (take_down_some _ _ _ _ H) as [m [gs' [rest' [E [_ K]]]]].
    inversion E; subst. exact (IH _ _ _ K).
Qed.

Lemma search_from_skip (r : list item) (a s skipped : pystr) :
  (forall a1 a2, a = a1 ++ a2 -> a2 <> [] -> re_match false r (a2 ++ s) = None) ->
  search_from r skipped (a ++ s) = search_from r (rev a ++ skipped) s.
Proof.
  revert skipped. induction a as [|c a IH]; intros skipped H; [reflexivity|].
  cbn [app search_from].
  pose proof (H [] (c :: a) eq_refl ltac:(discriminate)) as X.
  cbn [app] in X. rewrite X. rewrite IH.
  - cbn [rev]. now rewrite <- app_assoc.
  - intros a1 a2 E N. apply (H (c :: a1) a2); [now rewrite E | exact N].
Qed.

(** Two maximal runs of [P] from the same place are the same run. *)
Lemma run_unique (P : char -> bool) (d w b rest : pystr) :
  Forall (fun c => P c = true) d -> Forall (fun c => P c = true) w ->
  stops P b -> stops P rest ->
  d ++ b = w ++ rest -> d = w /\ b = rest.
Proof.
  intros Hd. revert w. induction Hd as [|c d Hc _ IH]; intros w Hw Hb Hr E.
  - destruct Hw as [|x w Hx _]; [auto|].
    cbn [app] in E. subst b. cbn [stops] in Hb. congruence.
  - destruct Hw as [|x w Hx Hw].
    + cbn [app] in E. subst rest. cbn [stops] in Hr. congruence.
    + cbn [app] in E. inversion E; subst.
      destruct (IH w Hw Hb Hr H1) as [-> ->]. auto.
Qed.

Lemma before_first (c : char) (l l' t t' : pystr) :
  ~ In c l -> ~ In c l' -> l ++ c :: t = l' ++ c :: t' -> l = l' /\ t = t'.
Proof.
  intros H H' E.
  pose proof (split_first_at c l t H) as A.
  pose proof (split_first_at c l' t' H') as B.
  rewrite E in A. rewrite A in B. inversion B. auto.
Qed.

Lemma not_at_space_not_at (p : pystr) :
  Forall (fun c => not_at_space c = true) p -> ~ In c_at p.
Proof.
  intros H I. rewrite Forall_forall in H. apply H in I. discriminate I.
Qed.

(** The pieces of a match of [_EMAIL_RE]. *)
Lemma email_pieces (gs : list pystr) :
  Forall2 piece_ok _EMAIL_RE gs ->
  exists l x y, gs = [l; [c_at]; x; [c_dot]; y]
                /\ all_in not_at_space l /\ all_in not_at_space x
                /\ all_in not_at_space y.
Proof.
  unfold _EMAIL_RE. intros H.
  inversion H as [|? l ? ? P1 H1]; subst. inversion H1 as [|? a ? ? P2 H2]; subst.
  inversion H2 as [|? d1 ? ? P3 H3]; subst. inversion H3 as [|? d ? ? P4 H4]; subst.
  inversion H4 as [|? d3 ? ? P5 H5]; subst. inversion H5; subst.
  apply piece_lit in P2, P4. subst. apply piece_plus in P1, P3, P5.
  exists l, d1, d3. auto.
Qed.

Definition masked (l d : pystr) : pystr :=
  mask_part l ++ [c_at] ++ join [c_dot] (map mask_part (split_on c_dot d)).

(** [a] holds no [@] and ends, if anywhere, on whitespace: no address can
    start inside it. *)
Definition no_address_before (a : pystr) : Prop :=
  ~ In c_at a
  /\ match rev a with [] => True | c :: _ => isspace c = true end.

Lemma email_not_in_prefix (a l t : pystr) :
  no_address_before a ->
  Forall (fun c => not_at_space c = true) l ->
  forall a1 a2, a = a1 ++ a2 -> a2 <> [] ->
  re_match false _EMAIL_RE (a2 ++ l ++ c_at :: t) = None.
Proof.
  intros [Hat Hsp] Hl a1 a2 E N.
  destruct (re_match false _EMAIL_RE (a2 ++ l ++ c_at :: t)) as [[gs rest]|] eqn:M;
    [|reflexivity].
  exfalso. apply re_match_sound in M. destruct M as [HF [Es _]].
  destruct (email_pieces HF) as [l' [x [y [-> [[Hl' _] _]]]]].
  cbn [concat] in Es. rewrite <- !app_assoc in Es. cbn [app] in Es.
  rewrite app_assoc in Es.
  apply before_first in Es.
  - destruct Es as [El _].
    destruct (@exists_last _ a2 N) as [a2' [z Ez]]. subst a2.
    assert (Z : isspace z = true).
    { rewrite E, app_assoc, rev_unit in Hsp. exact Hsp. }
    assert (I : In z l') by (rewrite <- El; apply in_or_app; left; apply in_or_app; right; now left).
    rewrite Forall_forall in Hl'. apply Hl' in I.
    unfold not_at_space in I. rewrite Z, orb_true_r in I. discriminate I.
  - intros I. apply in_app_or in I. destruct I as [I | I].
    + apply Hat. rewrite E. apply in_or_app. now right.
    + exact (not_at_space_not_at Hl I).
  - exact (not_at_space_not_at Hl').
Qed.

(** What [mask_email] makes of a text that holds an address [l@d], with
    nothing before it that could start one and nothing after it that could
    continue it. *)
Lemma mask_email_found (a l d1 d3 b : pystr) :
  no_address_before a ->
  all_in not_at_space l -> all_in not_at_space d1 -> all_in not_at_space d3 ->
  stops not_at_space b ->
  mask_email (a ++ (l ++ c_at :: d1 ++ c_dot :: d3) ++ b)
  = masked l (d1 ++ c_dot :: d3).
Proof.
  intros Ha Hl H1 H3 Hb. unfold mask_email, search.
  rewrite <- !app_assoc. cbn [app]. rewrite <- !app_assoc. cbn [app].
  rewrite search_from_skip by (apply email_not_in_prefix; [exact Ha | apply Hl]).
  set (e := l ++ c_at :: d1 ++ c_dot :: d3 ++ b).
  assert (C : re_match false _EMAIL_RE e <> None).
  { pose proof (@re_match_complete false _EMAIL_RE
                  [l; [c_at]; d1; [c_dot]; d3] b) as X.
    cbn [concat] in X. rewrite <- !app_assoc in X. cbn [app] in X.
    rewrite ?app_nil_r in X. apply X; [|discriminate].
    repeat (apply Forall2_cons;
              [first [now apply piece_lit | now apply piece_plus]|]).
    constructor. }
  assert (S : exists gs rest, search_from _EMAIL_RE (rev a ++ []) e = Some (rev (rev a ++ []), gs, rest)
                              /\ re_match false _EMAIL_RE e = Some (gs, rest)).
  { destruct (re_match false _EMAIL_RE e) as [[gs rest]|] eqn:M; [|contradiction].
    exists gs, rest. split; [|reflexivity].
    destruct e; cbn [search_from]; rewrite M; reflexivity. }
  destruct S as [gs [rest [-> M]]].
  pose proof (@re_match_last_greedy not_at_space 1
                [at_least 1 not_at_space; lit c_at; at_least 1 not_at_space; lit c_dot]
                e gs rest M) as G.
  apply re_match_sound in M. destruct M as [HF [Es _]].
  destruct (email_pieces HF) as [l' [x [y [-> [[Hl' _] [[Hx _] [Hy _]]]]]]].
  cbn [concat] in Es. rewrite <- !app_assoc in Es. cbn [app] in Es.
  unfold e in Es. apply before_first in Es;
    [| exact (not_at_space_not_at (proj1 Hl)) | exact (not_at_space_not_at Hl')].
  destruct Es as [<- Ed].
  assert (R : d1 ++ c_dot :: d3 = x ++ c_dot :: y /\ b = rest).
  { apply (@run_unique not_at_space); try assumption.
    - apply Forall_app. split; [apply H1|]. constructor; [reflexivity | apply H3].
    - apply Forall_app. split; [exact Hx|]. constructor; [reflexivity | exact Hy].
    - rewrite <- !app_assoc. cbn [app]. exact Ed. }
  destruct R as [R _]. unfold masked. rewrite R. cbn [app]. reflexivity.
Qed.

(** ** [mask_email]: no address, text around an address, masking twice *)

(** X14. A text without [@] is returned as it is. *)
Theorem mask_email_without_at (v : pystr) :
  contains c_at v = false -> mask_email v = v.
Proof.
  intros H. unfold mask_email, search.
  destruct (search_from _EMAIL_RE [] v) as [[[before gs] rest]|] eqn:S; [|reflexivity].
  exfalso. destruct (search_from_sound _ _ _ S) as [s' [M E]].
  apply re_match_sound in M. destruct M as [HF [Es _]].
  destruct (email_pieces HF) as [l [x [y [-> _]]]].
  assert (I : In c_at v).
  { cbn [rev app] in E. rewrite E, Es. cbn [concat].
    apply in_or_app. right. apply in_or_app. left.
    apply in_or_app. right. now left. }
  apply contains_In in I. congruence.
Qed.

Lemma mask_email_without_at_witness :
  mask_email (str "no address here") = str "no address here".
Proof. apply mask_email_without_at. reflexivity. Defined.

(** X15. Only the first address of a text survives [mask_email]: what stands
    before it and after it is dropped. *)
Theorem mask_email_drops_surroundings (a e b : pystr) :
  no_address_before a ->
  fullmatch _EMAIL_RE e = true ->
  stops not_at_space b ->
  mask_email (a ++ e ++ b) = mask_email e.
Proof.
  intros Ha M Hb. apply fullmatch_Matches, email_shape in M.
  destruct M as [l [d1 [d3 [-> [Hl [H1 H3]]]]]].
  rewrite mask_email_found by assumption.
  pose proof (@mask_email_found [] l d1 d3 []) as X.
  cbn [app] in X. rewrite app_nil_r in X. rewrite X; try assumption; try exact I.
  - reflexivity.
  - split; [intros [] | exact I].
Qed.

Lemma mask_email_drops_surroundings_witness :
  mask_email (str "write to " ++ str "alice@example.com" ++ str " today")
  = mask_email (str "alice@example.com").
Proof.
  apply mask_email_drops_surroundings.
  - split; [|reflexivity]. intros H. apply contains_In in H. discriminate H.
  - reflexivity.
  - reflexivity.
Defined.

Lemma mask_part_long (a b : char) (t : pystr) :
  t <> [] ->
  mask_part (a :: b :: t) = a :: times c_star (length t) ++ [last t a].
Proof. destruct t as [|c t]; [congruence|]. intros _. reflexivity. Qed.

Lemma mask_part_idempotent (s : pystr) : mask_part (mask_part s) = mask_part s.
Proof.
  destruct s as [|a [|b [|c s]]]; try reflexivity.
  rewrite mask_part_long by discriminate.
  set (z := last (c :: s) a). cbn [length times repeat app].
  rewrite mask_part_long.
  - unfold times. rewrite length_app, repeat_length, last_last.
    cbn [length]. rewrite Nat.add_1_r. reflexivity.
  - intros E. apply app_eq_nil in E. destruct E; discriminate.
Qed.

Lemma mask_part_nonempty (s : pystr) : s <> [] -> mask_part s <> [].
Proof. destruct s as [|a [|b [|c s]]]; [congruence | discriminate ..]. Qed.

Lemma split_on_nonempty (c : char) (s : pystr) : split_on c s <> [].
Proof.
  destruct s as [|x s]; cbn [split_on]; [discriminate|].
  destruct (chr_eqb x c); [discriminate|]. destruct (split_on c s); discriminate.
Qed.

Lemma join_split (c : char) (s : pystr) : join [c] (split_on c s) = s.
Proof.
  induction s as [|x s IH]; [reflexivity|]. cbn [split_on].
  pose proof (split_on_nonempty c s) as N.
  case_chr x c.
  - destruct (split_on c s) as [|p ps]; [contradiction|].
    rewrite join_cons2. cbn [app]. now rewrite IH.
  - destruct (split_on c s) as [|p [|q ps]]; [contradiction| |].
    + cbn [join] in *. now rewrite IH.
    + rewrite join_cons2. rewrite join_cons2 in IH. cbn [app] in *.
      f_equal. exact IH.
Qed.

Lemma split_on_app (c : char) (a b : pystr) :
  split_on c (a ++ c :: b) = split_on c a ++ split_on c b.
Proof.
  induction a as [|x a IH]; cbn [app split_on].
  - now rewrite chr_eqb_refl.
  - destruct (chr_eqb x c); [now rewrite IH|].
    rewrite IH. pose proof (split_on_nonempty c a) as N.
    destruct (split_on c a); [contradiction | reflexivity].
Qed.

Lemma split_on_absent (c : char) (p : pystr) : ~ In c p -> split_on c p = [p].
Proof.
  induction p as [|x p IH]; intros H; [reflexivity|]. cbn [split_on].
  rewrite (chr_eqb_false (a := x) (b := c)) by (intros ->; apply H; now left).
  rewrite IH; [reflexivity|]. intros I. apply H. now right.
Qed.

Lemma split_join (c : char) (parts : list pystr) :
  parts <> [] -> Forall (fun p => ~ In c p) parts ->
  split_on c (join [c] parts) = parts.
Proof.
  intros N H. induction H as [|p parts Hp _ IH]; [contradiction|].
  destruct parts as [|q parts].
  - cbn [join]. now apply split_on_absent.
  - rewrite join_cons2. specialize (IH ltac:(discriminate)).
    change (p ++ [c] ++ join [c] (q :: parts))
      with (p ++ c :: join [c] (q :: parts)).
    rewrite split_on_app, (@split_on_absent c p Hp). cbn [app]. f_equal. exact IH.
Qed.

Lemma split_on_parts (c : char) (s : pystr) :
  Forall (fun p => ~ In c p) (split_on c s).
Proof.
  induction s as [|x s IH]; cbn [split_on]; [repeat constructor; intros []|].
  case_chr x c; [constructor; [intros [] | exact IH]|].
  destruct (split_on c s) as [|p ps]; [repeat constructor; intros [H | []]; subst;
                                        now rewrite chr_eqb_refl in E|].
  inversion IH; subst. constructor; [|assumption].
  intros [H | H]; [subst; now rewrite chr_eqb_refl in E | contradiction].
Qed.

Lemma mask_part_no_dot (p : pystr) : ~ In c_dot p -> ~ In c_dot (mask_part p).
Proof.
  intros H I. apply mask_part_In in I. destruct I as [I | I]; [discriminate I | contradiction].
Qed.

Lemma masked_labels_split (d : pystr) :
  split_on c_dot (join [c_dot] (map mask_part (split_on c_dot d)))
  = map mask_part (split_on c_dot d).
Proof.
  apply split_join.
  - pose proof (split_on_nonempty c_dot d). destruct (split_on c_dot d); [contradiction | discriminate].
  - apply Forall_forall. intros p Hp. apply in_map_iff in Hp.
    destruct Hp as [q [<- Hq]]. apply mask_part_no_dot.
    pose proof (split_on_parts c_dot d) as S. rewrite Forall_forall in S. auto.
Qed.

Lemma join_app (sep : pystr) (A B : list pystr) :
  A <> [] -> B <> [] -> join sep (A ++ B) = join sep A ++ sep ++ join sep B.
Proof.
  intros NA NB. induction A as [|p A IH]; [contradiction|].
  destruct A as [|q A].
  - cbn [app]. destruct B; [contradiction | reflexivity].
  - change ((p :: q :: A) ++ B) with (p :: q :: (A ++ B)).
    rewrite !join_cons2. change (q :: A ++ B) with ((q :: A) ++ B).
    rewrite IH by discriminate. now rewrite <- !app_assoc.
Qed.

Lemma masked_labels_all_in (d : pystr) :
  all_in not_at_space d ->
  all_in not_at_space (join [c_dot] (map mask_part (split_on c_dot d))).
Proof.
  intros [H N]. split.
  - apply join_chars; [repeat constructor|].
    apply Forall_forall. intros p Hp. apply in_map_iff in Hp.
    destruct Hp as [q [<- Hq]]. apply mask_part_chars; [reflexivity|].
    pose proof (split_on_chars c_dot H) as S. rewrite Forall_forall in S. auto.
  - pose proof (join_split c_dot d) as J.
    destruct (split_on c_dot d) as [|p [|q ps]].
    + cbn in J. congruence.
    + cbn [join] in J. subst p. cbn [map join]. now apply mask_part_nonempty.
    + cbn [map]. rewrite join_cons2. intros E. apply app_eq_nil in E.
      destruct E as [_ E]. discriminate E.
Qed.

(** X16. Masking is idempotent: a masked address is masked to itself. *)
Theorem mask_email_idempotent (v : pystr) :
  mask_email (mask_email v) = mask_email v.
Proof.
  destruct (search _EMAIL_RE v) as [[[before gs] rest]|] eqn:S.
  2:{ assert (E : mask_email v = v) by (unfold mask_email; now rewrite S).
      now rewrite E. }
  assert (E : exists l x y, all_in not_at_space l /\ all_in not_at_space x
                            /\ all_in not_at_space y
                            /\ mask_email v = masked l (x ++ c_dot :: y)).
  { destruct (search_from_sound _ _ _ S) as [s' [M _]].
    apply re_match_sound in M. destruct M as [HF _].
    destruct (email_pieces HF) as [l [x [y [-> [Hl [Hx Hy]]]]]].
    exists l, x, y. repeat split; try apply Hl; try apply Hx; try apply Hy.
    unfold mask_email. rewrite S. reflexivity. }
  destruct E as [l [x [y [Hl [Hx [Hy ->]]]]]].
  assert (Nx : map mask_part (split_on c_dot x) <> []).
  { pose proof (split_on_nonempty c_dot x).
    destruct (split_on c_dot x); [contradiction | discriminate]. }
  assert (Ny : map mask_part (split_on c_dot y) <> []).
  { pose proof (split_on_nonempty c_dot y).
    destruct (split_on c_dot y); [contradiction | discriminate]. }
  assert (Shape : masked l (x ++ c_dot :: y)
                  = mask_part l ++ c_at
                      :: join [c_dot] (map mask_part (split_on c_dot x)) ++ c_dot
                      :: join [c_dot] (map mask_part (split_on c_dot y))).
  { unfold masked. rewrite split_on_app, map_app, join_app by assumption.
    reflexivity. }
  rewrite Shape.
  pose proof (@mask_email_found [] (mask_part l)
                (join [c_dot] (map mask_part (split_on c_dot x)))
                (join [c_dot] (map mask_part (split_on c_dot y))) []) as X.
  cbn [app] in X. rewrite app_nil_r in X. rewrite X.
  - unfold masked. rewrite mask_part_idempotent. cbn [app]. f_equal. f_equal.
    rewrite split_on_app, !masked_labels_split, map_app, !map_map.
    rewrite join_app.
    + cbn [app]. f_equal; [|f_equal]; f_equal; apply map_ext; intros p;
        apply mask_part_idempotent.
    + rewrite <- map_map. intros E. apply map_eq_nil in E. contradiction.
    + rewrite <- map_map. intros E. apply map_eq_nil in E. contradiction.
  - split; [intros [] | exact I].
  - split; [apply mask_part_chars; [reflexivity | apply Hl]
           | apply mask_part_nonempty, Hl].
  - now apply masked_labels_all_in.
  - now apply masked_labels_all_in.
  - exact I.
Qed.

(** ** [strip_url_query] *)

Lemma piece_star (P : char -> bool) (p : pystr) :
  piece_ok (at_least 0 P) p <-> Forall (fun c => P c = true) p.
Proof.
  unfold piece_ok, at_least. cbn [cls lo hi]. split; [tauto|].
  intros H. repeat split; [exact H | lia].
Qed.

(** The pieces of a match of the pattern of [strip_url_query]: the scheme,
    the path, the query mark and the rest of the line. *)
Lemma url_query_pieces (gs : list pystr) :
  Forall2 piece_ok url_query_re gs ->
  exists sopt path q,
    gs = [[104]; [116]; [116]; [112]; sopt; [c_colon]; [c_slash]; [c_slash];
          path; [c_question]; q]%N
    /\ (sopt = [] \/ sopt = [115%N])
    /\ all_in url_path_char path
    /\ Forall (fun c => not_newline c = true) q.
Proof.
  unfold url_query_re. intros H.
  inversion H as [|? p1 ? ? P1 H1]; subst. inversion H1 as [|? p2 ? ? P2 H2]; subst.
  inversion H2 as [|? p3 ? ? P3 H3]; subst. inversion H3 as [|? p4 ? ? P4 H4]; subst.
  inversion H4 as [|? p5 ? ? P5 H5]; subst. inversion H5 as [|? p6 ? ? P6 H6]; subst.
  inversion H6 as [|? p7 ? ? P7 H7]; subst. inversion H7 as [|? p8 ? ? P8 H8]; subst.
  inversion H8 as [|? p9 ? ? P9 H9]; subst. inversion H9 as [|? p10 ? ? P10 H10]; subst.
  inversion H10 as [|? p11 ? ? P11 H11]; subst. inversion H11; subst.
  apply piece_lit in P1, P2, P3, P4, P6, P7, P8, P10. subst.
  apply piece_opt in P5. apply piece_plus in P9. apply piece_star in P11.
  exists p5, p9, p11. repeat split; try tauto.
Qed.

Lemma url_query_pieces_ok (sopt path q : pystr) :
  sopt = [] \/ sopt = [115%N] ->
  all_in url_path_char path ->
  Forall (fun c => not_newline c = true) q ->
  Forall2 piece_ok url_query_re
    [[104]; [116]; [116]; [112]; sopt; [c_colon]; [c_slash]; [c_slash];
     path; [c_question]; q]%N.
Proof.
  intros Hs Hp Hq. unfold url_query_re.
  repeat (apply Forall2_cons;
            [first [now apply piece_lit | now apply piece_opt
                   | now apply piece_plus | now apply piece_star]|]).
  constructor.
Qed.

(** X17. A text without a query mark is returned as it is. *)
Theorem strip_url_query_without_mark (v : pystr) :
  contains c_question v = false -> strip_url_query v = v.
Proof.
  intros H. unfold strip_url_query. cbn [sub_group1].
  destruct (search url_query_re v) as [[[before gs] rest]|] eqn:S; [|reflexivity].
  exfalso. destruct (search_from_sound _ _ _ S) as [s' [M E]].
  apply re_match_sound in M. destruct M as [HF [Es _]].
  destruct (url_query_pieces HF) as [sopt [path [q [-> _]]]].
  assert (I : In c_question v).
  { cbn [rev app] in E. rewrite E, Es. cbn [concat].
    apply in_or_app. right. apply in_or_app. left.
    do 9 (apply in_or_app; right). apply in_or_app. left. now left. }
  apply contains_In in I. congruence.
Qed.

Lemma strip_url_query_without_mark_witness :
  strip_url_query (str "https://example.com/path") = str "https://example.com/path".
Proof. apply strip_url_query_without_mark. reflexivity. Defined.

(** The nested call of [re.sub] needs no more fuel than the text is long. *)
Lemma sub_group1_stable (n : nat) :
  forall m s, length s < n -> length s < m -> sub_group1 n s = sub_group1 m s.
Proof.
  induction n as [|n IH]; intros m s Hn Hm; [lia|].
  destruct m as [|m]; [lia|]. cbn [sub_group1].
  destruct (search url_query_re s) as [[[before gs] rest]|] eqn:Sr; [|reflexivity].
  destruct (search_from_sound _ _ _ Sr) as [s' [M E]].
  apply re_match_sound in M. destruct M as [HF [Es _]].
  destruct (url_query_pieces HF) as [sopt [path [q [-> _]]]].
  cbn [rev app] in E.
  assert (L : length rest < length s).
  { rewrite E, Es. cbn [concat]. rewrite !length_app. cbn [length]. lia. }
  rewrite (IH m rest); [reflexivity | lia | lia].
Qed.

Lemma strip_url_query_eq (v : pystr) :
  strip_url_query v =
  match search url_query_re v with
  | Some (before, gs, rest) =>
      before ++ concat (firstn 9 gs) ++ strip_url_query rest
  | None => v
  end.
Proof.
  unfold strip_url_query at 1. cbn [sub_group1].
  destruct (search url_query_re v) as [[[before gs] rest]|] eqn:Sr; [|reflexivity].
  destruct (search_from_sound _ _ _ Sr) as [s' [M E]].
  apply re_match_sound in M. destruct M as [HF [Es _]].
  destruct (url_query_pieces HF) as [sopt [path [q [-> _]]]].
  cbn [rev app] in E.
  assert (L : length rest < length v).
  { rewrite E, Es. cbn [concat]. rewrite !length_app. cbn [length]. lia. }
  unfold strip_url_query.
  rewrite (@sub_group1_stable (length v) (S (length rest))); [reflexivity | lia | lia].
Qed.

Lemma scheme_no_mark (sopt : pystr) :
  sopt = [] \/ sopt = [115%N] ->
  ~ In c_question (str "http" ++ sopt ++ str "://").
Proof.
  intros [-> | ->] H; apply contains_In in H; discriminate H.
Qed.

Lemma url_path_no_mark (p : pystr) :
  Forall (fun c => url_path_char c = true) p -> ~ In c_question p.
Proof.
  intros H I. rewrite Forall_forall in H. apply H in I. discriminate I.
Qed.

(** X18. A URL at the start of the text loses its query: from the query mark to
    the end of the line everything is removed, and the lines that follow
    are treated the same way. *)
Theorem strip_url_query_cuts_query (sopt path q rest : pystr) :
  sopt = [] \/ sopt = [115%N] ->
  all_in url_path_char path ->
  Forall (fun c => not_newline c = true) q ->
  stops not_newline rest ->
  strip_url_query
    (str "http" ++ sopt ++ str "://" ++ path ++ [c_question] ++ q ++ rest)
  = str "http" ++ sopt ++ str "://" ++ path ++ strip_url_query rest.
Proof.
  intros Hs Hp Hq Hr. rewrite strip_url_query_eq.
  set (v := str "http" ++ sopt ++ str "://" ++ path ++ [c_question] ++ q ++ rest).
  assert (C : re_match false url_query_re v <> None).
  { pose proof (@re_match_complete false url_query_re _ rest
                  (url_query_pieces_ok Hs Hp Hq)) as X.
    cbn [concat] in X. rewrite <- !app_assoc in X. cbn [app] in X.
    rewrite ?app_nil_r in X. apply X. discriminate. }
  destruct (re_match false url_query_re v) as [[gs rest']|] eqn:M; [|contradiction].
  assert (S : search url_query_re v = Some ([], gs, rest')).
  { unfold search. destruct v; cbn [search_from]; rewrite M; reflexivity. }
  rewrite S. cbn [app].
  pose proof (@re_match_last_greedy not_newline 0
                [lit 104; lit 116; lit 116; lit 112; opt (chr_eqb 115);
                 lit c_colon; lit c_slash; lit c_slash; at_least 1 url_path_char;
                 lit c_question]%N v gs rest' M) as G.
  apply re_match_sound in M. destruct M as [HF [Es _]].
  destruct (url_query_pieces HF) as [sopt' [path' [q' [-> [Hs' [[Hp' _] Hq']]]]]].
  cbn [concat] in Es. rewrite <- !app_assoc in Es. cbn [app] in Es.
  unfold v in Es. cbn [str map list_ascii_of_string app] in Es.
  assert (Esopt : sopt' = sopt /\ path ++ c_question :: q ++ rest
                                  = path' ++ c_question :: q' ++ rest').
  { destruct Hs as [-> | ->], Hs' as [-> | ->]; cbn [app] in Es;
      inversion Es; auto. }
  destruct Esopt as [-> Ep].
  apply before_first in Ep;
    [| exact (url_path_no_mark (proj1 Hp)) | exact (url_path_no_mark Hp')].
  destruct Ep as [<- Eq].
  destruct (@run_unique not_newline q q' rest rest' Hq Hq' Hr G Eq) as [_ <-].
  cbn [firstn concat]. rewrite <- !app_assoc. cbn [app].
  rewrite ?app_nil_r.
  destruct Hs as [-> | ->]; reflexivity.
Qed.

Lemma strip_url_query_cuts_query_witness :
  strip_url_query
    (str "http" ++ [115%N] ++ str "://" ++ str "example.com/path"
     ++ [c_question] ++ str "token=abc" ++ [])
  = str "http" ++ [115%N] ++ str "://" ++ str "example.com/path"
    ++ strip_url_query [].
Proof.
  apply strip_url_query_cuts_query.
  - now right.
  - split; [repeat constructor | discriminate].
  - repeat constructor.
  - exact I.
Defined.

Lemma search_from_skipped (r : list item) (s skipped : pystr) :
  search_from r skipped s
  = match search r s with
    | Some (before, gs, rest) => Some (rev skipped ++ before, gs, rest)
    | None => None
    end.
Proof.
  unfold search. revert skipped.
  assert (G : forall sk2 sk1,
             search_from r (sk2 ++ sk1) s
             = match search_from r sk2 s with
               | Some (before, gs, rest) => Some (rev sk1 ++ before, gs, rest)
               | None => None
               end).
  { induction s as [|c s IH]; intros sk2 sk1; cbn [search_from].
    - destruct (re_match false r []) as [[gs rest]|]; [|reflexivity].
      now rewrite rev_app_distr.
    - destruct (re_match false r (c :: s)) as [[gs rest]|].
      + now rewrite rev_app_distr.
      + apply (IH (c :: sk2) sk1). }
  intros skipped. apply (G [] skipped).
Qed.

(** The match [search] returns is the leftmost: no match starts in what it
    skipped. *)
Lemma search_from_leftmost (r : list item) (s skipped : pystr) before gs rest :
  search_from r skipped s = Some (before, gs, rest) ->
  exists a s', before = rev skipped ++ a /\ s = a ++ s'
    /\ forall a1 a2, a = a1 ++ a2 -> a2 <> [] ->
       re_match false r (a2 ++ s') = None.
Proof.
  revert skipped. induction s as [|c s IH]; intros skipped; cbn [search_from].
  - destruct (re_match false r []) as [[gs' rest']|] eqn:E; [|discriminate].
    intros H. inversion H; subst. exists [], []. rewrite app_nil_r.
    repeat split. intros a1 a2 Ea N. symmetry in Ea.
    apply app_eq_nil in Ea. destruct Ea. contradiction.
  - destruct (re_match false r (c :: s)) as [[gs' rest']|] eqn:E.
    + intros H. inversion H; subst. exists [], (c :: s). rewrite app_nil_r.
      repeat split. intros a1 a2 Ea N. symmetry in Ea.
      apply app_eq_nil in Ea. destruct Ea. contradiction.
    + intros H. destruct (IH _ H) as [a [s' [Eb [Es Hn]]]].
      exists (c :: a), s'. repeat split.
      * rewrite Eb. cbn [rev]. now rewrite <- app_assoc.
      * now rewrite Es.
      * intros a1 a2 Ea N. destruct a1 as [|x a1].
        -- cbn [app] in Ea. subst a2. cbn [app]. rewrite <- Es. exact E.
        -- inversion Ea; subst. now apply (Hn a1 a2).
Qed.

(** Where no match starts, [re.sub] copies the text. *)
Lemma strip_url_query_skip (a s : pystr) :
  (forall a1 a2, a = a1 ++ a2 -> a2 <> [] ->
     re_match false url_query_re (a2 ++ s) = None) ->
  strip_url_query (a ++ s) = a ++ strip_url_query s.
Proof.
  intros H. rewrite (strip_url_query_eq (a ++ s)), (strip_url_query_eq s).
  unfold search at 1. rewrite (search_from_skip _ _ _ H), search_from_skipped.
  destruct (search url_query_re s) as [[[before gs] rest]|]; [|reflexivity].
  rewrite app_nil_r, rev_involutive, <- app_assoc. reflexivity.
Qed.

Lemma scheme_path_chars (sopt path : pystr) :
  sopt = [] \/ sopt = [115%N] ->
  Forall (fun c => url_path_char c = true) path ->
  Forall (fun c => url_path_char c = true) (str "http" ++ sopt ++ str "://" ++ path).
Proof.
  intros Hs Hp. destruct Hs as [-> | ->]; cbn [str map list_ascii_of_string app];
    repeat (constructor; [reflexivity|]); exact Hp.
Qed.

(** What the pattern reads starts with a run of path characters up to a
    query mark. *)
Lemma url_query_match_shape (s : pystr) gs rest :
  re_match false url_query_re s = Some (gs, rest) ->
  exists sopt path t,
    (sopt = [] \/ sopt = [115%N]) /\ all_in url_path_char path
    /\ s = (str "http" ++ sopt ++ str "://" ++ path) ++ c_question :: t.
Proof.
  intros M. apply re_match_sound in M. destruct M as [HF [Es _]].
  destruct (url_query_pieces HF) as [sopt [path [q [-> [Hs [Hp _]]]]]].
  exists sopt, path, (q ++ rest). repeat split; try assumption; try apply Hp.
  rewrite Es. cbn [concat]. rewrite <- !app_assoc. cbn [app].
  destruct Hs as [-> | ->]; reflexivity.
Qed.

Lemma url_query_match_at (sopt path t : pystr) :
  sopt = [] \/ sopt = [115%N] -> all_in url_path_char path ->
  re_match false url_query_re
    ((str "http" ++ sopt ++ str "://" ++ path) ++ c_question :: t) <> None.
Proof.
  intros Hs Hp.
  pose proof (@re_match_complete false url_query_re _ t
                (@url_query_pieces_ok sopt path [] Hs Hp (Forall_nil _))) as X.
  cbn [concat] in X. rewrite <- !app_assoc in X. cbn [app] in X.
  rewrite <- !app_assoc. cbn [app].
  destruct Hs as [-> | ->]; cbn [app] in *; apply X; discriminate.
Qed.

(** After a replacement, what was kept of the match and what stood before
    it hold no match, whatever line follows. *)
Lemma no_match_in_kept (before sopt path tail next : pystr) :
  (forall a1 a2, before = a1 ++ a2 -> a2 <> [] ->
     re_match false url_query_re
       (a2 ++ (str "http" ++ sopt ++ str "://" ++ path) ++ c_question :: tail) = None) ->
  sopt = [] \/ sopt = [115%N] ->
  all_in url_path_char path ->
  stops url_path_char next ->
  match next with c :: _ => c <> c_question | [] => True end ->
  forall a1 a2,
    before ++ (str "http" ++ sopt ++ str "://" ++ path) = a1 ++ a2 -> a2 <> [] ->
    re_match false url_query_re (a2 ++ next) = None.
Proof.
  intros Hleft Hs Hp Hn Hq a1 a2 Ea N.
  set (g := str "http" ++ sopt ++ str "://" ++ path) in *.
  assert (Hg : Forall (fun c => url_path_char c = true) g)
    by (apply scheme_path_chars; [exact Hs | apply Hp]).
  destruct (re_match false url_query_re (a2 ++ next)) as [[gs rest]|] eqn:M;
    [|reflexivity].
  exfalso. apply url_query_match_shape in M.
  destruct M as [sopt' [path' [t [Hs' [Hp' E]]]]].
  set (w := str "http" ++ sopt' ++ str "://" ++ path') in *.
  assert (Hw : Forall (fun c => url_path_char c = true) w)
    by (apply scheme_path_chars; [exact Hs' | apply Hp']).
  assert (Stop : stops url_path_char (c_question :: t)) by reflexivity.
  assert (Headless : forall x, next = c_question :: x -> False).
  { intros x ->. now apply Hq. }
  apply app_eq_app in Ea. destruct Ea as [l [[Eb Eg] | [Eb Eg]]].
  - (* the match would start in what stood before *)
    destruct l as [|x l].
    + rewrite app_nil_r in Eb. cbn [app] in Eg. subst a2.
      destruct (@run_unique url_path_char g w next (c_question :: t) Hg Hw Hn Stop E)
        as [_ En]. exact (Headless _ En).
    + subst a2. rewrite <- app_assoc in E.
      symmetry in E. apply app_eq_app in E. destruct E as [k [[E1 E2] | [E1 E2]]].
      * (* [w] reaches into the kept match or beyond *)
        assert (Hk : Forall (fun c => url_path_char c = true) k).
        { rewrite E1 in Hw. apply Forall_app in Hw. apply Hw. }
        destruct (@run_unique url_path_char g k next (c_question :: t) Hg Hk Hn Stop E2)
          as [_ En]. exact (Headless _ En).
      * destruct k as [|y k].
        -- cbn [app] in E2. rewrite app_nil_r in E1.
           assert (G0 : exists g', g = 104%N :: g').
           { unfold g. eexists. reflexivity. }
           destruct G0 as [g' G0]. rewrite G0 in E2. inversion E2.
        -- cbn [app] in E2. inversion E2 as [[Ey Et]]. subst y. clear E2.
           pose proof (Hleft a1 (x :: l) Eb ltac:(discriminate)) as Z.
           rewrite E1, <- app_assoc in Z. cbn [app] in Z.
           exact (@url_query_match_at sopt' path'
                    (k ++ g ++ c_question :: tail) Hs' Hp' Z).
  - (* the match would start inside the kept match *)
    assert (Ha2 : Forall (fun c => url_path_char c = true) a2).
    { rewrite Eg in Hg. apply Forall_app in Hg. apply Hg. }
    destruct (@run_unique url_path_char a2 w next (c_question :: t) Ha2 Hw Hn Stop E)
      as [_ En]. exact (Headless _ En).
Qed.

Lemma newline_no_match (s : pystr) :
  re_match false url_query_re (c_lf :: s) = None.
Proof.
  destruct (re_match false url_query_re (c_lf :: s)) as [[gs rest]|] eqn:M;
    [|reflexivity].
  apply url_query_match_shape in M.
  destruct M as [sopt [path [t [_ [_ E]]]]]. discriminate E.
Qed.

Lemma strip_url_query_next_line (rest : pystr) :
  stops not_newline rest ->
  stops url_path_char (strip_url_query rest)
  /\ match strip_url_query rest with c :: _ => c <> c_question | [] => True end.
Proof.
  destruct rest as [|c t]; [intros _; split; exact I|].
  cbn [stops]. unfold not_newline. rewrite negb_false_iff. intros H.
  apply chr_eqb_eq in H. subst c.
  pose proof (@strip_url_query_skip [c_lf] t) as X. cbn [app] in X.
  rewrite X.
  - split; [reflexivity | discriminate].
  - intros a1 a2 E N. destruct a1 as [|x a1].
    + cbn [app] in E. subst a2. apply newline_no_match.
    + inversion E as [[Ex Ea]]. symmetry in Ea. apply app_eq_nil in Ea.
      destruct Ea. contradiction.
Qed.

(** X19. Stripping the queries twice changes nothing more. *)
Theorem strip_url_query_idempotent (v : pystr) :
  strip_url_query (strip_url_query v) = strip_url_query v.
Proof.
  remember (length v) as n eqn:Hn. revert v Hn.
  induction n as [n IH] using lt_wf_ind. intros v ->.
  destruct (search url_query_re v) as [[[before gs] rest]|] eqn:Sr.
  2:{ assert (E : strip_url_query v = v)
        by (rewrite strip_url_query_eq, Sr; reflexivity).
      now rewrite !E. }
  unfold search in Sr.
  destruct (search_from_leftmost _ _ _ Sr) as [a [s' [Eb [Ev Left]]]].
  cbn [rev app] in Eb. subst a.
  destruct (search_from_sound _ _ _ Sr) as [s'' [M Es]].
  cbn [rev app] in Es. rewrite Ev in Es. apply app_inv_head in Es. subst s''.
  pose proof (@re_match_last_greedy not_newline 0
                [lit 104; lit 116; lit 116; lit 112; opt (chr_eqb 115);
                 lit c_colon; lit c_slash; lit c_slash; at_least 1 url_path_char;
                 lit c_question]%N s' gs rest M) as G.
  apply re_match_sound in M. destruct M as [HF [Es _]].
  destruct (url_query_pieces HF) as [sopt [path [q [-> [Hs [Hp Hq]]]]]].
  set (g := str "http" ++ sopt ++ str "://" ++ path).
  assert (Eg : concat (firstn 9 [[104]; [116]; [116]; [112]; sopt; [c_colon];
                                 [c_slash]; [c_slash]; path; [c_question]; q]%N) = g).
  { unfold g. cbn [firstn concat]. rewrite <- ?app_assoc. cbn [app].
    rewrite ?app_nil_r. destruct Hs as [-> | ->]; reflexivity. }
  assert (Es' : s' = g ++ c_question :: q ++ rest).
  { rewrite Es. unfold g. cbn [concat]. rewrite <- ?app_assoc. cbn [app].
    destruct Hs as [-> | ->]; reflexivity. }
  assert (E : strip_url_query v = (before ++ g) ++ strip_url_query rest).
  { rewrite strip_url_query_eq. unfold search. rewrite Sr.
    rewrite <- app_assoc. f_equal. f_equal. exact Eg. }
  rewrite E.
  destruct (@strip_url_query_next_line rest G) as [N1 N2].
  rewrite strip_url_query_skip.
  - f_equal. apply (IH (length rest)); [|reflexivity].
    rewrite Ev, Es', !length_app. cbn [length]. rewrite length_app. lia.
  - apply (@no_match_in_kept before sopt path (q ++ rest)); try assumption.
    intros a1 a2 Ea Na. fold g. rewrite <- Es'. now apply (Left a1 a2).
Qed.

(** ** Literals end where the escaper ends them *)

(** [literal_end quote s] reads the text [s] that follows an opening quote,
    the way a lexer of string literals does: a backslash takes the next
    character with it, and the first quote met otherwise ends the literal.
    The result is the text after that quote. *)
Fixpoint literal_end (quote : char) (s : pystr) : option pystr :=
  match s with
  | [] => None
  | c :: s' =>
      if chr_eqb c quote then Some s'
      else if chr_eqb c c_backslash then
        match s' with
        | [] => None
        | _ :: s'' => literal_end quote s''
        end
      else literal_end quote s'
  end.

(** The literal [text] opens with [quote] and ends at its own last
    character, whatever text comes after it. *)
Definition closes_at_end (quote : char) (text : pystr) : Prop :=
  exists body, text = quote :: body
               /\ forall rest, literal_end quote (body ++ rest) = Some rest.

(** A word the reader steps over. *)
Definition stepped_over (quote : char) (w : pystr) : Prop :=
  forall t, literal_end quote (w ++ t) = literal_end quote t.

Lemma stepped_plain (quote c : char) :
  chr_eqb c quote = false -> chr_eqb c c_backslash = false ->
  stepped_over quote [c].
Proof. intros H1 H2 t. cbn [app literal_end]. now rewrite H1, H2. Qed.

Lemma stepped_escape (quote c : char) :
  quote <> c_backslash -> stepped_over quote [c_backslash; c].
Proof.
  intros H t. cbn [app literal_end].
  rewrite (chr_eqb_false (a := c_backslash) (b := quote)) by congruence.
  now rewrite chr_eqb_refl.
Qed.

Lemma stepped_app (quote : char) (u w : pystr) :
  stepped_over quote u -> stepped_over quote w -> stepped_over quote (u ++ w).
Proof. intros Hu Hw t. now rewrite <- app_assoc, Hu, Hw. Qed.

Lemma stepped_flat_map (quote : char) (f : char -> pystr) (s : pystr) :
  (forall c, stepped_over quote (f c)) -> stepped_over quote (flat_map f s).
Proof.
  intros H. induction s as [|c s IH]; [intros t; reflexivity|].
  cbn [flat_map]. now apply stepped_app.
Qed.

Lemma quoted_closes (quote : char) (body : pystr) :
  stepped_over quote body ->
  closes_at_end quote ([quote] ++ body ++ [quote]).
Proof.
  intros H. exists (body ++ [quote]). split; [reflexivity|].
  intros rest. rewrite <- app_assoc, H. cbn [app literal_end].
  now rewrite chr_eqb_refl.
Qed.

Definition c_char (x : char) : pystr :=
  if chr_eqb x c_backslash then [c_backslash; c_backslash]
  else if chr_eqb x c_dquote then [c_backslash; c_dquote]
  else if chr_eqb x c_lf then str "\n"
  else [x].

Lemma c_literal_chars (s : pystr) :
  _c_literal s = quoted (flat_map c_char s).
Proof.
  unfold _c_literal, quoted, replace. rewrite !flat_map_flat_map.
  do 2 f_equal. apply flat_map_pointwise. intros x _. unfold c_char.
  destruct (chr_eqb x c_backslash) eqn:E1; [apply chr_eqb_eq in E1; subst; reflexivity|].
  destruct (chr_eqb x c_dquote) eqn:E2; [apply chr_eqb_eq in E2; subst; reflexivity|].
  destruct (chr_eqb x c_lf) eqn:E3; [apply chr_eqb_eq in E3; subst; reflexivity|].
  cbn [flat_map app]. rewrite E2. cbn [flat_map app]. rewrite E3. reflexivity.
Qed.

Lemma js_char_stepped (x : char) : stepped_over c_dquote (js_char x).
Proof.
  unfold js_char.
  destruct (chr_eqb x c_backslash) eqn:E1; [apply stepped_escape; discriminate|].
  destruct (chr_eqb x c_dquote) eqn:E2; [apply stepped_escape; discriminate|].
  now apply stepped_plain.
Qed.

Lemma java_char_stepped (x : char) : stepped_over c_dquote (java_char x).
Proof.
  unfold java_char.
  destruct (chr_eqb x c_backslash) eqn:E1; [apply stepped_escape; discriminate|].
  destruct (chr_eqb x c_dquote) eqn:E2; [apply stepped_escape; discriminate|].
  destruct (chr_eqb x c_lf) eqn:E3; [apply stepped_escape; discriminate|].
  destruct (chr_eqb x c_cr) eqn:E4; [apply stepped_escape; discriminate|].
  now apply stepped_plain.
Qed.

Lemma c_char_stepped (x : char) : stepped_over c_dquote (c_char x).
Proof.
  unfold c_char.
  destruct (chr_eqb x c_backslash) eqn:E1; [apply stepped_escape; discriminate|].
  destruct (chr_eqb x c_dquote) eqn:E2; [apply stepped_escape; discriminate|].
  destruct (chr_eqb x c_lf) eqn:E3; [apply stepped_escape; discriminate|].
  now apply stepped_plain.
Qed.

Lemma double_quoted_close (s : pystr) :
  closes_at_end c_dquote (_js_literal s)
  /\ closes_at_end c_dquote (_java_literal s)
  /\ closes_at_end c_dquote (_c_literal s).
Proof.
  rewrite js_literal_chars, java_literal_chars, c_literal_chars. unfold quoted.
  repeat split; apply quoted_closes, stepped_flat_map.
  - exact js_char_stepped.
  - exact java_char_stepped.
  - exact c_char_stepped.
Qed.

(** X20. The literals written for JavaScript, Java and the C family are closed
    by their last character only: no quote or backslash of the input ends
    the literal early or escapes its closing quote. *)
Theorem double_quoted_literals_close (s : pystr) :
  closes_at_end c_dquote (_js_literal s)
  /\ closes_at_end c_dquote (_java_literal s)
  /\ closes_at_end c_dquote (_c_literal s).
Proof. apply double_quoted_close. Qed.

(** ** The shell literal reads back *)

(** [sh_read inside s] reads a shell word made of single-quoted parts and
    backslash escapes, and returns the text it stands for: between single
    quotes every character stands for itself, outside them a backslash
    makes the next character stand for itself.  [inside] tells whether a
    single quote is open. *)
Fixpoint sh_read (inside : bool) (s : pystr) : option pystr :=
  match s with
  | [] => if inside then None else Some []
  | c :: s' =>
      if inside then
        if chr_eqb c c_squote then sh_read false s'
        else option_map (cons c) (sh_read true s')
      else if chr_eqb c c_squote then sh_read true s'
      else if chr_eqb c c_backslash then
        match s' with
        | [] => None
        | d :: s'' => option_map (cons d) (sh_read false s'')
        end
      else None
  end.

Lemma sh_read_body (s : pystr) :
  sh_read true (replace c_squote (str "'\''") s ++ [c_squote]) = Some s.
Proof.
  induction s as [|x s IH].
  - cbn. now rewrite chr_eqb_refl.
  - change (replace c_squote (str "'\''") (x :: s))
      with ((if chr_eqb x c_squote then str "'\''" else [x])
            ++ replace c_squote (str "'\''") s).
    rewrite <- app_assoc.
    remember (replace c_squote (str "'\''") s ++ [c_squote]) as R eqn:HR.
    case_chr x c_squote.
    + cbn [str map list_ascii_of_string app sh_read].
      change (N_of_ascii "'"%char) with c_squote.
      change (N_of_ascii "\"%char) with c_backslash.
      rewrite !chr_eqb_refl.
      change (chr_eqb c_backslash c_squote) with false. cbn iota.
      rewrite IH. reflexivity.
    + cbn [app sh_read]. rewrite E, IH. reflexivity.
Qed.

Lemma sh_read_bash_literal (s : pystr) :
  sh_read false (_bash_literal s) = Some s.
Proof.
  unfold _bash_literal. destruct (contains c_squote s) eqn:C; cbn [negb].
  - cbn [app sh_read]. rewrite chr_eqb_refl. apply sh_read_body.
  - cbn [app sh_read]. rewrite chr_eqb_refl.
    rewrite <- (replace_absent c_squote (str "'\''") s C) at 1.
    apply sh_read_body.
Qed.

(** X21. Read by the quoting rules of the shell, the literal written for bash
    stands for the input, whatever the input. *)
Theorem bash_literal_reads_back (s : pystr) :
  sh_read false (_bash_literal s) = Some s.
Proof. apply sh_read_bash_literal. Qed.

(** ** [repr]: quotes, escapes, printable output *)

Arguments isprintable : simpl never.
Arguments iscased : simpl never.
Arguments iscaseignorable : simpl never.
Arguments tolower_full : simpl never.

Definition hex_char (c : char) : Prop :=
  (48 <= c <= 57 \/ 97 <= c <= 102)%N.

Lemma hex_digit_char (n : N) : (n < 16)%N -> hex_char (hex_digit n).
Proof.
  intros H. unfold hex_digit, hex_char. destruct (N.ltb n 10) eqn:E.
  - apply N.ltb_lt in E. lia.
  - apply N.ltb_ge in E. lia.
Qed.

Lemma hex_digits_chars (n : nat) (c : N) : Forall hex_char (hex_digits n c).
Proof.
  revert c. induction n as [|n IH]; intros c; cbn [hex_digits]; [constructor|].
  apply Forall_app. split; [apply IH|]. constructor; [|constructor].
  apply hex_digit_char. change 15%N with (N.ones 4).
  rewrite N.land_ones. apply N.mod_lt. discriminate.
Qed.

Lemma hex_stepped (quote : char) (w : pystr) :
  quote = c_squote \/ quote = c_dquote ->
  Forall hex_char w -> stepped_over quote w.
Proof.
  intros Hq H. induction H as [|c w Hc _ IH]; [intros t; reflexivity|].
  change (c :: w) with ([c] ++ w). apply stepped_app; [|exact IH].
  apply stepped_plain; apply chr_eqb_false; unfold hex_char in Hc;
    [destruct Hq as [-> | ->]; unfold c_squote, c_dquote | unfold c_backslash]; lia.
Qed.

Lemma repr_char_stepped (quote ch : char) :
  quote = c_squote \/ quote = c_dquote ->
  stepped_over quote (repr_char quote ch).
Proof.
  intros Hq.
  assert (Q : quote <> c_backslash) by (destruct Hq as [-> | ->]; discriminate).
  assert (X : forall (l : char) n, stepped_over quote ([c_backslash; l] ++ hex_digits n ch)).
  { intros l n. apply stepped_app; [now apply stepped_escape|].
    apply hex_stepped; [exact Hq | apply hex_digits_chars]. }
  unfold repr_char.
  destruct (chr_eqb ch quote || chr_eqb ch c_backslash)%bool eqn:E1;
    [now apply stepped_escape|].
  apply orb_false_iff in E1. destruct E1 as [E1 E1'].
  destruct (chr_eqb ch 9%N); [now apply stepped_escape|].
  destruct (chr_eqb ch 10%N); [now apply stepped_escape|].
  destruct (chr_eqb ch 13%N); [now apply stepped_escape|].
  destruct (N.ltb ch 32 || chr_eqb ch 127%N)%bool; [apply X|].
  destruct (N.ltb ch 127); [now apply stepped_plain|].
  destruct (negb (isprintable ch)); [|now apply stepped_plain].
  destruct (N.leb ch 255); [apply X|]. destruct (N.leb ch 65535); apply X.
Qed.

Lemma repr_closes (s : pystr) :
  exists quote,
    closes_at_end quote (_python_literal s)
    /\ (quote = c_squote \/ quote = c_dquote)
    /\ (quote = c_dquote
        <-> contains c_squote s = true /\ contains c_dquote s = false).
Proof.
  unfold _python_literal, repr.
  destruct (contains c_squote s && negb (contains c_dquote s))%bool eqn:E.
  - exists c_dquote. split; [|split; [now right|]].
    + apply quoted_closes, stepped_flat_map. intros c.
      apply repr_char_stepped. now right.
    + apply andb_true_iff in E. rewrite negb_true_iff in E. tauto.
  - exists c_squote. split; [|split; [now left|]].
    + apply quoted_closes, stepped_flat_map. intros c.
      apply repr_char_stepped. now left.
    + split; [discriminate|]. intros [A B]. rewrite A, B in E. discriminate E.
Qed.

(** X22. The Python literal is closed by its last character only, and its quote
    is the double quote exactly when the input holds a single quote and no
    double quote. *)
Theorem python_literal_closes (s : pystr) :
  exists quote,
    closes_at_end quote (_python_literal s)
    /\ (quote = c_squote \/ quote = c_dquote)
    /\ (quote = c_dquote
        <-> contains c_squote s = true /\ contains c_dquote s = false).
Proof. apply repr_closes. Qed.

Lemma ascii_printable (c : char) :
  (32 <= c)%N -> (c < 127)%N -> isprintable c = true.
Proof.
  intros H1 H2. unfold isprintable. apply negb_true_iff.
  apply (@ranges_disjoint_sound [(32, 126)%N] nonprintable_ranges).
  - vm_compute. reflexivity.
  - unfold in_ranges, in_range. cbn [existsb fst snd].
    rewrite orb_false_r. apply andb_true_iff. split; apply N.leb_le; lia.
Qed.

Lemma hex_printable (w : pystr) :
  Forall hex_char w -> Forall (fun c => isprintable c = true) w.
Proof.
  apply Forall_impl. intros c H. unfold hex_char in H. apply ascii_printable; lia.
Qed.

Lemma repr_char_printable (quote ch : char) :
  quote = c_squote \/ quote = c_dquote ->
  Forall (fun c => isprintable c = true) (repr_char quote ch).
Proof.
  intros Hq.
  assert (X : forall (l : char) n, isprintable l = true ->
            Forall (fun c => isprintable c = true)
              ([c_backslash; l] ++ hex_digits n ch)).
  { intros l n Hl. apply Forall_app. split.
    - constructor; [reflexivity|]. constructor; [exact Hl | constructor].
    - apply hex_printable, hex_digits_chars. }
  unfold repr_char.
  destruct (chr_eqb ch quote || chr_eqb ch c_backslash)%bool eqn:E1.
  { constructor; [reflexivity|]. constructor; [|constructor].
    apply orb_true_iff in E1. destruct E1 as [E1 | E1]; apply chr_eqb_eq in E1; subst ch;
      [destruct Hq as [-> | ->]|]; reflexivity. }
  destruct (chr_eqb ch 9%N); [repeat constructor|].
  destruct (chr_eqb ch 10%N); [repeat constructor|].
  destruct (chr_eqb ch 13%N); [repeat constructor|].
  destruct (N.ltb ch 32 || chr_eqb ch 127%N)%bool eqn:E2; [apply X; reflexivity|].
  apply orb_false_iff in E2. destruct E2 as [E2 _]. apply N.ltb_ge in E2.
  destruct (N.ltb ch 127) eqn:E3.
  { apply N.ltb_lt in E3. constructor; [now apply ascii_printable | constructor]. }
  destruct (isprintable ch) eqn:E4; cbn [negb]; [repeat constructor; exact E4|].
  destruct (N.leb ch 255); [apply X; reflexivity|].
  destruct (N.leb ch 65535); apply X; reflexivity.
Qed.

(** X23. [repr] writes printable characters only: no control character, no line
    boundary and no whitespace but the space reaches the Python literal. *)
Theorem python_literal_printable (s : pystr) :
  Forall (fun c => isprintable c = true) (_python_literal s).
Proof.
  unfold _python_literal, repr.
  set (quote := if (contains c_squote s && negb (contains c_dquote s))%bool
                then c_dquote else c_squote).
  assert (Hq : quote = c_squote \/ quote = c_dquote).
  { unfold quote. destruct (_ && _)%bool; auto. }
  assert (Pq : isprintable quote = true) by (destruct Hq as [-> | ->]; reflexivity).
  apply Forall_app. split; [repeat constructor; exact Pq|].
  apply Forall_app. split; [|repeat constructor; exact Pq].
  clearbody quote. induction s as [|c s IH]; [constructor|].
  cbn [flat_map]. apply Forall_app. split; [now apply repr_char_printable | exact IH].
Qed.

(** ** The language name: only ASCII case is folded to a key *)

Definition ascii_lower (c : char) : char :=
  if (N.leb 65 c && N.leb c 90)%bool then (c + 32)%N else c.

Definition run_first (r : N * N * N * N) : N := fst (fst (fst r)).

Lemma run_image_cons (r : N * N * N * N) (runs : list (N * N * N * N)) (c : char) :
  run_image (r :: runs) c
  = if in_run c r then (snd r + (c - run_first r))%N else run_image runs c.
Proof. destruct r as [[[first last] step] image]. reflexivity. Qed.

Lemma run_image_below (runs : list (N * N * N * N)) (c : char) :
  forallb (fun r => N.ltb c (run_first r)) runs = true -> run_image runs c = c.
Proof.
  induction runs as [|r runs IH]; [reflexivity|]. cbn [forallb].
  intros H. apply andb_true_iff in H. destruct H as [Hr Hs].
  rewrite run_image_cons, (IH Hs).
  destruct r as [[[first last] step] image]. unfold in_run, run_first in *.
  cbn [fst snd] in *. apply N.ltb_lt in Hr.
  rewrite (proj2 (N.leb_gt first c)) by exact Hr. reflexivity.
Qed.

Lemma forallb_weaken {A : Type} (p q : A -> bool) (l : list A) :
  (forall x, p x = true -> q x = true) -> forallb p l = true -> forallb q l = true.
Proof.
  intros H. rewrite !forallb_forall. auto.
Qed.

Lemma tolower_full_ascii (c : char) :
  (c < 128)%N -> tolower_full c = [ascii_lower c].
Proof.
  intros H. unfold tolower_full.
  rewrite (chr_eqb_false (a := c) (b := 304%N)) by lia. f_equal.
  assert (E : lower_runs = (65, 90, 1, 97)%N :: tl lower_runs) by reflexivity.
  rewrite E, run_image_cons. unfold in_run, run_first, ascii_lower. cbn [fst snd].
  rewrite N.mod_1_r. cbn [N.eqb]. rewrite andb_true_r.
  destruct (N.leb 65 c && N.leb c 90)%bool eqn:B.
  - apply andb_true_iff in B. destruct B as [B1 B2]. apply N.leb_le in B1, B2. lia.
  - apply run_image_below.
    apply (@forallb_weaken _ (fun r => N.leb 128 (run_first r))).
    + intros r Hr. apply N.leb_le in Hr. apply N.ltb_lt. lia.
    + vm_compute. reflexivity.
Qed.

(** A character no key of [_LANGUAGE_ESCAPERS] is written with. *)
Definition foreign (c : char) : bool := (N.leb 128 c || N.eqb c 107)%bool.

Definition run_foreign (r : N * N * N * N) : bool :=
  let '(first, last, step, image) := r in
  (N.ltb last 128
   || (N.leb 128 first && N.leb 128 image)
   || (N.eqb first last && N.eqb image 107))%bool.

Lemma run_image_foreign (runs : list (N * N * N * N)) (c : char) :
  forallb run_foreign runs = true -> (128 <= c)%N ->
  foreign (run_image runs c) = true.
Proof.
  intros H Hc. induction runs as [|r runs IH].
  - cbn [run_image]. unfold foreign. apply orb_true_iff. left. now apply N.leb_le.
  - cbn [forallb] in H. apply andb_true_iff in H. destruct H as [Hr Hs].
    rewrite run_image_cons. destruct (in_run c r) eqn:I; [|exact (IH Hs)].
    destruct r as [[[first last] step] image]. unfold in_run, run_foreign, run_first in *.
    cbn [fst snd] in *.
    apply andb_true_iff in I. destruct I as [I _].
    apply andb_true_iff in I. destruct I as [I1 I2]. apply N.leb_le in I1, I2.
    unfold foreign. apply orb_true_iff.
    apply orb_true_iff in Hr. destruct Hr as [Hr | Hr].
    + apply orb_true_iff in Hr. destruct Hr as [Hr | Hr].
      * apply N.ltb_lt in Hr. lia.
      * apply andb_true_iff in Hr. destruct Hr as [A B].
        apply N.leb_le in A, B. left. apply N.leb_le. lia.
    + apply andb_true_iff in Hr. destruct Hr as [A B].
      apply N.eqb_eq in A, B. right. apply N.eqb_eq. lia.
Qed.

Lemma tolower_full_foreign (c : char) :
  (128 <= c)%N -> existsb foreign (tolower_full c) = true.
Proof.
  intros H. unfold tolower_full. destruct (chr_eqb c 304%N); [reflexivity|].
  cbn [existsb]. rewrite run_image_foreign; [reflexivity | vm_compute; reflexivity | exact H].
Qed.

Lemma lower_from_ascii (s : pystr) :
  Forall (fun c => (c < 128)%N) s ->
  forall before, lower_from before s = map ascii_lower s.
Proof.
  induction 1 as [|c s Hc _ IH]; intros before; [reflexivity|].
  cbn [lower_from map]. rewrite (chr_eqb_false (a := c) (b := 931%N)) by lia.
  rewrite (tolower_full_ascii Hc), IH. reflexivity.
Qed.

Lemma lower_from_foreign (s : pystr) :
  existsb (N.leb 128) s = true ->
  forall before, existsb foreign (lower_from before s) = true.
Proof.
  induction s as [|c s IH]; [discriminate|]. cbn [existsb lower_from].
  intros H before. rewrite existsb_app. apply orb_true_iff.
  destruct (N.leb 128 c) eqn:C.
  - left. case_chr c 931%N.
    + unfold handle_capital_sigma. cbn [existsb].
      destruct (if match first_solid before with Some c => iscased c | None => false end
                then match first_solid s with Some c => negb (iscased c) | None => true end
                else false); reflexivity.
    + apply tolower_full_foreign. now apply N.leb_le.
  - right. apply IH. exact H.
Qed.

Lemma ascii_or_not (s : pystr) :
  Forall (fun c => (c < 128)%N) s \/ existsb (N.leb 128) s = true.
Proof.
  induction s as [|c s [IH | IH]].
  - left. constructor.
  - destruct (N.leb 128 c) eqn:C.
    + right. cbn [existsb]. now rewrite C.
    + left. constructor; [apply N.leb_gt in C; exact C | exact IH].
  - right. cbn [existsb]. rewrite IH. apply orb_true_r.
Qed.

Lemma dict_get_foreign {V : Type} (d : list (pystr * V)) (k : pystr) :
  forallb (fun kv => negb (existsb foreign (fst kv))) d = true ->
  existsb foreign k = true ->
  dict_get d k = None.
Proof.
  intros Hd Hk. induction d as [|[k' v] d IH]; [reflexivity|].
  cbn [forallb fst] in Hd. apply andb_true_iff in Hd. destruct Hd as [H1 H2].
  cbn [dict_get]. destruct (str_eqb k' k) eqn:E; [|exact (IH H2)].
  apply str_eqb_eq in E. subst k'. rewrite Hk in H1. discriminate H1.
Qed.

Lemma ascii_lower_keeps_foreign (s : pystr) :
  existsb (N.leb 128) s = true -> existsb foreign (map ascii_lower s) = true.
Proof.
  induction s as [|c s IH]; [discriminate|]. cbn [existsb map].
  intros H. apply orb_true_iff in H. apply orb_true_iff. destruct H as [H | H].
  - left. unfold ascii_lower, foreign. apply N.leb_le in H.
    rewrite (proj2 (N.leb_gt c 90)) by lia. rewrite andb_false_r.
    apply orb_true_iff. left. now apply N.leb_le.
  - right. exact (IH H).
Qed.

(** X24. The language name is matched with its ASCII capitals folded, and with
    nothing else folded: a name that is written with any other character
    reaches no escaper, whatever [str.lower] makes of it, and gets the
    Python literal. *)
Theorem language_escape_ascii_case (s language : pystr) :
  language_escape s language
  = match dict_get _LANGUAGE_ESCAPERS (map ascii_lower language) with
    | Some fn => fn s
    | None => _python_literal s
    end.
Proof.
  unfold language_escape, lower.
  destruct (ascii_or_not language) as [A | A].
  - now rewrite (lower_from_ascii A).
  - rewrite !dict_get_foreign; try reflexivity.
    + now apply ascii_lower_keeps_foreign.
    + now apply lower_from_foreign.
Qed.

Lemma dict_get_In {V : Type} (d : list (pystr * V)) (k : pystr) (v : V) :
  dict_get d k = Some v -> In v (map snd d).
Proof.
  induction d as [|[k' v'] d IH]; [discriminate|]. cbn [dict_get map snd].
  destruct (str_eqb k' k); [intros H; inversion H; now left | intros H; right; auto].
Qed.

(** X25. Whatever the target language, known or not, [escape_for] returns a
    literal that closes at its end: a double-quoted one, a Python one in
    either quote, or a shell word that reads back as the input. *)
Theorem escape_for_closed (text target : pystr) :
  closes_at_end c_dquote (escape_for text target)
  \/ closes_at_end c_squote (escape_for text target)
  \/ sh_read false (escape_for text target) = Some text.
Proof.
  unfold escape_for. revert text target. intros s language.
  assert (P : closes_at_end c_dquote (_python_literal s)
              \/ closes_at_end c_squote (_python_literal s)).
  { destruct (repr_closes s) as [q [C [[-> | ->] _]]]; auto. }
  destruct (double_quoted_close s) as [Js [Java C]].
  unfold language_escape.
  destruct (dict_get _LANGUAGE_ESCAPERS (lower language)) as [fn|] eqn:G;
    [|destruct P; auto].
  apply dict_get_In in G. cbn [_LANGUAGE_ESCAPERS map snd In] in G.
  repeat (destruct G as [<- | G]; [solve [auto | destruct P; auto
                                         | right; right; apply sh_read_bash_literal]|]).
  contradiction.
Qed.

(** ** SQL escaping reads back *)

(** [sql_read s] reads the body of a SQL string literal: two single quotes
    stand for one, and a single quote on its own, which would end the
    literal, is refused. *)
Fixpoint sql_read (s : pystr) : option pystr :=
  match s with
  | [] => Some []
  | c :: s' =>
      if chr_eqb c c_squote then
        match s' with
        | d :: s'' =>
            if chr_eqb d c_squote then option_map (cons c_squote) (sql_read s'')
            else None
        | [] => None
        end
      else option_map (cons c) (sql_read s')
  end.

(** X26. Between the quotes of a SQL string literal the output of [escape_sql]
    stands for the input and never ends the literal. *)
Theorem escape_sql_reads_back (s : pystr) : sql_read (escape_sql s) = Some s.
Proof.
  rewrite escape_sql_chars. induction s as [|x s IH]; [reflexivity|].
  cbn [flat_map]. unfold sql_char at 1. case_chr x c_squote.
  - cbn [app sql_read]. rewrite !chr_eqb_refl, IH. reflexivity.
  - cbn [app sql_read]. rewrite E, IH. reflexivity.
Qed.

(** ** The phone mask on plain digits *)

(** X27. Fewer than four decimal digits: one star for each, everything else
    dropped.  Otherwise, when no character passes [str.isdigit] without
    being a decimal digit, the output has the layout of the input, and its
    digit places hold stars and then the last two digits of the input. *)
Theorem mask_phone_on_plain_digits (v : pystr) :
  (length (filter isdecimal v) < 4 ->
   mask_phone v = Returns (times c_star (length (filter isdecimal v))))
  /\ (plain_digits v -> 4 <= length (filter isdecimal v) ->
      exists out,
        mask_phone v = Returns out
        /\ same_layout v out
        /\ digit_slots v out
           = times c_star (length (filter isdecimal v) - 2)
             ++ skipn (length (filter isdecimal v) - 2) (filter isdecimal v)).
Proof.
  split.
  - intros H. unfold mask_phone. apply Nat.ltb_lt in H. now rewrite H.
  - intros Hv H. pose proof (mask_phone_spec Hv) as X. cbv zeta in X.
    apply Nat.ltb_ge in H. rewrite H in X. exact X.
Qed.

(** ** The package functions *)

Section Package.

Context {F : PyFloat}.


End Package.

(** ** A whole address *)

(** X29. On a text that is an address from end to end, [mask_email] masks
    what stands before the [@] as one part and what stands after it label
    by label, the [@] and the dots staying where they are. *)
Theorem mask_email_whole_address (e : pystr) :
  fullmatch _EMAIL_RE e = true ->
  exists l d,
    e = l ++ [c_at] ++ d
    /\ ~ In c_at l /\ ~ In c_at d
    /\ mask_email e
       = mask_part l ++ [c_at]
         ++ join [c_dot] (map mask_part (split_on c_dot d)).
Proof.
  intros M. apply fullmatch_Matches, email_shape in M.
  destruct M as [l [d1 [d3 [-> [Hl [H1 H3]]]]]].
  exists l, (d1 ++ c_dot :: d3). repeat split.
  - exact (not_at_space_not_at (proj1 Hl)).
  - intros I. apply in_app_or in I. destruct I as [I | [I | I]].
    + exact (not_at_space_not_at (proj1 H1) I).
    + discriminate I.
    + exact (not_at_space_not_at (proj1 H3) I).
  - pose proof (@mask_email_found [] l d1 d3 []) as X.
    cbn [app] in X. rewrite app_nil_r in X. apply X; try assumption; try exact I.
    split; [intros [] | exact I].
Qed.

Lemma mask_email_whole_address_witness :
  exists l d,
    str "bob@x.com" = l ++ [c_at] ++ d
    /\ ~ In c_at l /\ ~ In c_at d
    /\ mask_email (str "bob@x.com")
       = mask_part l ++ [c_at]
         ++ join [c_dot] (map mask_part (split_on c_dot d)).
Proof. apply mask_email_whole_address. reflexivity. Defined.

(** ** A detected address *)

Lemma spaces_no_address (a : pystr) :
  Forall (fun c => isspace c = true) a -> no_address_before a.
Proof.
  intros H. split.
  - intros I. rewrite Forall_forall in H. apply H in I. discriminate I.
  - apply Forall_rev in H. destruct (rev a) as [|c t]; [exact I|].
    now inversion H.
Qed.

Lemma spaces_stop (b : pystr) :
  Forall (fun c => isspace c = true) b -> stops not_at_space b.
Proof.
  intros H. destruct b as [|c b]; [exact I|]. inversion H; subst.
  cbn [stops]. unfold not_at_space. rewrite H2, orb_true_r. reflexivity.
Qed.

Section DetectedAddress.

Context {F : PyFloat}.

(** X30. A text detected as an address comes back as the mask of its trimmed
    form: the whitespace around the address is not part of the output. *)
Theorem detected_email_output (v : pystr) :
  detect_type v = Email ->
  sanitize_value v None = Returns (Email, mask_email (strip v)).
Proof.
  intros D. rewrite sanitize_value_eq, D. do 2 f_equal.
  assert (M : fullmatch _EMAIL_RE (strip v) = true).
  { rewrite detect_type_cascade in D.
    destruct (json_ok _); [discriminate|]. destruct (env_ok _); [discriminate|].
    destruct (fullmatch _EMAIL_RE _); [reflexivity|].
    destruct (fullmatch _PHONE_RE _); [discriminate|].
    destruct (fullmatch _URL_RE _); discriminate. }
  destruct (strip_split v) as [a [b [E [Ha Hb]]]].
  apply fullmatch_Matches, email_shape in M.
  destruct M as [l [d1 [d3 [Es [Hl [H1 H3]]]]]].
  rewrite E at 1. rewrite Es.
  rewrite mask_email_found;
    [| now apply spaces_no_address | assumption .. | now apply spaces_stop].
  pose proof (@mask_email_found [] l d1 d3 []) as X.
  cbn [app] in X. rewrite app_nil_r in X. rewrite X; try assumption; try exact I.
  - reflexivity.
  - split; [intros [] | exact I].
Qed.

End DetectedAddress.

Lemma detected_email_output_witness :
  sanitize_value (F := literal_floats) ([c_space] ++ str "bob@x.com" ++ [c_lf]) None
  = Returns (Email, mask_email (strip ([c_space] ++ str "bob@x.com" ++ [c_lf]))).
Proof. apply detected_email_output. reflexivity. Defined.
